(** * ion / pkg/rtc: the WebRTC connection transport

    A shallow embedding of [pkg/rtc/webrtctransport.go]: the transport
    record, its packet and feedback operations, the receiver-estimated
    bandwidth report, and the goroutines of one transport together with
    [Close] as an interleaving transition system.

    Conventions.
    - Go's [uint8]/[uint16]/[uint32]/[uint64] are [Z] with the wrap-around
      written out ([wrap16], [wrap64]).
    - [float64] is IEEE 754 binary64, taken from the Standard Library's
      [SpecFloat] at precision 53 and [emax = 1024].
    - A Go map used as a value table is a [gmap]; the one map whose
      identity matters ([ssrcPT], handed out by [SSRCPT]) lives in a store
      of maps and is held by reference.
    - pion's [PeerConnection] and [Track] are library objects: they are
      modelled by what this package hands to them. *)

From Stdlib Require Import ZArith Lia Bool List SpecFloat.
From stdpp Require Import base option gmap strings list.

Local Open Scope Z_scope.

(* ===================================================================== *)
(** * Results of fallible operations *)
(* ===================================================================== *)

(** The package's error values ([errors.New] in the [var] block) and the
    one pion error the model needs. *)
Inductive error :=
| errChanClosed      (* "channel closed"  *)
| errInvalidTrack    (* "track not found" *)
| errInvalidPacket   (* "packet is nil"   *)
| errInvalidOptions  (* "invalid options" *)
| errClosedPipe.     (* io.ErrClosedPipe, from pion's Track.WriteRTP *)

(** A call either returns, or the Go runtime panics. *)
Inductive outcome (A : Type) :=
| Done (a : A)
| Panic (msg : string).
Arguments Done {A} a.
Arguments Panic {A} msg.

Definition obind {A B} (m : outcome A) (k : A -> outcome B) : outcome B :=
  match m with
  | Done a => k a
  | Panic msg => Panic msg
  end.

Notation "'let!' x ':=' m 'in' k" := (obind m (fun x => k))
  (at level 10, x name, m at level 100, k at level 200).

(* ===================================================================== *)
(** * Machine integers *)
(* ===================================================================== *)

Definition wrap16 (n : Z) : Z := n mod 2 ^ 16.
Definition wrap64 (n : Z) : Z := n mod 2 ^ 64.
Definition max_uint64 : Z := 2 ^ 64 - 1.

Definition is_uint64 (n : Z) : Prop := 0 <= n <= max_uint64.

(* ===================================================================== *)
(** * Constants of the package *)
(* ===================================================================== *)

Definition rembLowBW : Z := 30 * 1000.
Definition rembHighBW : Z := 100 * 1000.

(** pion's default payload types. *)
Definition DefaultPayloadTypeOpus : Z := 111.
Definition DefaultPayloadTypeVP8 : Z := 96.
Definition DefaultPayloadTypeVP9 : Z := 98.
Definition DefaultPayloadTypeH264 : Z := 102.

Definition is_video_pt (pt : Z) : bool :=
  (pt =? DefaultPayloadTypeVP8) || (pt =? DefaultPayloadTypeVP9)
  || (pt =? DefaultPayloadTypeH264).

(* ===================================================================== *)
(** * Packets *)
(* ===================================================================== *)

(** [rtp.Packet]: the header fields the package reads, and the marshalled
    size that [receiveRTP] accumulates. *)
Record rtp_Packet := {
  SSRC : Z;
  SequenceNumber : Z;
  MarshalSize : Z
}.

(** [rtcp.NackPair]: a packet id and a bitmask of the sixteen following
    sequence numbers. *)
Record NackPair := {
  PacketID : Z;
  LostPackets : Z
}.

Record TransportLayerNack := {
  nackSenderSSRC : Z;
  nackMediaSSRC : Z;
  Nacks : list NackPair
}.

Record ReceiverEstimatedMaximumBitrate := {
  rembSenderSSRC : Z;
  Bitrate : Z;
  SSRCs : list Z
}.

(** The closed part of [rtcp.Packet] that the package switches on. *)
Inductive rtcp_Packet :=
| PictureLossIndication (senderSSRC mediaSSRC : Z)
| Nack (n : TransportLayerNack)
| Remb (r : ReceiverEstimatedMaximumBitrate)
| ReceiverReport
| SenderReport
| OtherRTCP.

(* ===================================================================== *)
(** * pion objects *)
(* ===================================================================== *)

(** [webrtc.Track] as the package uses it: its payload type, and the
    packets written to it.  pion's [Track.WriteRTP] fails with
    [io.ErrClosedPipe] while no sender is bound to the track. *)
Record Track := {
  PayloadType : Z;
  trackSenders : nat;
  trackSent : list rtp_Packet
}.

Definition Track_WriteRTP (tr : Track) (pkt : rtp_Packet) : Track * option error :=
  match trackSenders tr with
  | O => (tr, Some errClosedPipe)
  | S _ =>
      ({| PayloadType := PayloadType tr;
          trackSenders := trackSenders tr;
          trackSent := trackSent tr ++ [pkt] |}, None)
  end.

(** [webrtc.PeerConnection]: whether [Close] was called on it, and the
    batches handed to [WriteRTCP], oldest first. *)
Record PeerConnection := {
  pcClosed : bool;
  rtcpOut : list (list rtcp_Packet)
}.

Definition pc_WriteRTCP (c : PeerConnection) (pkts : list rtcp_Packet) : PeerConnection :=
  {| pcClosed := pcClosed c; rtcpOut := rtcpOut c ++ [pkts] |}.

(** [PeerConnection.Close]: idempotent in pion (a closed connection
    returns [nil] at once). *)
Definition pc_Close (c : PeerConnection) : PeerConnection :=
  {| pcClosed := true; rtcpOut := rtcpOut c |}.

(* ===================================================================== *)
(** * Channels *)
(* ===================================================================== *)

Record chan (A : Type) := {
  chClosed : bool;
  chBuf : list A;
  chCap : nat
}.
Arguments chClosed {A} c.
Arguments chBuf {A} c.
Arguments chCap {A} c.

Definition make_chan (A : Type) (cap : nat) : chan A :=
  {| chClosed := false; chBuf := []; chCap := cap |}.

(** [close(ch)]: closing a closed channel is a run-time panic. *)
Definition close_chan {A} (c : chan A) : outcome (chan A) :=
  if chClosed c then Panic "close of closed channel"%string
  else Done {| chClosed := true; chBuf := chBuf c; chCap := chCap c |}.

(** A buffered send that does not block: [None] when the buffer is full
    (the sender stays parked), a panic when the channel is closed. *)
Definition chan_send {A} (c : chan A) (a : A) : option (outcome (chan A)) :=
  if chClosed c then Some (Panic "send on closed channel"%string)
  else if (length (chBuf c) <? chCap c)%nat
       then Some (Done {| chClosed := false; chBuf := chBuf c ++ [a]; chCap := chCap c |})
       else None.

(* ===================================================================== *)
(** * The transport *)
(* ===================================================================== *)

(** The store of Go maps held by reference. *)
Abbreviation mapref := nat (only parsing).
Abbreviation heap := (gmap nat (gmap Z Z)) (only parsing).

Record WebRTCTransport := {
  id : string;
  pc : option PeerConnection;          (* nil until an Answer* call *)
  track : gmap Z Track;                (* nil entries are absent keys *)
  stopCh : chan unit;
  pliCh : chan Z;
  rtpCh : chan rtp_Packet;
  wg : Z;                              (* sync.WaitGroup counter *)
  ssrcPT : mapref;
  byteRate : Z;
  isLostPacket : bool;
  hasVideo : bool;
  hasAudio : bool;
  hasScreen : bool;
  errCount : Z
}.

Definition set_pc (t : WebRTCTransport) (p : option PeerConnection) : WebRTCTransport :=
  {| id := id t; pc := p; track := track t; stopCh := stopCh t; pliCh := pliCh t;
     rtpCh := rtpCh t; wg := wg t; ssrcPT := ssrcPT t; byteRate := byteRate t;
     isLostPacket := isLostPacket t; hasVideo := hasVideo t; hasAudio := hasAudio t;
     hasScreen := hasScreen t; errCount := errCount t |}.

Definition set_track (t : WebRTCTransport) (m : gmap Z Track) : WebRTCTransport :=
  {| id := id t; pc := pc t; track := m; stopCh := stopCh t; pliCh := pliCh t;
     rtpCh := rtpCh t; wg := wg t; ssrcPT := ssrcPT t; byteRate := byteRate t;
     isLostPacket := isLostPacket t; hasVideo := hasVideo t; hasAudio := hasAudio t;
     hasScreen := hasScreen t; errCount := errCount t |}.

Definition set_stopCh (t : WebRTCTransport) (c : chan unit) : WebRTCTransport :=
  {| id := id t; pc := pc t; track := track t; stopCh := c; pliCh := pliCh t;
     rtpCh := rtpCh t; wg := wg t; ssrcPT := ssrcPT t; byteRate := byteRate t;
     isLostPacket := isLostPacket t; hasVideo := hasVideo t; hasAudio := hasAudio t;
     hasScreen := hasScreen t; errCount := errCount t |}.

Definition set_pliCh (t : WebRTCTransport) (c : chan Z) : WebRTCTransport :=
  {| id := id t; pc := pc t; track := track t; stopCh := stopCh t; pliCh := c;
     rtpCh := rtpCh t; wg := wg t; ssrcPT := ssrcPT t; byteRate := byteRate t;
     isLostPacket := isLostPacket t; hasVideo := hasVideo t; hasAudio := hasAudio t;
     hasScreen := hasScreen t; errCount := errCount t |}.

Definition set_rtpCh (t : WebRTCTransport) (c : chan rtp_Packet) : WebRTCTransport :=
  {| id := id t; pc := pc t; track := track t; stopCh := stopCh t; pliCh := pliCh t;
     rtpCh := c; wg := wg t; ssrcPT := ssrcPT t; byteRate := byteRate t;
     isLostPacket := isLostPacket t; hasVideo := hasVideo t; hasAudio := hasAudio t;
     hasScreen := hasScreen t; errCount := errCount t |}.

Definition set_wg (t : WebRTCTransport) (n : Z) : WebRTCTransport :=
  {| id := id t; pc := pc t; track := track t; stopCh := stopCh t; pliCh := pliCh t;
     rtpCh := rtpCh t; wg := n; ssrcPT := ssrcPT t; byteRate := byteRate t;
     isLostPacket := isLostPacket t; hasVideo := hasVideo t; hasAudio := hasAudio t;
     hasScreen := hasScreen t; errCount := errCount t |}.

Definition set_stats (t : WebRTCTransport) (rate : Z) (lost : bool) : WebRTCTransport :=
  {| id := id t; pc := pc t; track := track t; stopCh := stopCh t; pliCh := pliCh t;
     rtpCh := rtpCh t; wg := wg t; ssrcPT := ssrcPT t; byteRate := rate;
     isLostPacket := lost; hasVideo := hasVideo t; hasAudio := hasAudio t;
     hasScreen := hasScreen t; errCount := errCount t |}.

Definition set_flags (t : WebRTCTransport) (v a s : bool) : WebRTCTransport :=
  {| id := id t; pc := pc t; track := track t; stopCh := stopCh t; pliCh := pliCh t;
     rtpCh := rtpCh t; wg := wg t; ssrcPT := ssrcPT t; byteRate := byteRate t;
     isLostPacket := isLostPacket t; hasVideo := v; hasAudio := a;
     hasScreen := s; errCount := errCount t |}.

(** [newWebRTCTransport]: fresh channels and fresh, empty maps. *)
Definition newWebRTCTransport (i : string) (h : heap) : WebRTCTransport * heap :=
  let r := fresh (dom h) in
  ({| id := i; pc := None; track := ∅;
      stopCh := make_chan unit 0; pliCh := make_chan Z 0;
      rtpCh := make_chan rtp_Packet 1000;
      wg := 0; ssrcPT := r; byteRate := 0; isLostPacket := false;
      hasVideo := false; hasAudio := false; hasScreen := false; errCount := 0 |},
   <[r := ∅]> h).

Definition ID (t : WebRTCTransport) : string := id t.

(* ===================================================================== *)
(** * Packet and table operations *)
(* ===================================================================== *)

(** [ReadRTP]: a receive on [rtpCh].  [None]: the channel is open and
    empty, the caller stays parked. *)
Definition ReadRTP (t : WebRTCTransport)
  : option ((option rtp_Packet * option error) * WebRTCTransport) :=
  match chBuf (rtpCh t) with
  | p :: rest =>
      Some ((Some p, None),
            set_rtpCh t {| chClosed := chClosed (rtpCh t); chBuf := rest;
                           chCap := chCap (rtpCh t) |})
  | [] => if chClosed (rtpCh t) then Some ((None, Some errChanClosed), t) else None
  end.

(** [WriteRTP]: [pkt] is a pointer, [None] is [nil].  The track is looked
    up by the packet's SSRC; a missing key reads as the nil track. *)
Definition WriteRTP (t : WebRTCTransport) (pkt : option rtp_Packet)
  : option error * WebRTCTransport :=
  match pkt with
  | None => (Some errInvalidPacket, t)
  | Some p =>
      match track t !! SSRC p with
      | Some tr =>
          let '(tr', err) := Track_WriteRTP tr p in
          (err, set_track t (<[SSRC p := tr']> (track t)))
      | None => (Some errInvalidTrack, t)
      end
  end.

(** [SSRCPT]: returns [t.ssrcPT], the map itself. *)
Definition SSRCPT (t : WebRTCTransport) : mapref := ssrcPT t.

(** What a holder of a map reference reads through it. *)
Definition deref (h : heap) (r : mapref) : gmap Z Z := default ∅ (h !! r).

(** The first statement of the [OnTrack] handler set by [AnswerPublish]:
    [t.ssrcPT[remoteTrack.SSRC()] = remoteTrack.PayloadType()]. *)
Definition OnTrack_record (t : WebRTCTransport) (ssrc pt : Z) (h : heap) : heap :=
  <[ssrcPT t := <[ssrc := pt]> (deref h (ssrcPT t))]> h.

(** [sendNack] *)
Definition sendNack (t : WebRTCTransport) (nack : TransportLayerNack) : WebRTCTransport :=
  match pc t with
  | None => t
  | Some c =>
      set_pc (set_stats t (byteRate t) true) (Some (pc_WriteRTCP c [Nack nack]))
  end.

Definition errCnt (t : WebRTCTransport) : Z := errCount t.

(* ===================================================================== *)
(** * AnswerPublish: options and the media engine *)
(* ===================================================================== *)

(** A value of [interface{}] as the options carry it. *)
Inductive value :=
| VBool (b : bool)
| VString (s : string)
| VOther.

Inductive codec := Opus | H264 | VP8 | VP9.

(** [webrtc.MediaEngine]: the codecs registered so far, in order. *)
Abbreviation MediaEngine := (list codec) (only parsing).

Definition ascii_lower (c : Ascii.ascii) : Ascii.ascii :=
  let n := Ascii.nat_of_ascii c in
  if ((65 <=? n) && (n <=? 90))%nat then Ascii.ascii_of_nat (n + 32) else c.

(** [strings.EqualFold] on byte strings, by ASCII letters.  It agrees with
    Go's Unicode folding whenever one argument is ["h264"] or ["vp9"]:
    none of [h], [v], [p] and the digits folds to a rune outside ASCII. *)
Fixpoint EqualFold (s u : string) : bool :=
  match s, u with
  | EmptyString, EmptyString => true
  | String a s', String b u' =>
      Ascii.eqb (ascii_lower a) (ascii_lower b) && EqualFold s' u'
  | _, _ => false
  end.

(** [v, ok := options[k].(bool)] *)
Definition bool_option (o : gmap string value) (k : string) : option bool :=
  match o !! k with
  | Some (VBool b) => Some b
  | _ => None
  end.

(** [AnswerPublish] up to [webrtc.NewAPI]: the options check, the codec
    registration and the capability flags.  [options = None] is the nil
    map.  The negotiation with pion that follows is outside the model.
    [codec.(string)] without the comma-ok form panics on a value that is
    not a string. *)
Definition AnswerPublish (t : WebRTCTransport) (options : option (gmap string value))
  : outcome (option error * MediaEngine * WebRTCTransport) :=
  match options with
  | None => Done (Some errInvalidOptions, [], t)
  | Some o =>
      let mediaEngine := [Opus] in
      let! mediaEngine :=
        match o !! "codec"%string with
        | Some (VString codecStr) =>
            if EqualFold codecStr "h264" then Done (mediaEngine ++ [H264])
            else if EqualFold codecStr "vp9" then Done (mediaEngine ++ [VP9])
            else Done (mediaEngine ++ [VP8])
        | Some _ => Panic "interface conversion: interface {} is not string"%string
        | None => Done mediaEngine
        end in
      let v := default (hasVideo t) (bool_option o "video") in
      let a := default (hasAudio t) (bool_option o "audio") in
      let s := default (hasScreen t) (bool_option o "screen") in
      Done (None, mediaEngine, set_flags t v a s)
  end.

(* ===================================================================== *)
(** * float64 *)
(* ===================================================================== *)

Definition f64_prec : Z := 53.
Definition f64_emax : Z := 1024.

Abbreviation float64 := spec_float (only parsing).

(** A [float64] value is a canonical binary64 datum. *)
Definition f64_valid (x : float64) : bool := valid_binary f64_prec f64_emax x.

Definition f64_sub (x y : float64) : float64 := SFsub f64_prec f64_emax x y.
Definition f64_mul (x y : float64) : float64 := SFmul f64_prec f64_emax x y.
Definition f64_div (x y : float64) : float64 := SFdiv f64_prec f64_emax x y.

Definition f64_lt (x y : float64) : bool := SFltb x y.
Definition f64_le (x y : float64) : bool := SFleb x y.
Definition f64_gt (x y : float64) : bool := SFltb y x.
Definition f64_ge (x y : float64) : bool := SFleb y x.
Definition f64_eq (x y : float64) : bool := SFeqb x y.

(** [float64(n)] for an unsigned integer: round to nearest, ties to even. *)
Definition f64_of_uint64 (n : Z) : float64 := binary_normalize f64_prec f64_emax n 0 false.

Definition f64_zero : float64 := S754_zero false.
Definition f64_one : float64 := S754_finite false 4503599627370496 (-52).
(** The constant [0.1] as a [float64]: the binary64 nearest to 1/10. *)
Definition f64_tenth : float64 := S754_finite false 7205759403792794 (-56).

Definition f64_is_nan (x : float64) : bool :=
  match x with S754_nan => true | _ => false end.

Section Conversion.

(** Go leaves [uint64(x)] implementation-dependent when the truncated [x]
    is not a [uint64] (too large, negative, infinite, not a number):
    [cvt_undef] is what the platform produces there. *)
Variable cvt_undef : float64 -> Z.

(** [uint64(x)]: the fraction is discarded. *)
Definition uint64_of_f64 (x : float64) : Z :=
  match x with
  | S754_zero _ => 0
  | S754_finite s m e =>
      let v := Z.shiftl (Z.pos m) e in
      if s then (if v =? 0 then 0 else wrap64 (cvt_undef x))
      else if v <=? max_uint64 then v else wrap64 (cvt_undef x)
  | _ => wrap64 (cvt_undef x)
  end.

(* ===================================================================== *)
(** * sendREMB *)
(* ===================================================================== *)

(** The [range t.track] loop: the SSRC of the last video track met.  Go
    visits the entries of a map in an order of its own choosing, a new
    one for every loop: [visited] is the table in the order of this
    loop. *)
Definition videoSSRC_of (visited : list (Z * Track)) : Z :=
  foldl (fun acc '(ssrc, tr) => if is_video_pt (PayloadType tr) then ssrc else acc)
        0 visited.

(** The guard at the head of [sendREMB]. *)
Definition remb_rejects (lostRate : float64) : bool :=
  f64_gt lostRate f64_one || f64_lt lostRate f64_zero.

(** The [if / else if / else] that proposes [bw]. *)
Definition remb_proposal (rate : Z) (lostRate : float64) : Z :=
  if f64_eq lostRate f64_zero && (rate =? 0) then rembHighBW
  else if f64_ge lostRate f64_zero && f64_lt lostRate f64_tenth then wrap64 (rate * 2)
  else uint64_of_f64 (f64_mul (f64_of_uint64 rate) (f64_sub f64_one lostRate)).

(** The two clamping [if]s. *)
Definition remb_clamp (bw : Z) : Z :=
  let bw := if bw <? rembLowBW then rembLowBW else bw in
  if bw >? rembHighBW then rembHighBW else bw.

(** [bw] as it stands when the report is built. *)
Definition remb_bw (rate : Z) (lostRate : float64) : Z :=
  remb_clamp (remb_proposal rate lostRate).

(** [sendREMB]; [visited] is [t.track] in the order in which this call's
    [range] visits it. *)
Definition sendREMB (t : WebRTCTransport) (lostRate : float64) (visited : list (Z * Track))
  : outcome WebRTCTransport :=
  if remb_rejects lostRate then Done t
  else
    let videoSSRC := videoSSRC_of visited in
    let bw := remb_bw (byteRate t) lostRate in
    let remb := {| rembSenderSSRC := videoSSRC;
                   Bitrate := wrap64 (bw * 8);
                   SSRCs := [videoSSRC] |} in
    match pc t with
    | None => Panic "invalid memory address or nil pointer dereference"%string
    | Some c => Done (set_pc t (Some (pc_WriteRTCP c [Remb remb])))
    end.

End Conversion.

(** The byte rates [receiveRTP] can store: [t.byteRate = total / 3] with
    [total] a [uint64], and the initial 0. *)
Definition observed_rate (r : Z) : Prop := 0 <= r <= max_uint64 / 3.

(* ===================================================================== *)
(** * Retransmission requests read by a subscriber *)
(* ===================================================================== *)

(** pion's [NackPair.PacketList]: the packet id, then [PacketID + i + 1]
    (a [uint16]) for every bit [i] set in [LostPackets]. *)
Definition PacketList (n : NackPair) : list Z :=
  PacketID n ::
  omap (fun i : nat =>
          if Z.testbit (LostPackets n) (Z.of_nat i)
          then Some (wrap16 (PacketID n + Z.of_nat i + 1)) else None)
       (seq 0 16).

(** Modelled from the spec: the forwarding pipeline of one session, which
    is not among the sources.  It owns one publisher transport reference,
    nil ([None]) until the publisher is negotiated, the subscriber
    transports by id, and the retransmit cache keyed by (stream id,
    sequence number). *)
Record pipeline := {
  pl_cache : gmap (Z * Z) rtp_Packet;
  pl_pub : option WebRTCTransport;
  pl_subs : gmap string WebRTCTransport
}.

(** Modelled from the spec: [pipeline.getPub], the accessor of the
    publisher reference. *)
Definition getPub (p : pipeline) : option WebRTCTransport := pl_pub p.

Definition set_pub (p : pipeline) (t : option WebRTCTransport) : pipeline :=
  {| pl_cache := pl_cache p; pl_pub := t; pl_subs := pl_subs p |}.

(** Modelled from the spec: [pipeline.writePacket(sid, ssrc, sn)], which
    serves a retransmission request from the cache when the packet is
    present (the packet is written to subscriber [sid]) and reports a
    cache miss otherwise. *)
Definition writePacket (p : pipeline) (sid : string) (ssrc sn : Z) : bool * pipeline :=
  match pl_cache p !! (ssrc, sn) with
  | Some pkt =>
      (true,
       match pl_subs p !! sid with
       | Some sub =>
           {| pl_cache := pl_cache p; pl_pub := pl_pub p;
              pl_subs := <[sid := snd (WriteRTP sub (Some pkt))]> (pl_subs p) |}
       | None => p
       end)
  | None => (false, p)
  end.

(** The request [subReadRTCP] builds on a cache miss. *)
Definition synth_nack (nack : TransportLayerNack) (sn : Z) : TransportLayerNack :=
  {| nackSenderSSRC := nackSenderSSRC nack;
     nackMediaSSRC := nackMediaSSRC nack;
     Nacks := [ {| PacketID := sn; LostPackets := 0 |} ] |}.

(** A loop whose body may panic: the panic ends it. *)
Fixpoint ofoldl {A B} (f : A -> B -> outcome A) (a : A) (l : list B) : outcome A :=
  match l with
  | [] => Done a
  | b :: l => let! a := f a b in ofoldl f a l
  end.

(** The body of [for _, sn := range sns] in [subReadRTCP].  On a cache
    miss [getPipeline(mid).getPub().sendNack(n)] runs: with no publisher
    in the pipeline, [sendNack] reads [t.pc] through the nil reference. *)
Definition subReadRTCP_sn (tid : string) (nack : TransportLayerNack)
    (p : pipeline) (sn : Z) : outcome pipeline :=
  let '(ok, p) := writePacket p tid (nackMediaSSRC nack) sn in
  if negb ok then
    match getPub p with
    | Some pub => Done (set_pub p (Some (sendNack pub (synth_nack nack sn))))
    | None => Panic "invalid memory address or nil pointer dereference"%string
    end
  else Done p.

(** The [*rtcp.TransportLayerNack] case of the type switch. *)
Definition subReadRTCP_nack (tid : string) (p : pipeline) (nack : TransportLayerNack)
  : outcome pipeline :=
  ofoldl (fun p nackPair => ofoldl (subReadRTCP_sn tid nack) p (PacketList nackPair))
         p (Nacks nack).

(** The type switch on one packet, and the loop over a batch read from a
    sender. *)
Definition subReadRTCP_packet (tid : string) (p : pipeline) (pkt : rtcp_Packet)
  : outcome pipeline :=
  match pkt with
  | Nack nack => subReadRTCP_nack tid p nack
  | _ => Done p
  end.

Definition subReadRTCP_batch (tid : string) (p : pipeline) (pkts : list rtcp_Packet)
  : outcome pipeline :=
  ofoldl (subReadRTCP_packet tid) p pkts.

(** The sequence numbers a request names, in the order the loops visit
    them, and whether one is in the cache. *)
Definition requested (nack : TransportLayerNack) : list Z :=
  flat_map PacketList (Nacks nack).

Definition cached (p : pipeline) (ssrc sn : Z) : bool :=
  bool_decide (is_Some (pl_cache p !! (ssrc, sn))).

(* ===================================================================== *)
(** * The goroutines of one transport, and Close *)
(* ===================================================================== *)

(** Where the goroutine started by [sendPLI] stands. *)
Inductive pli_loc :=
| PliStart      (* before [t.wg.Add(1)] *)
| PliSelect     (* at the [select] *)
| PliSend       (* at [t.pliCh <- 1] *)
| PliReturned.

(** The goroutine [OnTrack] starts for a video track ([t.wg.Add(1)] runs
    before the [go] statement). *)
Inductive fwd_loc :=
| FwdSelect
| FwdReturned.

(** [receiveRTP], run by the [OnTrack] handler. *)
Inductive recv_loc :=
| RecvStart                    (* before [t.wg.Add(1)] *)
| RecvSelect
| RecvRead                     (* inside [remoteTrack.ReadRTP()] *)
| RecvSend (p : rtp_Packet)    (* at [t.rtpCh <- rtp] *)
| RecvReturned.

(** A goroutine of [subReadRTCP] ([t.wg.Add(1)] runs before [go]). *)
Inductive sub_loc :=
| SubSelect
| SubRead                      (* inside [senders[i].ReadRTCP()] *)
| SubReturned.

Inductive goroutine :=
| G_sendPLI (l : pli_loc)
| G_onTrackPLI (ssrc : Z) (l : fwd_loc)
| G_receiveRTP (total : Z) (l : recv_loc)
| G_subReadRTCP (l : sub_loc).

(** Where a call of [Close] stands. *)
Inductive close_loc :=
| CloseEntry      (* at [t.pc.Close()] *)
| CloseStop       (* at [close(t.stopCh)] *)
| CloseWait       (* at [t.wg.Wait()] *)
| CloseRtp        (* at [close(t.rtpCh)] *)
| ClosePli        (* at [close(t.pliCh)] *)
| CloseReturned.

(** The effects of [Close], as a call performs them. *)
Inductive close_event :=
| EvPcClose | EvRaiseStop | EvWaited | EvCloseRtp | EvClosePli.

Definition close_order : list close_event :=
  [EvPcClose; EvRaiseStop; EvWaited; EvCloseRtp; EvClosePli].

Record system := {
  tr : WebRTCTransport;
  connected : bool;                    (* the connection has come up: its
                                          senders and remote tracks run *)
  closer : option close_loc;           (* the call of Close, if any *)
  closeLog : list close_event;         (* effects of that call so far *)
  gs : list goroutine;
  panicked : option string
}.

(** What a goroutine does next: the case a [select] takes, what a
    blocking read returns, or simply its next statement. *)
Inductive alt :=
| Run
| CaseTicker
| CaseStop
| CasePli
| CaseDefault
| ReadPacket (p : rtp_Packet)
| ReadRTCP
| ReadEOF
| ReadError.               (* a read fails with an error other than io.EOF *)

Inductive action :=
| CallClose                (* the owner calls [t.Close()] *)
| StepClose                (* the call performs its next statement *)
| Go (i : nat) (a : alt)   (* goroutine [i] moves *)
| Handoff (i j : nat)      (* [i] sends on [pliCh], [j] receives *)
| Drain                    (* the pipeline's [ReadRTP] takes a packet *)
| Connect.                 (* the peer connects: the connection comes up *)

(** [t.wg.Done()] *)
Definition wg_Done (t : WebRTCTransport) : outcome WebRTCTransport :=
  if wg t - 1 <? 0 then Panic "sync: negative WaitGroup counter"%string
  else Done (set_wg t (wg t - 1)).

Definition wg_Add (t : WebRTCTransport) : WebRTCTransport := set_wg t (wg t + 1).

Definition pc_is_closed (t : WebRTCTransport) : bool :=
  match pc t with Some c => pcClosed c | None => false end.

(** [t.pc.WriteRTCP(pkts)] *)
Definition t_WriteRTCP (t : WebRTCTransport) (pkts : list rtcp_Packet) : outcome WebRTCTransport :=
  match pc t with
  | Some c => Done (set_pc t (Some (pc_WriteRTCP c pkts)))
  | None => Panic "invalid memory address or nil pointer dereference"%string
  end.

Definition returning (g : goroutine) (t : WebRTCTransport) : option (outcome (WebRTCTransport * goroutine)) :=
  Some (let! t := wg_Done t in Done (t, g)).

(** One move of a goroutine.  [None]: the move is not enabled (the
    goroutine is parked, or the [select] cannot take that case).

    [up] tells whether the connection has come up.  A read on a track or
    a sender of a connection that never came up does not return, not
    even after [pc.Close()]: it waits for the start of the stream.  On a
    connection that is up a read returns a packet, [io.EOF] once the
    connection is closed, or another error.  After another error
    [receiveRTP] goes on to [rtp.MarshalSize()] with a nil [rtp]
    (lines 248-255) and [subReadRTCP] goes on with an empty batch. *)
Definition go_step (up : bool) (t : WebRTCTransport) (g : goroutine) (a : alt)
  : option (outcome (WebRTCTransport * goroutine)) :=
  match g, a with
  (* sendPLI *)
  | G_sendPLI PliStart, Run => Some (Done (wg_Add t, G_sendPLI PliSelect))
  | G_sendPLI PliSelect, CaseTicker => Some (Done (t, G_sendPLI PliSend))
  | G_sendPLI PliSelect, CaseStop =>
      if chClosed (stopCh t) then returning (G_sendPLI PliReturned) t else None
  | G_sendPLI PliSend, Run =>
      if chClosed (pliCh t) then Some (Panic "send on closed channel"%string)
      else None                   (* unbuffered: waits for a receiver *)
  (* the PLI forwarder of OnTrack *)
  | G_onTrackPLI ssrc FwdSelect, CaseStop =>
      if chClosed (stopCh t) then returning (G_onTrackPLI ssrc FwdReturned) t else None
  | G_onTrackPLI ssrc FwdSelect, CasePli =>
      if chClosed (pliCh t)
      then Some (let! t := t_WriteRTCP t [PictureLossIndication ssrc ssrc] in
                 Done (t, G_onTrackPLI ssrc FwdSelect))
      else None                   (* open: waits for a sender *)
  (* receiveRTP *)
  | G_receiveRTP total RecvStart, Run =>
      Some (Done (wg_Add t, G_receiveRTP total RecvSelect))
  | G_receiveRTP total RecvSelect, CaseStop =>
      if chClosed (stopCh t) then returning (G_receiveRTP total RecvReturned) t else None
  | G_receiveRTP total RecvSelect, CaseTicker =>
      Some (Done (set_stats t (total / 3) false, G_receiveRTP 0 RecvSelect))
  | G_receiveRTP total RecvSelect, CaseDefault =>
      if chClosed (stopCh t) then None
      else Some (Done (t, G_receiveRTP total RecvRead))
  | G_receiveRTP total RecvRead, ReadPacket p =>
      if negb up || pc_is_closed t then None
      else Some (Done (t, G_receiveRTP (wrap64 (total + wrap64 (MarshalSize p))) (RecvSend p)))
  | G_receiveRTP total RecvRead, ReadEOF =>
      if up && pc_is_closed t then returning (G_receiveRTP total RecvReturned) t else None
  | G_receiveRTP total RecvRead, ReadError =>
      if up then Some (Panic "invalid memory address or nil pointer dereference"%string)
      else None
  | G_receiveRTP total (RecvSend p), Run =>
      match chan_send (rtpCh t) p with
      | Some (Done c) => Some (Done (set_rtpCh t c, G_receiveRTP total RecvSelect))
      | Some (Panic msg) => Some (Panic msg)
      | None => None
      end
  (* subReadRTCP *)
  | G_subReadRTCP SubSelect, CaseStop =>
      if chClosed (stopCh t) then returning (G_subReadRTCP SubReturned) t else None
  | G_subReadRTCP SubSelect, CaseDefault =>
      if chClosed (stopCh t) then None else Some (Done (t, G_subReadRTCP SubRead))
  | G_subReadRTCP SubRead, ReadRTCP =>
      if negb up || pc_is_closed t then None else Some (Done (t, G_subReadRTCP SubSelect))
  | G_subReadRTCP SubRead, ReadEOF =>
      if up && pc_is_closed t then returning (G_subReadRTCP SubReturned) t else None
  | G_subReadRTCP SubRead, ReadError =>
      if up then Some (Done (t, G_subReadRTCP SubSelect)) else None
  | _, _ => None
  end.

(** One statement of [Close].  [None]: [wg.Wait()] is still waiting, or
    the call has returned. *)
Definition close_step (t : WebRTCTransport) (l : close_loc)
  : option (outcome (WebRTCTransport * close_loc * close_event)) :=
  match l with
  | CloseEntry =>
      Some (match pc t with
            | Some c => Done (set_pc t (Some (pc_Close c)), CloseStop, EvPcClose)
            | None => Panic "invalid memory address or nil pointer dereference"%string
            end)
  | CloseStop =>
      Some (let! c := close_chan (stopCh t) in Done (set_stopCh t c, CloseWait, EvRaiseStop))
  | CloseWait =>
      if wg t =? 0 then Some (Done (t, CloseRtp, EvWaited)) else None
  | CloseRtp =>
      Some (let! c := close_chan (rtpCh t) in Done (set_rtpCh t c, ClosePli, EvCloseRtp))
  | ClosePli =>
      Some (let! c := close_chan (pliCh t) in Done (set_pliCh t c, CloseReturned, EvClosePli))
  | CloseReturned => None
  end.

Definition crash (s : system) (msg : string) : system :=
  {| tr := tr s; connected := connected s; closer := closer s; closeLog := closeLog s; gs := gs s;
     panicked := Some msg |}.

Definition with_tr (s : system) (t : WebRTCTransport) : system :=
  {| tr := t; connected := connected s; closer := closer s; closeLog := closeLog s; gs := gs s;
     panicked := panicked s |}.

(** One step of the system.  A panic ends the process: nothing moves
    after it. *)
Definition step (a : action) (s : system) : option system :=
  match panicked s with
  | Some _ => None
  | None =>
    match a with
    | CallClose =>
        match closer s with
        | None | Some CloseReturned =>
            Some {| tr := tr s; connected := connected s;
                    closer := Some CloseEntry; closeLog := [];
                    gs := gs s; panicked := None |}
        | Some _ => None
        end
    | StepClose =>
        l ← closer s;
        r ← close_step (tr s) l;
        Some (match r with
              | Done (t, l', ev) =>
                  {| tr := t; connected := connected s;
                     closer := Some l'; closeLog := closeLog s ++ [ev];
                     gs := gs s; panicked := None |}
              | Panic msg => crash s msg
              end)
    | Go i al =>
        g ← gs s !! i;
        r ← go_step (connected s) (tr s) g al;
        Some (match r with
              | Done (t, g') =>
                  {| tr := t; connected := connected s;
                     closer := closer s; closeLog := closeLog s;
                     gs := <[i := g']> (gs s); panicked := None |}
              | Panic msg => crash s msg
              end)
    | Handoff i j =>
        match gs s !! i, gs s !! j with
        | Some (G_sendPLI PliSend), Some (G_onTrackPLI ssrc FwdSelect) =>
            if chClosed (pliCh (tr s)) then None
            else Some (match t_WriteRTCP (tr s) [PictureLossIndication ssrc ssrc] with
                       | Done t =>
                           {| tr := t; connected := connected s;
                              closer := closer s; closeLog := closeLog s;
                              gs := <[i := G_sendPLI PliSelect]> (gs s);
                              panicked := None |}
                       | Panic msg => crash s msg
                       end)
        | _, _ => None
        end
    | Drain =>
        match ReadRTP (tr s) with
        | Some ((Some _, _), t) => Some (with_tr s t)
        | _ => None
        end
    | Connect =>
        match pc (tr s) with
        | Some c =>
            if connected s || pcClosed c then None
            else Some {| tr := tr s; connected := true;
                         closer := closer s; closeLog := closeLog s;
                         gs := gs s; panicked := None |}
        | None => None
        end
    end
  end.

(** A schedule is a list of actions, each enabled when its turn comes. *)
Fixpoint run (acts : list action) (s : system) : option system :=
  match acts with
  | [] => Some s
  | a :: rest => s' ← step a s; run rest s'
  end.

(** No action is enabled. *)
Definition stuck (s : system) : Prop := forall a, step a s = None.

(** A negotiated transport on which [Close] has not been called. *)
Definition live (s : system) : Prop :=
  closer s = None /\ closeLog s = [] /\ panicked s = None /\
  (exists c, pc (tr s) = Some c /\ pcClosed c = false) /\
  chClosed (stopCh (tr s)) = false /\
  chClosed (rtpCh (tr s)) = false /\
  chClosed (pliCh (tr s)) = false.

(** A goroutine that called [wg.Add(1)] and has not yet called
    [wg.Done()]. *)
Definition registered (g : goroutine) : bool :=
  match g with
  | G_sendPLI (PliSelect | PliSend) => true
  | G_onTrackPLI _ FwdSelect => true
  | G_receiveRTP _ (RecvSelect | RecvRead | RecvSend _) => true
  | G_subReadRTCP (SubSelect | SubRead) => true
  | _ => false
  end.

(* ===================================================================== *)
(** * Readers of results, and sample values for the examples *)
(* ===================================================================== *)

Definition engine_of (r : outcome (option error * list codec * WebRTCTransport)) : list codec :=
  match r with
  | Done (_, e, _) => e
  | Panic _ => []
  end.

Definition sample_pkt : rtp_Packet :=
  {| SSRC := 1234; SequenceNumber := 7; MarshalSize := 1200 |}.

Definition sample_track : Track :=
  {| PayloadType := 96; trackSenders := 1; trackSent := [] |}.

Definition sample_pc : PeerConnection := {| pcClosed := false; rtcpOut := [] |}.

(** A publisher after a successful [AnswerPublish] with video. *)
Definition sample_pub : WebRTCTransport :=
  set_flags (set_pc (fst (newWebRTCTransport "pub" ∅)) (Some sample_pc)) true true false.

(** A subscriber of stream 1234 after [AnswerSubscribe]. *)
Definition sample_sub : WebRTCTransport :=
  set_track (set_pc (fst (newWebRTCTransport "sub" ∅)) (Some sample_pc))
            {[ 1234 := sample_track ]}.

Definition sample_nack : TransportLayerNack :=
  {| nackSenderSSRC := 1; nackMediaSSRC := 1234;
     Nacks := [ {| PacketID := 7; LostPackets := 5 |} ] |}.

(** Writing a cached packet to subscriber [sid], as [writePacket] does on
    a hit. *)
Definition replay (sid : string) (subs : gmap string WebRTCTransport) (pkt : rtp_Packet)
  : gmap string WebRTCTransport :=
  match subs !! sid with
  | Some sub => <[sid := snd (WriteRTP sub (Some pkt))]> subs
  | None => subs
  end.

(** A pipeline with stream 1234's packet 7 in the cache, and packets 8
    and 10 already evicted. *)
Definition sample_pipeline : pipeline :=
  {| pl_cache := {[ (1234, 7) := sample_pkt ]};
     pl_pub := Some sample_pub;
     pl_subs := {[ "sub"%string := sample_sub ]} |}.

(** The same pipeline before its publisher is negotiated. *)
Definition sample_pipeline_no_pub : pipeline :=
  {| pl_cache := {[ (1234, 7) := sample_pkt ]};
     pl_pub := None;
     pl_subs := {[ "sub"%string := sample_sub ]} |}.

(** A publisher whose last window measured 50000 bytes per second, and
    the loss rates 0.5 and 0.05 as [float64] values. *)
Definition sample_pub_50k : WebRTCTransport := set_stats sample_pub 50000 false.
Definition sample_pub_50001 : WebRTCTransport := set_stats sample_pub 50001 false.

Definition f64_half : float64 := S754_finite false 4503599627370496 (-53).
Definition f64_0_05 : float64 := S754_finite false 7205759403792794 (-57).
Definition f64_quarter : float64 := S754_finite false 4503599627370496 (-54).
Definition f64_1_5 : float64 := S754_finite false 6755399441055744 (-52).

(** A subscriber of two video streams, and its track table in the two
    orders in which a [range] can visit it. *)
Definition two_video : gmap Z Track :=
  {[ 1234 := sample_track; 4321 := sample_track ]}.

Definition sample_sub2 : WebRTCTransport :=
  set_track (set_pc (fst (newWebRTCTransport "sub" ∅)) (Some sample_pc)) two_video.

(* ===================================================================== *)
(** * Invariants of the transition system *)
(* ===================================================================== *)

(** The effects a call of [Close] has performed when it stands at [l]. *)
Definition log_of (l : option close_loc) : list close_event :=
  match l with
  | None | Some CloseEntry => []
  | Some CloseStop => [EvPcClose]
  | Some CloseWait => [EvPcClose; EvRaiseStop]
  | Some CloseRtp => [EvPcClose; EvRaiseStop; EvWaited]
  | Some ClosePli => [EvPcClose; EvRaiseStop; EvWaited; EvCloseRtp]
  | Some CloseReturned => close_order
  end.

Definition stop_raised (s : system) : bool := chClosed (stopCh (tr s)).
Definition rtp_closed (s : system) : bool := chClosed (rtpCh (tr s)).
Definition pli_closed (s : system) : bool := chClosed (pliCh (tr s)).
Definition torn_down (s : system) : bool := pc_is_closed (tr s).

Definition close_inv (s : system) : Prop :=
  closeLog s = log_of (closer s) /\
  (stop_raised s = true -> torn_down s = true) /\
  (rtp_closed s = true -> stop_raised s = true) /\
  (pli_closed s = true -> rtp_closed s = true) /\
  match closer s with
  | Some CloseStop => torn_down s = true
  | Some CloseWait | Some CloseRtp => stop_raised s = true
  | Some ClosePli => rtp_closed s = true
  | Some CloseReturned => pli_closed s = true
  | _ => True
  end.

(** What the first call of [Close] has done to the transport when it
    stands at [l] ([None]: no call yet): the connection torn down, the
    shutdown signal raised, [rtpCh] closed, [pliCh] closed. *)
Definition effects_at (l : option close_loc) : bool * bool * bool * bool :=
  match l with
  | None | Some CloseEntry => (false, false, false, false)
  | Some CloseStop => (true, false, false, false)
  | Some CloseWait | Some CloseRtp => (true, true, false, false)
  | Some ClosePli => (true, true, true, false)
  | Some CloseReturned => (true, true, true, true)
  end.

Definition close_state (s : system) : Prop :=
  (torn_down s, stop_raised s, rtp_closed s, pli_closed s) = effects_at (closer s).

(** How often a schedule calls [Close]. *)
Fixpoint calls (acts : list action) : nat :=
  match acts with
  | [] => O
  | CallClose :: rest => S (calls rest)
  | _ :: rest => calls rest
  end.

(** The goroutines that are registered with the wait group. *)
Fixpoint nreg (l : list goroutine) : Z :=
  match l with
  | [] => 0
  | g :: l => (if registered g then 1 else 0) + nreg l
  end.

(** The wait group counts the registered goroutines. *)
Definition wg_counts (s : system) : Prop := wg (tr s) = nreg (gs s).

(** A publisher with video: the [sendPLI] goroutine has been started, a
    video track has arrived, so its PLI forwarder is registered and
    [receiveRTP] is about to start. *)
Definition pub_system : system :=
  {| tr := set_wg sample_pub 1; connected := true;
     closer := None; closeLog := [];
     gs := [G_sendPLI PliStart; G_onTrackPLI 1234 FwdSelect; G_receiveRTP 0 RecvStart];
     panicked := None |}.

(** A negotiated transport with no goroutine running. *)
Definition quiet_system : system :=
  {| tr := sample_pub; connected := true;
     closer := None; closeLog := []; gs := []; panicked := None |}.

Definition Close_alone : list action :=
  [CallClose; StepClose; StepClose; StepClose; StepClose; StepClose].

(** The owner calls [Close] while [sendPLI]'s goroutine and
    [receiveRTP] have not yet run to their [wg.Add(1)]: the forwarder
    sees the signal and leaves, and [Close] goes on. *)
Definition early_Close : list action :=
  [CallClose; StepClose; StepClose; Go 1 CaseStop; StepClose; StepClose; StepClose].

(** The ticker fires and nobody takes the request before the owner
    calls [Close]; the forwarder and [receiveRTP] then leave. *)
Definition parked_schedule : list action :=
  [Go 0 Run; Go 2 Run; Go 2 CaseDefault; Go 0 CaseTicker;
   CallClose; StepClose; StepClose; Go 1 CaseStop; Go 2 ReadEOF].

(* ===================================================================== *)
(** * Values of float64 data, for the proofs *)
(* ===================================================================== *)

(** [m / 2^n] rounded to the nearest integer, ties to the even one. *)
Definition rne (m n : Z) : Z :=
  let q := m / 2 ^ n in
  let r := m mod 2 ^ n in
  if 2 * r <? 2 ^ n then q
  else if 2 * r =? 2 ^ n then (if Z.even q then q else q + 1)
  else q + 1.

(** The same with the modulus [P] in place of [2^n]. *)
Definition rne_at (P m : Z) : Z :=
  let q := m / P in
  let r := m mod P in
  if 2 * r <? P then q
  else if 2 * r =? P then (if Z.even q then q else q + 1)
  else q + 1.

(** Every exponent met below is above [- f64_scale], so [m * 2^e] times
    [2^f64_scale] is an integer: the scaled value of the dyadic [(m, e)]. *)
Definition f64_scale : Z := 2200.

Definition dyadic (m e : Z) : Z := m * 2 ^ (e + f64_scale).

(** The scaled value of a datum that is zero or finite. *)
Definition f64_value (x : float64) : Z :=
  match x with
  | S754_finite false m e => dyadic (Z.pos m) e
  | S754_finite true m e => - dyadic (Z.pos m) e
  | _ => 0
  end.

(** Zero or a positive finite datum. *)
Definition f64_nonneg (x : float64) : bool :=
  match x with
  | S754_zero _ | S754_finite false _ _ => true
  | _ => false
  end.

(** The scaled value of [m * 2^e] rounded to 53 bits, for [m] of at
    least 53 bits. *)
Definition round_value (m e : Z) : Z :=
  let n := Zdigits2 m - 53 in dyadic (rne m n) (e + n).

(** A scaled value rounded to 53 significant bits, ties to even: the
    value of the binary64 nearest to it, for values in the normal range.
    With [S = 2^f64_scale], the [float64] nearest to the real [x] has the
    scaled value [round53 (x * S)]. *)
Definition round53 (v : Z) : Z :=
  let n := Zdigits2 v - 53 in
  if n <=? 0 then v else rne v n * 2 ^ n.

(** What a shift record holds once [m0] is shifted right, [P] being two
    to the number of bits shifted out. *)
Definition shr_rel (m0 P : Z) (mrs : shr_record) : Prop :=
  exists rem, m0 = shr_m mrs * P + rem /\ 0 <= rem < P /\ 0 <= shr_m mrs /\
    shr_r mrs = (P <=? 2 * rem) /\
    shr_s mrs = negb ((rem =? 0) || (2 * rem =? P)).

(** By how many bits a mantissa is shifted left to reach 53 bits. *)
Definition norm_shift (m : Z) : Z := Z.max 0 (53 - Zdigits2 m).

(** Zero, or a positive datum with a 53-bit mantissa and its exponent
    within [[lo, hi]]. *)
Definition normal_in (lo hi : Z) (x : float64) : Prop :=
  match x with
  | S754_zero _ => True
  | S754_finite false m e => 2 ^ 52 <= Z.pos m < 2 ^ 53 /\ lo <= e <= hi
  | _ => False
  end.

(* ===================================================================== *)
(** * Reading the packet channel repeatedly *)
(* ===================================================================== *)

(** [n] calls of [ReadRTP] by one reader, with what each returned; the
    reader stops where a call would park. *)
Fixpoint ReadRTP_n (n : nat) (t : WebRTCTransport)
  : list (option rtp_Packet * option error) * WebRTCTransport :=
  match n with
  | O => ([], t)
  | S n =>
      match ReadRTP t with
      | Some (r, t') => let '(rs, t'') := ReadRTP_n n t' in (r :: rs, t'')
      | None => ([], t)
      end
  end.

(** The transport with [l] as the content of the packet channel. *)
Definition with_rtp_buf (t : WebRTCTransport) (l : list rtp_Packet) : WebRTCTransport :=
  set_rtpCh t {| chClosed := chClosed (rtpCh t); chBuf := l; chCap := chCap (rtpCh t) |}.

Definition sample_pkt2 : rtp_Packet :=
  {| SSRC := 1234; SequenceNumber := 8; MarshalSize := 900 |}.

(* ===================================================================== *)
(** * More invariants of the transition system *)
(* ===================================================================== *)

(** [receiveRTP]'s running byte total is a [uint64]. *)
Definition total_ok (g : goroutine) : Prop :=
  match g with
  | G_receiveRTP total _ => is_uint64 total
  | _ => True
  end.

(** The statistics are in range and the packet channel holds no more
    than its capacity. *)
Definition stats_inv (s : system) : Prop :=
  observed_rate (byteRate (tr s)) /\
  Forall total_ok (gs s) /\
  (length (chBuf (rtpCh (tr s))) <= chCap (rtpCh (tr s)))%nat.



(** A registered goroutine that gets to its [wg.Done()] once the
    connection is torn down and the shutdown signal is up: it stands at
    its [select], or in its send on [rtpCh] (which the reader of the
    channel lets through), or inside a read on a connection that has
    come up (which then returns [io.EOF]). *)
Definition can_leave (up : bool) (g : goroutine) : bool :=
  match g with
  | G_sendPLI PliSelect => true
  | G_onTrackPLI _ FwdSelect => true
  | G_receiveRTP _ (RecvSelect | RecvSend _) => true
  | G_receiveRTP _ RecvRead => up
  | G_subReadRTCP SubSelect => true
  | G_subReadRTCP SubRead => up
  | _ => false
  end.

(** The move by which it leaves from a [select] or a read. *)
Definition leave_alt (g : goroutine) : alt :=
  match g with
  | G_receiveRTP _ RecvRead | G_subReadRTCP SubRead => ReadEOF
  | _ => CaseStop
  end.

(** A registered goroutine that never gets there: [sendPLI] in its send
    on [pliCh], or a read on a connection that never came up. *)
Definition parked (up : bool) (g : goroutine) : bool :=
  match g with
  | G_sendPLI PliSend => true
  | G_receiveRTP _ RecvRead | G_subReadRTCP SubRead => negb up
  | _ => false
  end.

(** [Close] has torn the connection down and raised the signal; the
    packet channel is open, has room for at least one packet and holds
    no more than its capacity. *)
Definition winding_down (s : system) : Prop :=
  panicked s = None /\ wg_counts s /\
  chClosed (stopCh (tr s)) = true /\ pc_is_closed (tr s) = true /\
  chClosed (rtpCh (tr s)) = false /\
  (length (chBuf (rtpCh (tr s))) <= chCap (rtpCh (tr s)))%nat /\
  (0 < chCap (rtpCh (tr s)))%nat.

(** [s'] has the call of [Close], the connection state and [pliCh] of
    [s]. *)
Definition same_call (s s' : system) : Prop :=
  connected s' = connected s /\ closer s' = closer s /\
  closeLog s' = closeLog s /\ pliCh (tr s') = pliCh (tr s).

(** How often the reader of [rtpCh] takes a packet in a schedule. *)
Fixpoint drains (acts : list action) : nat :=
  match acts with
  | [] => O
  | Drain :: rest => S (drains rest)
  | _ :: rest => drains rest
  end.

Definition is_sendPLI (g : goroutine) : bool :=
  match g with G_sendPLI _ => true | _ => false end.

(** A subscriber with two senders: the goroutines of [subReadRTCP]. *)
Definition sub_system : system :=
  {| tr := set_wg sample_sub 2; connected := true;
     closer := None; closeLog := [];
     gs := [G_subReadRTCP SubSelect; G_subReadRTCP SubRead];
     panicked := None |}.

(** One goroutine of the subscriber goes into its read, the owner calls
    [Close], both reads end with [io.EOF], [Close] goes on. *)
Definition sub_schedule : list action :=
  [Go 0 CaseDefault; CallClose; StepClose; StepClose; Go 1 ReadEOF;
   Go 0 ReadEOF; StepClose; StepClose; StepClose].

(** A subscriber whose peer never connected: the goroutine of
    [subReadRTCP] stands in [senders[i].ReadRTCP()]. *)
Definition unconnected_sub_system : system :=
  {| tr := set_wg sample_sub 1; connected := false;
     closer := None; closeLog := [];
     gs := [G_subReadRTCP SubRead];
     panicked := None |}.

(** A publisher whose [receiveRTP] holds a packet while [rtpCh] is
    full. *)
Definition full_system : system :=
  {| tr := with_rtp_buf (set_wg (set_flags sample_pub false true false) 1)
             (repeat sample_pkt 1000);
     connected := true;
     closer := None; closeLog := [];
     gs := [G_receiveRTP 100 (RecvSend sample_pkt2)];
     panicked := None |}.

(** A publisher whose [sendPLI] waits in its send while the forwarder has
    not been started: no video track has arrived yet. *)
Definition lonely_system : system :=
  {| tr := set_wg sample_pub 1; connected := true;
     closer := None; closeLog := [];
     gs := [G_sendPLI PliSend];
     panicked := None |}.

(* ===================================================================== *)
(** * AnswerSubscribe: the track table *)
(* ===================================================================== *)

Section AnswerSubscribe.

(** pion's [PeerConnection.NewTrack(payloadType, ssrc, id, label)];
    [None] is the nil track that comes with an error. *)
Variable pc_NewTrack : Z -> Z -> string -> string -> option Track.

Definition track_id (pt : Z) : string :=
  if is_video_pt pt then "video"%string else "audio"%string.

(** The body of [for ssrc, pt := range ssrcPT]: a track that pion made
    is added to the connection and stored under its SSRC. *)
Definition AnswerSubscribe_one (m : gmap Z Track) (e : Z * Z) : gmap Z Track :=
  let '(ssrc, pt) := e in
  match pc_NewTrack pt ssrc (track_id pt) "pion"%string with
  | Some tr => <[ssrc := tr]> m
  | None => m
  end.

(** The loop of [AnswerSubscribe], over the pairs of [ssrcPT] in the
    order in which [range] happens to visit them. *)
Definition AnswerSubscribe_tracks (t : WebRTCTransport) (visited : list (Z * Z))
  : WebRTCTransport :=
  set_track t (foldl AnswerSubscribe_one (track t) visited).

End AnswerSubscribe.

(** [NewTrack] on a connection with pion's default codecs registered, as
    [AnswerSubscribe] sets it up: a track for a known payload type, with
    no sender bound yet. *)
Definition default_NewTrack (pt ssrc : Z) (id label : string) : option Track :=
  if bool_decide (pt ∈ [0; 8; 9; 96; 98; 102; 111])
  then Some {| PayloadType := pt; trackSenders := 0; trackSent := [] |}
  else None.

Definition sample_ssrcPT : gmap Z Z := {[ 1234 := 96; 5678 := 111; 9999 := 77 ]}.

(** The pairs a batch of feedback carries in its retransmission
    requests. *)
Definition nack_pairs (pkts : list rtcp_Packet) : nat :=
  foldr (fun pkt n => match pkt with
                      | Nack k => (length (Nacks k) + n)%nat
                      | _ => n
                      end) O pkts.

(* ===================================================================== *)
(** * Packets on their way from a remote track to the reader *)
(* ===================================================================== *)

(** The packet a [receiveRTP] goroutine has read from its track and not
    yet put on [rtpCh]. *)
Definition in_hand (g : goroutine) : list rtp_Packet :=
  match g with
  | G_receiveRTP _ (RecvSend p) => [p]
  | _ => []
  end.

Definition in_flight (l : list goroutine) : list rtp_Packet := flat_map in_hand l.

Definition is_receiveRTP (g : goroutine) : bool :=
  match g with G_receiveRTP _ _ => true | _ => false end.

Fixpoint nrecv (l : list goroutine) : nat :=
  match l with
  | [] => O
  | g :: l => ((if is_receiveRTP g then 1 else 0) + nrecv l)%nat
  end.

(** What the caller of [ReadRTP] gets by an action, and what a goroutine
    reads from its remote track by it. *)
Definition delivered_by (a : action) (s : system) : list rtp_Packet :=
  match a with
  | Drain =>
      match ReadRTP (tr s) with
      | Some ((Some p, _), _) => [p]
      | _ => []
      end
  | _ => []
  end.

Definition read_of (al : alt) : list rtp_Packet :=
  match al with ReadPacket p => [p] | _ => [] end.

Definition read_by (a : action) (s : system) : list rtp_Packet :=
  match a with
  | Go i al =>
      match gs s !! i with
      | Some g =>
          match go_step (connected s) (tr s) g al with
          | Some (Done _) => read_of al
          | _ => []
          end
      | None => []
      end
  | _ => []
  end.

(** What a schedule yields, action by action. *)
Fixpoint along {A} (f : action -> system -> list A) (acts : list action) (s : system)
  : list A :=
  match acts with
  | [] => []
  | a :: rest =>
      match step a s with
      | Some s' => f a s ++ along f rest s'
      | None => []
      end
  end.

(** An audio-only publisher whose [receiveRTP] stands at its [select]. *)
Definition audio_system : system :=
  {| tr := set_wg (set_flags sample_pub false true false) 1; connected := true;
     closer := None; closeLog := [];
     gs := [G_receiveRTP 0 RecvSelect];
     panicked := None |}.

(* ===================================================================== *)
(** * Properties: packets and tables *)
(* ===================================================================== *)

Lemma Track_WriteRTP_bound (trk : Track) (p : rtp_Packet) :
  trackSenders trk <> O ->
  snd (Track_WriteRTP trk p) = None /\
  trackSent (fst (Track_WriteRTP trk p)) = trackSent trk ++ [p] /\
  PayloadType (fst (Track_WriteRTP trk p)) = PayloadType trk.
Proof.
  unfold Track_WriteRTP. destruct (trackSenders trk) as [|n]; [congruence|].
  intros _. simpl. auto.
Qed.

(** C7.  [WriteRTP] answers [errInvalidPacket] for the nil packet and
    [errInvalidTrack] when no track is registered for the packet's SSRC,
    and in both cases leaves the transport as it was: nothing is written
    to any track.  When a track is registered the packet goes to that
    track and the track's own answer is returned: with a sender bound the
    packet is appended to what the track has sent and the answer is nil;
    every other track is untouched. *)
Theorem WriteRTP_spec (t : WebRTCTransport) :
  WriteRTP t None = (Some errInvalidPacket, t) /\
  (forall p, track t !! SSRC p = None ->
     WriteRTP t (Some p) = (Some errInvalidTrack, t)) /\
  (forall p trk, track t !! SSRC p = Some trk ->
     fst (WriteRTP t (Some p)) = snd (Track_WriteRTP trk p) /\
     track (snd (WriteRTP t (Some p))) !! SSRC p = Some (fst (Track_WriteRTP trk p)) /\
     (trackSenders trk <> O ->
        fst (WriteRTP t (Some p)) = None /\
        exists trk', track (snd (WriteRTP t (Some p))) !! SSRC p = Some trk' /\
                     trackSent trk' = trackSent trk ++ [p]) /\
     (forall ssrc, ssrc <> SSRC p ->
        track (snd (WriteRTP t (Some p))) !! ssrc = track t !! ssrc) /\
     pc (snd (WriteRTP t (Some p))) = pc t).
Proof.
  split; [reflexivity|]. split.
  - intros p Hp. unfold WriteRTP. now rewrite Hp.
  - intros p trk Hp. unfold WriteRTP. rewrite Hp.
    destruct (Track_WriteRTP trk p) as [trk' err] eqn:E. simpl.
    repeat split.
    + now rewrite lookup_insert_eq.
    + destruct (Track_WriteRTP_bound trk p H) as (He & _). now rewrite E in He.
    + exists trk'. rewrite lookup_insert_eq. split; [reflexivity|].
      destruct (Track_WriteRTP_bound trk p H) as (_ & Hs & _). now rewrite E in Hs.
    + intros ssrc Hne. now rewrite lookup_insert_ne.
Qed.

Lemma WriteRTP_spec_witness :
  WriteRTP sample_sub None = (Some errInvalidPacket, sample_sub) /\
  WriteRTP sample_sub (Some {| SSRC := 99; SequenceNumber := 1; MarshalSize := 10 |})
    = (Some errInvalidTrack, sample_sub) /\
  fst (WriteRTP sample_sub (Some sample_pkt)) = None /\
  (exists trk', track (snd (WriteRTP sample_sub (Some sample_pkt))) !! 1234 = Some trk' /\
                trackSent trk' = [sample_pkt]).
Proof.
  destruct (WriteRTP_spec sample_sub) as (H1 & H2 & H3).
  split; [exact H1|]. split.
  - apply H2. reflexivity.
  - destruct (H3 sample_pkt sample_track eq_refl) as (_ & _ & H4 & _).
    apply H4. simpl. discriminate.
Defined.

(** C10.  [sendNack] on a transport without a peer connection returns
    the transport unchanged; with a connection it raises the loss flag
    and hands exactly the one report to the connection, after what was
    written before, and changes nothing else. *)
Theorem sendNack_spec (t : WebRTCTransport) (nack : TransportLayerNack) :
  (pc t = None -> sendNack t nack = t) /\
  (forall c, pc t = Some c ->
     isLostPacket (sendNack t nack) = true /\
     pc (sendNack t nack) =
       Some {| pcClosed := pcClosed c; rtcpOut := rtcpOut c ++ [[Nack nack]] |} /\
     id (sendNack t nack) = id t /\
     track (sendNack t nack) = track t /\
     byteRate (sendNack t nack) = byteRate t /\
     wg (sendNack t nack) = wg t /\
     stopCh (sendNack t nack) = stopCh t /\
     rtpCh (sendNack t nack) = rtpCh t /\
     pliCh (sendNack t nack) = pliCh t /\
     ssrcPT (sendNack t nack) = ssrcPT t /\
     errCount (sendNack t nack) = errCount t /\
     (hasVideo (sendNack t nack), hasAudio (sendNack t nack), hasScreen (sendNack t nack))
       = (hasVideo t, hasAudio t, hasScreen t)).
Proof.
  unfold sendNack. split.
  - intros H. now rewrite H.
  - intros c H. rewrite H. simpl. repeat split.
Qed.

Lemma deref_OnTrack_record (t : WebRTCTransport) (h : heap) (ssrc pt : Z) :
  deref (OnTrack_record t ssrc pt h) (ssrcPT t) = <[ssrc := pt]> (deref h (ssrcPT t)).
Proof.
  unfold OnTrack_record, deref. now rewrite lookup_insert_eq.
Qed.

Lemma sendNack_spec_witness :
  sendNack (fst (newWebRTCTransport "pub" ∅)) sample_nack = fst (newWebRTCTransport "pub" ∅) /\
  isLostPacket (sendNack sample_pub sample_nack) = true /\
  pc (sendNack sample_pub sample_nack) =
    Some {| pcClosed := false; rtcpOut := [[Nack sample_nack]] |}.
Proof.
  split.
  - apply (sendNack_spec (fst (newWebRTCTransport "pub" ∅)) sample_nack). reflexivity.
  - destruct (sendNack_spec sample_pub sample_nack) as (_ & H).
    destruct (H sample_pc eq_refl) as (H1 & H2 & _). split; [exact H1 | exact H2].
Defined.

(** C8, as the code has it.  [SSRCPT] hands out the table itself: after
    the [OnTrack] handler records a new stream, the holder of the returned
    reference reads the table with the new entry. *)
Theorem SSRCPT_is_live_table (t : WebRTCTransport) (h : heap) (ssrc pt : Z) :
  deref (OnTrack_record t ssrc pt h) (SSRCPT t) = <[ssrc := pt]> (deref h (SSRCPT t)).
Proof. apply deref_OnTrack_record. Qed.

(** C8, as the spec has it: a later mutation would leave the returned
    mapping as it was.  It does not: the mapping read through the
    reference returned before the mutation gains the new stream. *)
Lemma SSRCPT_is_no_snapshot :
  exists (t : WebRTCTransport) (h : heap) (ssrc pt : Z),
    let received := SSRCPT t in
    deref h received !! ssrc = None /\
    deref (OnTrack_record t ssrc pt h) received !! ssrc = Some pt.
Proof.
  exists (fst (newWebRTCTransport "pub" ∅)), (snd (newWebRTCTransport "pub" ∅)), 1234, 96.
  simpl. split.
  - unfold deref, SSRCPT. simpl. rewrite lookup_insert_eq. simpl. done.
  - unfold SSRCPT. rewrite deref_OnTrack_record. apply lookup_insert_eq.
Qed.

(* ===================================================================== *)
(** * Properties: AnswerPublish options *)
(* ===================================================================== *)

(** C4, as the code has it.  With options present: no [codec] key
    registers Opus alone, no video codec at all; VP8 is registered when
    the key is there and its string is neither h264 nor vp9 (letter case
    apart), so also when it is vp8; h264 and vp9 register their own. *)
Theorem AnswerPublish_codec (t : WebRTCTransport) (o : gmap string value) :
  (o !! "codec"%string = None ->
     engine_of (AnswerPublish t (Some o)) = [Opus]) /\
  (forall s, o !! "codec"%string = Some (VString s) ->
     engine_of (AnswerPublish t (Some o)) =
       if EqualFold s "h264" then [Opus; H264]
       else if EqualFold s "vp9" then [Opus; VP9]
       else [Opus; VP8]).
Proof.
  unfold AnswerPublish. split.
  - intros H. now rewrite H.
  - intros s H. rewrite H.
    destruct (EqualFold s "h264"); [reflexivity|].
    destruct (EqualFold s "vp9"); reflexivity.
Qed.

Lemma AnswerPublish_codec_witness :
  engine_of (AnswerPublish sample_pub (Some {[ "video"%string := VBool true ]})) = [Opus] /\
  engine_of (AnswerPublish sample_pub (Some {[ "codec"%string := VString "VP8" ]})) = [Opus; VP8] /\
  engine_of (AnswerPublish sample_pub (Some {[ "codec"%string := VString "av1" ]})) = [Opus; VP8] /\
  engine_of (AnswerPublish sample_pub (Some {[ "codec"%string := VString "H264" ]})) = [Opus; H264].
Proof.
  split; [|split; [|split]].
  - apply (AnswerPublish_codec sample_pub {[ "video"%string := VBool true ]}). reflexivity.
  - apply (proj2 (AnswerPublish_codec sample_pub {[ "codec"%string := VString "VP8" ]}) "VP8"%string).
    reflexivity.
  - apply (proj2 (AnswerPublish_codec sample_pub {[ "codec"%string := VString "av1" ]}) "av1"%string).
    reflexivity.
  - apply (proj2 (AnswerPublish_codec sample_pub {[ "codec"%string := VString "H264" ]}) "H264"%string).
    reflexivity.
Defined.

(** C4, as the spec has it: leaving the codec out would register VP8 as
    naming vp8 does.  With the empty (non-nil) options no video codec is
    registered. *)
Lemma AnswerPublish_no_default_codec :
  exists t : WebRTCTransport,
    engine_of (AnswerPublish t (Some ∅)) = [Opus] /\
    engine_of (AnswerPublish t (Some {["codec"%string := VString "vp8"]})) = [Opus; VP8].
Proof.
  exists (fst (newWebRTCTransport "pub" ∅)). split; reflexivity.
Qed.

(* ===================================================================== *)
(** * Properties: retransmission requests *)
(* ===================================================================== *)

Lemma ofoldl_app {A B} (f : A -> B -> outcome A) (l1 l2 : list B) : forall a,
  ofoldl f a (l1 ++ l2) = let! a' := ofoldl f a l1 in ofoldl f a' l2.
Proof.
  induction l1 as [|b l1 IH]; intros a; simpl; [reflexivity|].
  destruct (f a b) as [a'|msg]; simpl; [apply IH|reflexivity].
Qed.

Lemma ofoldl_flat_map {A B C} (f : A -> C -> outcome A) (g : B -> list C) (l : list B) :
  forall a, ofoldl (fun a b => ofoldl f a (g b)) a l = ofoldl f a (flat_map g l).
Proof.
  induction l as [|b l IH]; intros a; simpl; [reflexivity|].
  rewrite ofoldl_app. destruct (ofoldl f a (g b)) as [a'|msg]; simpl; [apply IH|reflexivity].
Qed.

Section Nack.

Variables (tid : string) (nack : TransportLayerNack).

Let ssrc := nackMediaSSRC nack.

(** One sequence number: a hit replays the packet; a miss hands the
    request to the publisher, and panics where there is none. *)
Lemma subReadRTCP_sn_hit (p : pipeline) (sn : Z) (pkt : rtp_Packet) :
  pl_cache p !! (ssrc, sn) = Some pkt ->
  exists p', subReadRTCP_sn tid nack p sn = Done p' /\
    pl_cache p' = pl_cache p /\ pl_pub p' = pl_pub p /\
    pl_subs p' = replay tid (pl_subs p) pkt.
Proof.
  intros E. unfold subReadRTCP_sn, writePacket, replay. fold ssrc. rewrite E. simpl.
  destruct (pl_subs p !! tid); eexists; (split; [reflexivity|]); simpl; auto.
Qed.

Lemma subReadRTCP_sn_miss (p : pipeline) (sn : Z) :
  pl_cache p !! (ssrc, sn) = None ->
  subReadRTCP_sn tid nack p sn =
    match pl_pub p with
    | Some pub => Done (set_pub p (Some (sendNack pub (synth_nack nack sn))))
    | None => Panic "invalid memory address or nil pointer dereference"
    end.
Proof.
  intros E. unfold subReadRTCP_sn, writePacket, getPub. fold ssrc. now rewrite E.
Qed.

Lemma cached_spec (p : pipeline) (sn : Z) :
  cached p ssrc sn = match pl_cache p !! (ssrc, sn) with Some _ => true | None => false end.
Proof.
  unfold cached. destruct (pl_cache p !! (ssrc, sn)) eqn:E.
  - apply bool_decide_eq_true_2. eauto.
  - apply bool_decide_eq_false_2. intros [? ?]. congruence.
Qed.

Lemma subReadRTCP_sns_pub (l : list Z) : forall (p : pipeline) (pub : WebRTCTransport),
  pl_pub p = Some pub ->
  exists p', ofoldl (subReadRTCP_sn tid nack) p l = Done p' /\
    pl_cache p' = pl_cache p /\
    pl_pub p' = Some (foldl sendNack pub
                        (map (synth_nack nack)
                             (List.filter (fun sn => negb (cached p ssrc sn)) l))) /\
    pl_subs p' = foldl (replay tid) (pl_subs p)
                   (omap (fun sn => pl_cache p !! (ssrc, sn)) l).
Proof.
  induction l as [|sn l IH]; intros p pub Hpub; simpl.
  - exists p. auto.
  - rewrite (cached_spec p sn).
    destruct (pl_cache p !! (ssrc, sn)) as [pkt|] eqn:E.
    + destruct (subReadRTCP_sn_hit p sn pkt E) as (p1 & R1 & C1 & P1 & S1).
      rewrite R1. simpl.
      destruct (IH p1 pub) as (p' & R & C & P & S); [congruence|].
      exists p'. split; [exact R|]. split; [congruence|]. split.
      * rewrite P. do 3 f_equal. apply List.filter_ext. intros x.
        unfold cached. now rewrite C1.
      * rewrite S, S1, C1. reflexivity.
    + rewrite (subReadRTCP_sn_miss p sn E), Hpub. simpl.
      destruct (IH (set_pub p (Some (sendNack pub (synth_nack nack sn))))
                   (sendNack pub (synth_nack nack sn)) eq_refl) as (p' & R & C & P & S).
      exists p'. split; [exact R|]. split; [exact C|]. split; [exact P|exact S].
Qed.

Lemma subReadRTCP_sns_no_pub (l : list Z) : forall p : pipeline,
  pl_pub p = None ->
  match List.filter (fun sn => negb (cached p ssrc sn)) l with
  | [] => exists p', ofoldl (subReadRTCP_sn tid nack) p l = Done p' /\
            pl_cache p' = pl_cache p /\ pl_pub p' = None /\
            pl_subs p' = foldl (replay tid) (pl_subs p)
                           (omap (fun sn => pl_cache p !! (ssrc, sn)) l)
  | _ :: _ => ofoldl (subReadRTCP_sn tid nack) p l =
                Panic "invalid memory address or nil pointer dereference"
  end.
Proof.
  induction l as [|sn l IH]; intros p Hpub; simpl.
  - exists p. auto.
  - rewrite (cached_spec p sn).
    destruct (pl_cache p !! (ssrc, sn)) as [pkt|] eqn:E; simpl.
    + destruct (subReadRTCP_sn_hit p sn pkt E) as (p1 & R1 & C1 & P1 & S1).
      rewrite R1. simpl.
      specialize (IH p1 ltac:(congruence)).
      rewrite (List.filter_ext _ (fun sn => negb (cached p ssrc sn))) in IH
        by (intros x; unfold cached; now rewrite C1).
      destruct (List.filter (fun sn => negb (cached p ssrc sn)) l); [|exact IH].
      destruct IH as (p' & R & C & P & S).
      exists p'. split; [exact R|]. split; [congruence|]. split; [exact P|].
      rewrite S, S1, C1. reflexivity.
    + now rewrite (subReadRTCP_sn_miss p sn E), Hpub.
Qed.

End Nack.

Lemma foldl_sendNack_pc (ns : list TransportLayerNack) : forall (t : WebRTCTransport) c,
  pc t = Some c ->
  pc (foldl sendNack t ns) =
    Some {| pcClosed := pcClosed c; rtcpOut := rtcpOut c ++ map (fun n => [Nack n]) ns |}.
Proof.
  induction ns as [|n ns IH]; intros t c Hc; simpl.
  - rewrite app_nil_r. now destruct c.
  - rewrite (IH _ {| pcClosed := pcClosed c; rtcpOut := rtcpOut c ++ [[Nack n]] |}).
    + simpl. now rewrite <- app_assoc.
    + unfold sendNack. now rewrite Hc.
Qed.

Lemma PacketList_single (sn : Z) : PacketList {| PacketID := sn; LostPackets := 0 |} = [sn].
Proof. reflexivity. Qed.

(** C5, as the code has it.  Processing one retransmission request in a
    pipeline that has a publisher: of the sequence numbers the request
    names, in order, those whose packet is in the pipeline cache are
    served from the cache (the cached packet is written to the requesting
    subscriber) and raise nothing toward the publisher; each one that
    misses the cache hands the publisher's [sendNack] exactly one new
    request, whose sender and media SSRC are those of the request read
    and whose one pair names that sequence number and no other.  On a
    publisher with a peer connection these requests, and nothing else,
    are written to it, one per call.  The cache itself is not changed.
    In a pipeline whose publisher is still nil a request whose sequence
    numbers are all in the cache is served in the same way, and one with
    a miss panics. *)
Theorem subReadRTCP_nack_spec (tid : string) (p : pipeline) (nack : TransportLayerNack) :
  let ssrc := nackMediaSSRC nack in
  let misses := List.filter (fun sn => negb (cached p ssrc sn)) (requested nack) in
  let hits := omap (fun sn => pl_cache p !! (ssrc, sn)) (requested nack) in
  let request := fun sn : Z =>
    {| nackSenderSSRC := nackSenderSSRC nack;
       nackMediaSSRC := nackMediaSSRC nack;
       Nacks := [ {| PacketID := sn; LostPackets := 0 |} ] |} in
  (forall sn, requested (request sn) = [sn]) /\
  (forall pub, getPub p = Some pub ->
     exists p', subReadRTCP_nack tid p nack = Done p' /\
       pl_cache p' = pl_cache p /\
       pl_subs p' = foldl (replay tid) (pl_subs p) hits /\
       getPub p' = Some (foldl sendNack pub (map request misses)) /\
       (forall c, pc pub = Some c ->
          exists pub', getPub p' = Some pub' /\
            pc pub' =
              Some {| pcClosed := pcClosed c;
                      rtcpOut := rtcpOut c ++ map (fun sn => [Nack (request sn)]) misses |})) /\
  (getPub p = None -> misses = [] ->
     exists p', subReadRTCP_nack tid p nack = Done p' /\
       pl_cache p' = pl_cache p /\ getPub p' = None /\
       pl_subs p' = foldl (replay tid) (pl_subs p) hits) /\
  (getPub p = None -> misses <> [] ->
     exists msg, subReadRTCP_nack tid p nack = Panic msg).
Proof.
  intros ssrc misses hits request.
  assert (E : subReadRTCP_nack tid p nack =
              ofoldl (subReadRTCP_sn tid nack) p (requested nack)).
  { unfold subReadRTCP_nack, requested. apply ofoldl_flat_map. }
  change request with (synth_nack nack).
  split; [|split; [|split]].
  - intros sn. unfold requested, synth_nack. cbn [Nacks flat_map].
    rewrite PacketList_single. reflexivity.
  - intros pub Hpub.
    destruct (subReadRTCP_sns_pub tid nack (requested nack) p pub Hpub)
      as (p' & R & C & P & S).
    exists p'. rewrite E. split; [exact R|]. split; [exact C|]. split; [exact S|].
    split; [exact P|]. intros c Hc. eexists. split; [exact P|].
    rewrite (foldl_sendNack_pc _ _ c Hc). now rewrite map_map.
  - intros Hpub Hm. pose proof (subReadRTCP_sns_no_pub tid nack (requested nack) p Hpub) as H.
    fold ssrc misses in H. rewrite Hm in H. rewrite E. exact H.
  - intros Hpub Hm. pose proof (subReadRTCP_sns_no_pub tid nack (requested nack) p Hpub) as H.
    fold ssrc misses in H. rewrite E.
    destruct misses; [congruence|]. eauto.
Qed.

Lemma subReadRTCP_nack_spec_witness :
  requested sample_nack = [7; 8; 10] /\
  exists p', subReadRTCP_nack "sub" sample_pipeline sample_nack = Done p' /\
    exists pub', getPub p' = Some pub' /\
      pc pub' =
        Some {| pcClosed := false;
                rtcpOut :=
                  [ [Nack {| nackSenderSSRC := 1; nackMediaSSRC := 1234;
                             Nacks := [ {| PacketID := 8; LostPackets := 0 |} ] |}];
                    [Nack {| nackSenderSSRC := 1; nackMediaSSRC := 1234;
                             Nacks := [ {| PacketID := 10; LostPackets := 0 |} ] |}] ] |}.
Proof.
  split; [reflexivity|].
  destruct (subReadRTCP_nack_spec "sub" sample_pipeline sample_nack) as (_ & H & _).
  destruct (H sample_pub eq_refl) as (p' & R & _ & _ & _ & Hc).
  exists p'. split; [exact R|].
  destruct (Hc sample_pc eq_refl) as (pub' & H1 & H2).
  exists pub'. split; [exact H1|]. rewrite H2. reflexivity.
Defined.

(** C5, as the spec has it: every cache miss would send one request
    toward the publisher.  In a pipeline whose publisher is not yet
    negotiated the request for packet 8, which the cache no longer
    holds, sends nothing: the call on the nil publisher panics. *)
Lemma subReadRTCP_nack_without_publisher :
  getPub sample_pipeline_no_pub = None /\
  requested sample_nack = [7; 8; 10] /\
  cached sample_pipeline_no_pub 1234 8 = false /\
  subReadRTCP_nack "sub" sample_pipeline_no_pub sample_nack =
    Panic "invalid memory address or nil pointer dereference".
Proof. repeat split. Qed.

(* ===================================================================== *)
(** * Properties: the bandwidth report *)
(* ===================================================================== *)

Lemma SFcompare_swap (x y : float64) :
  SFcompare y x = option_map CompOpp (SFcompare x y).
Proof.
  destruct x as [sx|sx| |sx mx ex], y as [sy|sy| |sy my ey]; simpl;
    try reflexivity;
    try (destruct sx; reflexivity); try (destruct sy; reflexivity);
    try (destruct sx, sy; reflexivity).
  assert (H : Pos.compare_cont Eq my mx = CompOpp (Pos.compare_cont Eq mx my))
    by (symmetry; apply (Pos.compare_cont_antisym mx my Eq)).
  destruct sx, sy; simpl; try reflexivity;
    rewrite (Z.compare_antisym ex ey); destruct (ex ?= ey); simpl; try reflexivity;
    rewrite H; reflexivity.
Qed.

Lemma f64_le_not_gt (x y : float64) : f64_le x y = true -> f64_gt x y = false.
Proof.
  unfold f64_le, f64_gt, SFleb, SFltb. rewrite (SFcompare_swap x y).
  destruct (SFcompare x y) as [[ | | ]|]; simpl; congruence.
Qed.

Lemma f64_le_not_lt (x y : float64) : f64_le x y = true -> f64_lt y x = false.
Proof. apply f64_le_not_gt. Qed.

Lemma remb_accepts (L : float64) :
  f64_le f64_zero L = true -> f64_le L f64_one = true -> remb_rejects L = false.
Proof.
  intros H0 H1. unfold remb_rejects.
  rewrite (f64_le_not_gt _ _ H1), (f64_le_not_lt _ _ H0). reflexivity.
Qed.

Lemma remb_clamp_spec (bw : Z) :
  remb_clamp bw = Z.min (Z.max bw rembLowBW) rembHighBW.
Proof.
  unfold remb_clamp, rembLowBW, rembHighBW.
  destruct (bw <? 30 * 1000) eqn:E1.
  - apply Z.ltb_lt in E1. simpl. lia.
  - apply Z.ltb_ge in E1.
    destruct (bw >? 100 * 1000) eqn:E2.
    + apply Z.gtb_lt in E2. lia.
    + rewrite Z.gtb_ltb in E2. apply Z.ltb_ge in E2. lia.
Qed.

Lemma remb_clamp_bounds (bw : Z) : rembLowBW <= remb_clamp bw <= rembHighBW.
Proof. rewrite remb_clamp_spec. unfold rembLowBW, rembHighBW. lia. Qed.

Lemma observed_rate_no_wrap (r : Z) : observed_rate r -> wrap64 (r * 2) = 2 * r.
Proof.
  unfold observed_rate, max_uint64, wrap64. intros H.
  assert (Hq : (2 ^ 64 - 1) / 3 = 6148914691236517205) by reflexivity.
  rewrite Hq in H. rewrite Z.mod_small; lia.
Qed.

(** What [receiveRTP] stores is an observed rate, and every observed rate
    is stored for some byte total. *)
Lemma observed_rate_iff (r : Z) :
  observed_rate r <-> exists total, is_uint64 total /\ r = total / 3.
Proof.
  unfold observed_rate, is_uint64, max_uint64. split.
  - intros H. exists (3 * r). split.
    + assert (Hq : (2 ^ 64 - 1) / 3 = 6148914691236517205) by reflexivity.
      rewrite Hq in H. lia.
    + symmetry. rewrite Z.mul_comm. apply Z.div_mul. lia.
  - intros (total & Ht & ->). split.
    + apply Z.div_pos; lia.
    + apply Z.div_le_mono; lia.
Qed.

(* ===================================================================== *)
(** * Properties: Close and the goroutines *)
(* ===================================================================== *)

Ltac case_ifs :=
  repeat match goal with
         | |- context [if ?b then _ else _] => destruct b eqn:?
         | |- context [match pc ?t with _ => _ end] => destruct (pc t) eqn:?
         end.

Lemma go_step_flags (up : bool) (t : WebRTCTransport) (g : goroutine) (a : alt) t' g' :
  go_step up t g a = Some (Done (t', g')) ->
  chClosed (stopCh t') = chClosed (stopCh t) /\
  chClosed (rtpCh t') = chClosed (rtpCh t) /\
  chClosed (pliCh t') = chClosed (pliCh t) /\
  pc_is_closed t' = pc_is_closed t.
Proof.
  destruct up; destruct g as [l|ssrc l|total l|l]; destruct l; destruct a; simpl;
    try discriminate;
    unfold returning, wg_Done, t_WriteRTCP, chan_send;
    case_ifs; simpl; try discriminate;
    intros [= <- <-]; repeat split; simpl; try congruence;
    unfold pc_is_closed; simpl;
    repeat match goal with H : pc _ = _ |- _ => rewrite H end;
    try reflexivity; try congruence;
    match goal with H : pc_is_closed ?t = _ |- _ => exact H end.
Qed.

Lemma ReadRTP_flags (t : WebRTCTransport) r t' :
  ReadRTP t = Some (r, t') ->
  chClosed (stopCh t') = chClosed (stopCh t) /\
  chClosed (rtpCh t') = chClosed (rtpCh t) /\
  chClosed (pliCh t') = chClosed (pliCh t) /\
  pc_is_closed t' = pc_is_closed t.
Proof.
  unfold ReadRTP. destruct (chBuf (rtpCh t)); [destruct (chClosed (rtpCh t)) eqn:E|];
    try discriminate; intros [= <- <-]; simpl; auto.
Qed.

Lemma t_WriteRTCP_flags (t : WebRTCTransport) pkts t' :
  t_WriteRTCP t pkts = Done t' ->
  chClosed (stopCh t') = chClosed (stopCh t) /\
  chClosed (rtpCh t') = chClosed (rtpCh t) /\
  chClosed (pliCh t') = chClosed (pliCh t) /\
  pc_is_closed t' = pc_is_closed t.
Proof.
  unfold t_WriteRTCP, pc_is_closed. destruct (pc t) eqn:E; [|discriminate].
  intros [= <-]. simpl. auto.
Qed.

Lemma close_inv_frame (s s' : system) :
  closer s' = closer s -> closeLog s' = closeLog s ->
  chClosed (stopCh (tr s')) = chClosed (stopCh (tr s)) /\
  chClosed (rtpCh (tr s')) = chClosed (rtpCh (tr s)) /\
  chClosed (pliCh (tr s')) = chClosed (pliCh (tr s)) /\
  pc_is_closed (tr s') = pc_is_closed (tr s) ->
  close_inv s -> close_inv s'.
Proof.
  unfold close_inv, stop_raised, rtp_closed, pli_closed, torn_down.
  intros -> -> (-> & -> & -> & ->). auto.
Qed.

Lemma close_step_Done (t : WebRTCTransport) (l : close_loc) t' l' ev :
  close_step t l = Some (Done (t', l', ev)) ->
  match l with
  | CloseEntry =>
      l' = CloseStop /\ ev = EvPcClose /\ pc_is_closed t' = true /\
      stopCh t' = stopCh t /\ rtpCh t' = rtpCh t /\ pliCh t' = pliCh t
  | CloseStop =>
      l' = CloseWait /\ ev = EvRaiseStop /\ chClosed (stopCh t') = true /\
      chClosed (stopCh t) = false /\
      pc_is_closed t' = pc_is_closed t /\ rtpCh t' = rtpCh t /\ pliCh t' = pliCh t
  | CloseWait =>
      l' = CloseRtp /\ ev = EvWaited /\ t' = t /\ wg t = 0
  | CloseRtp =>
      l' = ClosePli /\ ev = EvCloseRtp /\ chClosed (rtpCh t') = true /\
      chClosed (rtpCh t) = false /\
      pc_is_closed t' = pc_is_closed t /\ stopCh t' = stopCh t /\ pliCh t' = pliCh t
  | ClosePli =>
      l' = CloseReturned /\ ev = EvClosePli /\ chClosed (pliCh t') = true /\
      chClosed (pliCh t) = false /\
      pc_is_closed t' = pc_is_closed t /\ stopCh t' = stopCh t /\ rtpCh t' = rtpCh t
  | CloseReturned => False
  end.
Proof.
  destruct l; simpl; unfold close_chan.
  - destruct (pc t) as [c|]; [|discriminate]. intros [= <- <- <-].
    unfold pc_is_closed. simpl. auto 10.
  - destruct (chClosed (stopCh t)) eqn:E; [discriminate|]. simpl.
    intros [= <- <- <-]. simpl. auto 10.
  - destruct (wg t =? 0) eqn:E; [|discriminate]. intros [= <- <- <-].
    apply Z.eqb_eq in E. auto.
  - destruct (chClosed (rtpCh t)) eqn:E; [discriminate|]. simpl.
    intros [= <- <- <-]. simpl. auto 10.
  - destruct (chClosed (pliCh t)) eqn:E; [discriminate|]. simpl.
    intros [= <- <- <-]. simpl. auto 10.
  - discriminate.
Qed.

Lemma close_inv_step (a : action) (s s' : system) :
  step a s = Some s' -> close_inv s -> close_inv s'.
Proof.
  unfold step. destruct (panicked s) eqn:Hp; [discriminate|].
  destruct a as [| |i al|i j| |].
  - (* CallClose *)
    unfold close_inv, stop_raised, rtp_closed, pli_closed, torn_down.
    destruct (closer s) as [[]|]; try discriminate;
      intros [= <-]; simpl; intuition.
  - (* StepClose *)
    destruct (closer s) as [l|] eqn:Hl; [|discriminate]. simpl.
    destruct (close_step (tr s) l) as [r|] eqn:Hr; [|discriminate]. simpl.
    intros [= <-] Hinv.
    destruct r as [[[t l'] ev]|msg].
    + apply close_step_Done in Hr. revert Hinv.
      unfold close_inv, stop_raised, rtp_closed, pli_closed, torn_down.
      rewrite Hl. simpl.
      destruct l; simpl in Hr; intros (Hlog & H1 & H2 & H3 & H4).
      * destruct Hr as (-> & -> & Hc & -> & -> & ->). rewrite Hlog. simpl. auto.
      * destruct Hr as (-> & -> & Hc & _ & -> & -> & ->). rewrite Hlog. simpl.
        repeat split; auto.
      * destruct Hr as (-> & -> & -> & _). rewrite Hlog. simpl. auto.
      * destruct Hr as (-> & -> & Hc & _ & -> & -> & ->). rewrite Hlog. simpl.
        repeat split; auto.
      * destruct Hr as (-> & -> & Hc & Ho & -> & -> & ->). rewrite Hlog. simpl.
        repeat split; auto.
      * contradiction.
    + apply (close_inv_frame s); auto.
  - (* Go *)
    destruct (gs s !! i) as [g|]; [|discriminate]. simpl.
    destruct (go_step (connected s) (tr s) g al) as [r|] eqn:Hr; [|discriminate]. simpl.
    intros [= <-]. destruct r as [[t g']|msg].
    + apply close_inv_frame; auto. simpl. apply (go_step_flags _ _ _ _ _ _ Hr).
    + apply close_inv_frame; auto.
  - (* Handoff *)
    destruct (gs s !! i) as [[[]| | |]|]; try discriminate.
    destruct (gs s !! j) as [[|ssrc []| |]|]; try discriminate.
    destruct (chClosed (pliCh (tr s))); [discriminate|].
    intros [= <-].
    destruct (t_WriteRTCP (tr s) _) as [t|msg] eqn:Hw.
    + apply close_inv_frame; auto. simpl. apply (t_WriteRTCP_flags _ _ _ Hw).
    + apply close_inv_frame; auto.
  - (* Drain *)
    destruct (ReadRTP (tr s)) as [[[[p|] e] t]|] eqn:Hr; try discriminate.
    intros [= <-]. apply close_inv_frame; auto. simpl. apply (ReadRTP_flags _ _ _ Hr).
  - (* Connect *)
    destruct (pc (tr s)) as [c|]; [|discriminate].
    destruct (connected s || pcClosed c); [discriminate|].
    intros [= <-]. apply close_inv_frame; auto.
Qed.

Lemma close_inv_run (acts : list action) : forall s s' : system,
  run acts s = Some s' -> close_inv s -> close_inv s'.
Proof.
  induction acts as [|a acts IH]; simpl; intros s s'.
  - now intros [= <-].
  - destruct (step a s) as [s1|] eqn:Hs; [|discriminate]. simpl.
    intros Hrun Hinv. apply (IH s1); [exact Hrun|]. now apply (close_inv_step a s).
Qed.

Lemma live_close_inv (s : system) : live s -> close_inv s.
Proof.
  unfold live, close_inv, stop_raised, rtp_closed, pli_closed, torn_down.
  intros (-> & -> & _ & _ & -> & -> & ->). simpl. repeat split; discriminate.
Qed.

Lemma nreg_nonneg (l : list goroutine) : 0 <= nreg l.
Proof. induction l as [|g l IH]; simpl; [lia|]. destruct (registered g); lia. Qed.

Lemma nreg_insert (l : list goroutine) : forall (i : nat) g g',
  l !! i = Some g ->
  nreg (<[i := g']> l) =
    nreg l - (if registered g then 1 else 0) + (if registered g' then 1 else 0).
Proof.
  induction l as [|x l IH]; intros [|i] g g'; simpl; try discriminate.
  - intros [= ->]. lia.
  - intros H. rewrite (IH i g g' H). lia.
Qed.

Lemma nreg_zero (l : list goroutine) :
  nreg l = 0 -> Forall (fun g => registered g = false) l.
Proof.
  induction l as [|g l IH]; simpl; intros H; constructor.
  - pose proof (nreg_nonneg l). destruct (registered g); [lia|reflexivity].
  - apply IH. pose proof (nreg_nonneg l). destruct (registered g); lia.
Qed.

Lemma go_step_wg (up : bool) (t : WebRTCTransport) (g : goroutine) (a : alt) t' g' :
  go_step up t g a = Some (Done (t', g')) ->
  wg t' = wg t - (if registered g then 1 else 0) + (if registered g' then 1 else 0).
Proof.
  intros H.
  destruct up; destruct g as [l|ssrc l|total l|l]; destruct l; destruct a; simpl in H;
    try discriminate;
    unfold returning, wg_Done, t_WriteRTCP, chan_send in H;
    repeat match type of H with
           | context [if ?b then _ else _] => destruct b eqn:?
           | context [match pc ?t with _ => _ end] => destruct (pc t) eqn:?
           end;
    simpl in H; try discriminate;
    injection H as <- <-; simpl; lia.
Qed.

Lemma close_step_wg (t : WebRTCTransport) (l : close_loc) t' l' ev :
  close_step t l = Some (Done (t', l', ev)) -> wg t' = wg t.
Proof.
  destruct l; simpl; unfold close_chan; case_ifs; simpl; try discriminate;
    intros [= <- <- <-]; reflexivity.
Qed.

Lemma wg_counts_step (a : action) (s s' : system) :
  step a s = Some s' -> wg_counts s -> wg_counts s'.
Proof.
  unfold step, wg_counts. destruct (panicked s) eqn:Hp; [discriminate|].
  destruct a as [| |i al|i j| |].
  - destruct (closer s) as [[]|]; try discriminate; intros [= <-]; simpl; auto.
  - destruct (closer s) as [l|] eqn:Hl; [|discriminate]. simpl.
    destruct (close_step (tr s) l) as [r|] eqn:Hr; [|discriminate]. simpl.
    intros [= <-] H. destruct r as [[[t l'] ev]|msg]; simpl; [|exact H].
    now rewrite (close_step_wg _ _ _ _ _ Hr).
  - destruct (gs s !! i) as [g|] eqn:Hg; [|discriminate]. simpl.
    destruct (go_step (connected s) (tr s) g al) as [r|] eqn:Hr; [|discriminate]. simpl.
    intros [= <-] H. destruct r as [[t g']|msg]; simpl; [|exact H].
    rewrite (go_step_wg _ _ _ _ _ _ Hr), (nreg_insert _ _ _ g' Hg). lia.
  - destruct (gs s !! i) as [[[]| | |]|] eqn:Hi; try discriminate.
    destruct (gs s !! j) as [[|ssrc []| |]|]; try discriminate.
    destruct (chClosed (pliCh (tr s))); [discriminate|].
    intros [= <-] H. unfold t_WriteRTCP.
    destruct (pc (tr s)); simpl; [|exact H].
    rewrite (nreg_insert _ _ _ (G_sendPLI PliSelect) Hi). simpl. lia.
  - unfold ReadRTP. destruct (chBuf (rtpCh (tr s))); [destruct (chClosed (rtpCh (tr s)))|];
      try discriminate. intros [= <-] H. exact H.
  - destruct (pc (tr s)) as [c|]; [|discriminate].
    destruct (connected s || pcClosed c); [discriminate|].
    intros [= <-] H. exact H.
Qed.

Lemma wg_counts_run (acts : list action) : forall s s' : system,
  run acts s = Some s' -> wg_counts s -> wg_counts s'.
Proof.
  induction acts as [|a acts IH]; simpl; intros s s'.
  - now intros [= <-].
  - destruct (step a s) as [s1|] eqn:Hs; [|discriminate]. simpl.
    intros Hrun Hinv. apply (IH s1); [exact Hrun|]. now apply (wg_counts_step a s).
Qed.

Lemma log_of_prefix (l : option close_loc) : log_of l `prefix_of` close_order.
Proof.
  destruct l as [[]|]; simpl; unfold close_order;
    [ exists [EvPcClose; EvRaiseStop; EvWaited; EvCloseRtp; EvClosePli]
    | exists [EvRaiseStop; EvWaited; EvCloseRtp; EvClosePli]
    | exists [EvWaited; EvCloseRtp; EvClosePli]
    | exists [EvCloseRtp; EvClosePli]
    | exists [EvClosePli]
    | exists []
    | exists [EvPcClose; EvRaiseStop; EvWaited; EvCloseRtp; EvClosePli] ];
    reflexivity.
Qed.

Lemma close_state_frame (s s' : system) :
  closer s' = closer s ->
  chClosed (stopCh (tr s')) = chClosed (stopCh (tr s)) /\
  chClosed (rtpCh (tr s')) = chClosed (rtpCh (tr s)) /\
  chClosed (pliCh (tr s')) = chClosed (pliCh (tr s)) /\
  pc_is_closed (tr s') = pc_is_closed (tr s) ->
  close_state s -> close_state s'.
Proof.
  unfold close_state, stop_raised, rtp_closed, pli_closed, torn_down.
  intros -> (-> & -> & -> & ->). auto.
Qed.

Lemma close_state_step (a : action) (s s' : system) :
  step a s = Some s' -> (a = CallClose -> closer s = None) ->
  close_state s -> close_state s'.
Proof.
  unfold step. destruct (panicked s) eqn:Hp; [discriminate|].
  destruct a as [| |i al|i j| |]; intros Hs Hc; revert Hs.
  - (* CallClose *)
    rewrite (Hc eq_refl). intros [= <-].
    unfold close_state, stop_raised, rtp_closed, pli_closed, torn_down.
    rewrite (Hc eq_refl). simpl. auto.
  - (* StepClose *)
    destruct (closer s) as [l|] eqn:Hl; [|discriminate]. simpl.
    destruct (close_step (tr s) l) as [r|] eqn:Hr; [|discriminate]. simpl.
    intros [= <-] Hinv.
    destruct r as [[[t l'] ev]|msg]; [|now apply (close_state_frame s)].
    apply close_step_Done in Hr. revert Hinv.
    unfold close_state, stop_raised, rtp_closed, pli_closed, torn_down.
    rewrite Hl. simpl.
    destruct l; simpl in Hr; intros [= H1 H2 H3 H4].
    + destruct Hr as (-> & -> & -> & -> & -> & ->). simpl. now rewrite H2, H3, H4.
    + destruct Hr as (-> & -> & -> & _ & -> & -> & ->). simpl. now rewrite H1, H3, H4.
    + destruct Hr as (-> & -> & -> & _). simpl. now rewrite H1, H2, H3, H4.
    + destruct Hr as (-> & -> & -> & _ & -> & -> & ->). simpl. now rewrite H1, H2, H4.
    + destruct Hr as (-> & -> & -> & _ & -> & -> & ->). simpl. now rewrite H1, H2, H3.
    + contradiction.
  - (* Go *)
    destruct (gs s !! i) as [g|]; [|discriminate]. simpl.
    destruct (go_step (connected s) (tr s) g al) as [r|] eqn:Hr; [|discriminate]. simpl.
    intros [= <-]. destruct r as [[t g']|msg].
    + apply close_state_frame; auto. simpl. apply (go_step_flags _ _ _ _ _ _ Hr).
    + apply close_state_frame; auto.
  - (* Handoff *)
    destruct (gs s !! i) as [[[]| | |]|]; try discriminate.
    destruct (gs s !! j) as [[|ssrc []| |]|]; try discriminate.
    destruct (chClosed (pliCh (tr s))); [discriminate|].
    intros [= <-].
    destruct (t_WriteRTCP (tr s) _) as [t|msg] eqn:Hw.
    + apply close_state_frame; auto. simpl. apply (t_WriteRTCP_flags _ _ _ Hw).
    + apply close_state_frame; auto.
  - (* Drain *)
    destruct (ReadRTP (tr s)) as [[[[p|] e] t]|] eqn:Hr; try discriminate.
    intros [= <-]. apply close_state_frame; auto. simpl. apply (ReadRTP_flags _ _ _ Hr).
  - (* Connect *)
    destruct (pc (tr s)) as [c|]; [|discriminate].
    destruct (connected s || pcClosed c); [discriminate|].
    intros [= <-]. apply close_state_frame; auto.
Qed.

Lemma step_keeps_no_call (a : action) (s s' : system) :
  step a s = Some s' -> closer s = None -> a = CallClose \/ closer s' = None.
Proof.
  unfold step. destruct (panicked s); [discriminate|]. intros H Hc. revert H.
  destruct a as [| |i al|i j| |]; [now left|intros H; right; revert H..].
  - rewrite Hc. discriminate.
  - destruct (gs s !! i) as [g|]; [|discriminate]. simpl.
    destruct (go_step (connected s) (tr s) g al) as [[[t g']|msg]|]; simpl;
      try discriminate; intros [= <-]; simpl; exact Hc.
  - destruct (gs s !! i) as [[[]| | |]|]; try discriminate.
    destruct (gs s !! j) as [[|ssrc []| |]|]; try discriminate.
    destruct (chClosed (pliCh (tr s))); [discriminate|].
    destruct (t_WriteRTCP (tr s) _); intros [= <-]; simpl; exact Hc.
  - destruct (ReadRTP (tr s)) as [[[[p|] e] t]|]; try discriminate.
    intros [= <-]. simpl. exact Hc.
  - destruct (pc (tr s)) as [c|]; [|discriminate].
    destruct (connected s || pcClosed c); [discriminate|].
    intros [= <-]. simpl. exact Hc.
Qed.

(** What every step keeps, as long as [Close] is not called a second
    time, holds along every schedule with at most one call. *)
Lemma first_call_run (P : system -> Prop) :
  (forall a s s', step a s = Some s' -> (a = CallClose -> closer s = None) ->
                  P s -> P s') ->
  forall (acts : list action) (s s' : system),
    P s -> run acts s = Some s' ->
    (calls acts <= match closer s with None => 1 | Some _ => 0 end)%nat ->
    P s'.
Proof.
  intros Hstep. induction acts as [|a acts IH]; simpl; intros s s' Hinv.
  - now intros [= <-].
  - destruct (step a s) as [s1|] eqn:Hs; [|discriminate]. simpl.
    intros Hrun Hcalls.
    assert (Hcall : a = CallClose -> closer s = None).
    { intros ->. destruct (closer s); [lia|reflexivity]. }
    apply (IH s1); [now apply (Hstep a s)|exact Hrun|].
    destruct (closer s) as [l|] eqn:Hl.
    + destruct a; try lia.
    + destruct (step_keeps_no_call a s s1 Hs Hl) as [-> | ->]; [|destruct a; lia].
      revert Hs. unfold step. destruct (panicked s); [discriminate|].
      rewrite Hl. intros [= <-]. simpl. lia.
Qed.

Lemma live_close_state (s : system) : live s -> close_state s.
Proof.
  unfold live, close_state, stop_raised, rtp_closed, pli_closed, torn_down, pc_is_closed.
  intros (-> & _ & _ & (c & -> & ->) & -> & -> & ->). reflexivity.
Qed.

Lemma close_state_run (acts : list action) (s0 s : system) :
  live s0 -> run acts s0 = Some s -> (calls acts <= 1)%nat -> close_state s.
Proof.
  intros Hlive Hrun Hcalls.
  apply (first_call_run close_state close_state_step acts s0 s); auto.
  - now apply live_close_state.
  - destruct Hlive as (-> & _). exact Hcalls.
Qed.

Lemma nreg_elem (l : list goroutine) (g : goroutine) :
  g ∈ l -> registered g = true -> 1 <= nreg l.
Proof.
  induction l as [|x l IH]; intros Hin Hr; [now apply elem_of_nil in Hin|].
  simpl. pose proof (nreg_nonneg l). apply elem_of_cons in Hin.
  destruct Hin as [<-|Hin]; [rewrite Hr; lia|].
  specialize (IH Hin Hr). destruct (registered x); lia.
Qed.

(** X19.  The statements of [Close] in every interleaving with the
    transport's goroutines, on a negotiated transport and with [Close]
    called at most once.  Where the call stands tells what it has done,
    in the ghost record of its effects and on the transport itself:
    before its first statement nothing; then the connection is torn down;
    then the shutdown signal is up as well; after the wait the packet
    channel is closed, and when the call has returned the keyframe
    channel too, and the five effects were performed in the order
    tear-down, signal, wait, packet channel, keyframe channel.  The wait
    does not touch the transport; it is over only when no goroutine that
    registered with the wait group is left, and it does not end while one
    is. *)
Theorem Close_order (s0 : system) (acts : list action) (s : system) :
  live s0 -> wg_counts s0 -> run acts s0 = Some s -> (calls acts <= 1)%nat ->
  closeLog s = log_of (closer s) /\
  closeLog s `prefix_of` close_order /\
  (torn_down s, stop_raised s, rtp_closed s, pli_closed s) = effects_at (closer s) /\
  (closer s = Some CloseReturned ->
     closeLog s = close_order /\ torn_down s = true /\ stop_raised s = true /\
     rtp_closed s = true /\ pli_closed s = true) /\
  (forall s', closer s = Some CloseWait -> step StepClose s = Some s' ->
     closeLog s' = closeLog s ++ [EvWaited] /\ tr s' = tr s /\
     Forall (fun g => registered g = false) (gs s)) /\
  (forall g, closer s = Some CloseWait -> g ∈ gs s -> registered g = true ->
     step StepClose s = None).
Proof.
  intros Hlive Hwg Hrun Hcalls.
  pose proof (close_inv_run acts s0 s Hrun (live_close_inv s0 Hlive)) as (Hlog & _).
  pose proof (close_state_run acts s0 s Hlive Hrun Hcalls) as Hst.
  pose proof (wg_counts_run acts s0 s Hrun Hwg) as Hcount.
  split; [exact Hlog|].
  split; [rewrite Hlog; apply log_of_prefix|].
  split; [exact Hst|].
  split.
  { intros Hc. unfold close_state in Hst. rewrite Hc in Hst. simpl in Hst.
    injection Hst as -> -> -> ->. rewrite Hlog, Hc. auto. }
  split.
  - intros s' Hc. unfold step. destruct (panicked s); [discriminate|].
    rewrite Hc. simpl. destruct (wg (tr s) =? 0) eqn:E; [|discriminate].
    simpl. intros [= <-]. simpl. split; [reflexivity|]. split; [reflexivity|].
    apply nreg_zero. apply Z.eqb_eq in E. unfold wg_counts in Hcount. lia.
  - intros g Hc Hin Hr. unfold step. destruct (panicked s); [reflexivity|].
    rewrite Hc. cbn -[Z.eqb]. destruct (wg (tr s) =? 0) eqn:E; [|reflexivity].
    apply Z.eqb_eq in E. unfold wg_counts in Hcount.
    pose proof (nreg_elem (gs s) g Hin Hr). lia.
Qed.

Lemma live_quiet_system : live quiet_system.
Proof.
  unfold live. simpl. repeat split; try reflexivity.
  exists sample_pc. split; reflexivity.
Qed.

Lemma live_pub_system : live pub_system.
Proof.
  unfold live. simpl. repeat split; try reflexivity.
  exists sample_pc. split; reflexivity.
Qed.

Lemma live_sub_system : live sub_system.
Proof.
  unfold live. simpl. repeat split; try reflexivity.
  exists sample_pc. split; reflexivity.
Qed.

Lemma Close_order_witness :
  exists s,
    run sub_schedule sub_system = Some s /\
    closer s = Some CloseReturned /\ closeLog s = close_order /\
    torn_down s = true /\ stop_raised s = true /\
    rtp_closed s = true /\ pli_closed s = true.
Proof.
  assert (Hsched : exists s, run sub_schedule sub_system = Some s)
    by (vm_compute; eexists; reflexivity).
  destruct Hsched as [s E].
  exists s. split; [exact E|].
  assert (Hc : closer s = Some CloseReturned)
    by (revert E; vm_compute; now intros [= <-]).
  assert (Hcalls : (calls sub_schedule <= 1)%nat) by (simpl; lia).
  split; [exact Hc|].
  apply (Close_order sub_system sub_schedule s live_sub_system eq_refl E Hcalls).
  exact Hc.
Defined.

(** C2, on the code.  A publisher with video, one video track: the PLI
    forwarder has registered with the wait group (line 140, before its
    [go]); [sendPLI]'s goroutine and [receiveRTP] register only once
    they run (lines 218 and 233) and have not yet.  The owner calls
    [Close]: it tears the connection down, raises the signal, waits for
    the forwarder alone, closes both channels and returns, five effects
    in order, while the two loops are still to run.  [sendPLI]'s loop
    then registers, its ticker fires, and its send hits the closed
    [pliCh]. *)
Theorem Close_does_not_wait_for_late_loops :
  exists s s',
    run early_Close pub_system = Some s /\
    closer s = Some CloseReturned /\ closeLog s = close_order /\
    panicked s = None /\
    gs s = [G_sendPLI PliStart; G_onTrackPLI 1234 FwdReturned; G_receiveRTP 0 RecvStart] /\
    run [Go 0 Run; Go 0 CaseTicker; Go 0 Run] s = Some s' /\
    gs s' = [G_sendPLI PliSend; G_onTrackPLI 1234 FwdReturned; G_receiveRTP 0 RecvStart] /\
    panicked s' = Some "send on closed channel"%string.
Proof.
  eexists. eexists. split; [vm_compute; reflexivity|].
  split; [reflexivity|]. split; [reflexivity|]. split; [reflexivity|].
  split; [reflexivity|]. split; [vm_compute; reflexivity|].
  split; reflexivity.
Qed.

(** C3, as the code has it.  Once a call of [Close] has returned, a
    second call panics: tearing the connection down again is harmless,
    and the [close(t.stopCh)] that follows closes a closed channel. *)
Theorem second_Close_panics (s0 : system) (acts : list action) (s : system) :
  live s0 -> run acts s0 = Some s ->
  closer s = Some CloseReturned -> panicked s = None ->
  exists s', run [CallClose; StepClose; StepClose] s = Some s' /\
             panicked s' = Some "close of closed channel"%string /\
             closeLog s' = [EvPcClose].
Proof.
  intros Hlive Hrun Hret Hp.
  pose proof (close_inv_run acts s0 s Hrun (live_close_inv s0 Hlive))
    as (_ & H1 & H2 & H3 & H4).
  rewrite Hret in H4.
  assert (Hstop : chClosed (stopCh (tr s)) = true) by auto.
  assert (Hpc : exists c, pc (tr s) = Some c).
  { specialize (H1 Hstop). unfold torn_down, pc_is_closed in H1.
    destruct (pc (tr s)) as [c|]; [eauto|discriminate]. }
  destruct Hpc as (c & Hpc).
  set (s1 := {| tr := tr s; connected := connected s;
                closer := Some CloseEntry; closeLog := [];
                gs := gs s; panicked := None |}).
  set (s2 := {| tr := set_pc (tr s) (Some (pc_Close c)); connected := connected s;
                closer := Some CloseStop;
                closeLog := [EvPcClose]; gs := gs s; panicked := None |}).
  assert (E1 : step CallClose s = Some s1)
    by (unfold step; now rewrite Hp, Hret).
  assert (E2 : step StepClose s1 = Some s2)
    by (unfold step; simpl; now rewrite Hpc).
  assert (E3 : step StepClose s2 = Some (crash s2 "close of closed channel"))
    by (unfold step; simpl; unfold close_chan; simpl; now rewrite Hstop).
  exists (crash s2 "close of closed channel"). split.
  - cbn [run]. rewrite E1. cbn [mbind option_bind]. rewrite E2. cbn [mbind option_bind].
    rewrite E3. reflexivity.
  - split; reflexivity.
Qed.

Lemma second_Close_panics_witness :
  exists s s', run Close_alone quiet_system = Some s /\
               run [CallClose; StepClose; StepClose] s = Some s' /\
               panicked s' = Some "close of closed channel"%string.
Proof.
  assert (Hsched : exists s, run Close_alone quiet_system = Some s)
    by (vm_compute; eexists; reflexivity).
  destruct Hsched as [s E].
  assert (Hs : closer s = Some CloseReturned /\ panicked s = None)
    by (revert E; vm_compute; intros [= <-]; split; reflexivity).
  destruct (second_Close_panics quiet_system Close_alone s live_quiet_system E
              (proj1 Hs) (proj2 Hs)) as (s' & Hrun & Hpanic & _).
  exists s, s'. split; [exact E|]. split; [exact Hrun | exact Hpanic].
Defined.

(** C3, as the spec has it: a second call after a completed first one
    would return without a panic.  On a transport with no goroutine the
    first call returns and the second one panics. *)
Lemma second_Close_does_not_complete :
  exists s',
    run (Close_alone ++ [CallClose; StepClose; StepClose]) quiet_system = Some s' /\
    panicked s' = Some "close of closed channel"%string /\
    closer s' = Some CloseStop.
Proof. eexists. split; [vm_compute; reflexivity|]. split; reflexivity. Qed.

(** C9, on the code.  A publisher with video, one video track: the
    ticker fires and [sendPLI]'s goroutine stands at [t.pliCh <- 1] when
    the owner calls [Close].  The connection is torn down and the signal
    raised; the PLI forwarder and [receiveRTP] see it and leave.  Now
    nothing can move: the sender waits for a receiver that is gone, so it
    never reaches [wg.Done()], and [Close] waits in [wg.Wait()] for ever
    with both channels still open. *)
Theorem Close_deadlocks_on_parked_sendPLI :
  exists s,
    run parked_schedule pub_system = Some s /\
    gs s = [G_sendPLI PliSend; G_onTrackPLI 1234 FwdReturned; G_receiveRTP 0 RecvReturned] /\
    closer s = Some CloseWait /\
    wg (tr s) = 1 /\
    panicked s = None /\
    stuck s.
Proof.
  eexists. split; [vm_compute; reflexivity|].
  repeat split.
  intros a. destruct a as [| |i al|i j| |]; try reflexivity.
  - destruct i as [|[|[|i]]]; destruct al; reflexivity.
  - destruct i as [|[|[|i]]]; try reflexivity.
    destruct j as [|[|[|j]]]; reflexivity.
Qed.
(* ===================================================================== *)
(** * float64: rounding is monotone *)
(* ===================================================================== *)

(** The lemmas below relate [SpecFloat]'s rounding (shift, round and
    sticky bits, ties to even) to [rne] on integers, and derive that
    conversion, subtraction from one and multiplication, as [sendREMB]
    uses them, are monotone in the values of their arguments. *)

Lemma digits2_pos_bounds (m : positive) :
  2 ^ (Z.pos (digits2_pos m) - 1) <= Z.pos m < 2 ^ Z.pos (digits2_pos m).
Proof.
  induction m as [m IH|m IH|]; simpl digits2_pos.
  - rewrite Pos2Z.inj_succ.
    replace (Z.succ (Z.pos (digits2_pos m)) - 1) with (Z.succ (Z.pos (digits2_pos m) - 1)) by lia.
    rewrite !Z.pow_succ_r by lia.
    set (a := 2 ^ (Z.pos (digits2_pos m) - 1)) in *.
    set (b := 2 ^ (Z.pos (digits2_pos m))) in *. clearbody a b. lia.
  - rewrite Pos2Z.inj_succ.
    replace (Z.succ (Z.pos (digits2_pos m)) - 1) with (Z.succ (Z.pos (digits2_pos m) - 1)) by lia.
    rewrite !Z.pow_succ_r by lia.
    set (a := 2 ^ (Z.pos (digits2_pos m) - 1)) in *.
    set (b := 2 ^ (Z.pos (digits2_pos m))) in *. clearbody a b. lia.
  - simpl. lia.
Qed.

Lemma Zdigits2_bounds (m : Z) : 0 < m ->
  0 < Zdigits2 m /\ 2 ^ (Zdigits2 m - 1) <= m < 2 ^ Zdigits2 m.
Proof.
  destruct m as [|p|p]; try lia. intros _. simpl. split; [lia|apply digits2_pos_bounds].
Qed.

Lemma Zdigits2_unique (m d : Z) : 2 ^ (d - 1) <= m < 2 ^ d -> 0 < m -> 0 < d -> Zdigits2 m = d.
Proof.
  intros H Hm Hd. destruct (Zdigits2_bounds m Hm) as (Hpos & Hb).
  assert (d - 1 < Zdigits2 m).
  { apply (Z.pow_lt_mono_r_iff 2); lia. }
  assert (Zdigits2 m - 1 < d).
  { apply (Z.pow_lt_mono_r_iff 2); lia. }
  lia.
Qed.

Lemma Zdigits2_mul_pow2 (m s : Z) : 0 < m -> 0 <= s -> Zdigits2 (m * 2 ^ s) = Zdigits2 m + s.
Proof.
  intros Hm Hs. destruct (Zdigits2_bounds m Hm) as (Hpos & Hb).
  assert (0 < 2 ^ s) by (apply Z.pow_pos_nonneg; lia).
  apply Zdigits2_unique; try nia.
  replace (Zdigits2 m + s - 1) with ((Zdigits2 m - 1) + s) by lia.
  rewrite !Z.pow_add_r by lia. nia.
Qed.

Lemma pow2_pos (n : Z) : 0 <= n -> 0 < 2 ^ n.
Proof. intros. apply Z.pow_pos_nonneg; lia. Qed.


Lemma rne_rne_at (m n : Z) : rne m n = rne_at (2 ^ n) m.
Proof. reflexivity. Qed.

Lemma rne_at_bounds (P m : Z) : 0 < P ->
  m / P <= rne_at P m <= m / P + 1.
Proof.
  intros HP. unfold rne_at.
  destruct (2 * (m mod P) <? P); [lia|].
  destruct (2 * (m mod P) =? P); [destruct (Z.even (m / P))|]; lia.
Qed.

Lemma rne_at_mono (P m1 m2 : Z) : 0 < P -> m1 <= m2 -> rne_at P m1 <= rne_at P m2.
Proof.
  intros HP Hle.
  pose proof (Z.div_le_mono m1 m2 P HP Hle) as Hq.
  pose proof (Z.div_mod m1 P ltac:(lia)) as E1.
  pose proof (Z.div_mod m2 P ltac:(lia)) as E2.
  pose proof (Z.mod_pos_bound m1 P HP) as B1.
  pose proof (Z.mod_pos_bound m2 P HP) as B2.
  pose proof (rne_at_bounds P m1 HP) as R1.
  pose proof (rne_at_bounds P m2 HP) as R2.
  destruct (Z.eq_dec (m1 / P) (m2 / P)) as [Eq|Ne]; [|lia].
  assert (Hr : m1 mod P <= m2 mod P) by (rewrite Eq in E1; lia).
  unfold rne_at in *. rewrite <- Eq in *.
  set (q := m1 / P) in *. set (r1 := m1 mod P) in *. set (r2 := m2 mod P) in *.
  clearbody q r1 r2.
  destruct (Z.ltb_spec (2 * r1) P), (Z.ltb_spec (2 * r2) P);
  destruct (Z.eqb_spec (2 * r1) P), (Z.eqb_spec (2 * r2) P);
  destruct (Z.even q); lia.
Qed.

Lemma rne_at_scale (P c m : Z) : 0 < P -> 0 < c -> rne_at (P * c) (m * c) = rne_at P m.
Proof.
  intros HP Hc. unfold rne_at.
  rewrite Z.div_mul_cancel_r by lia.
  rewrite Z.mul_mod_distr_r by lia.
  set (q := m / P). set (r := m mod P).
  replace (2 * (r * c) <? P * c) with (2 * r <? P).
  2:{ destruct (Z.ltb_spec (2 * r) P), (Z.ltb_spec (2 * (r * c)) (P * c)); try reflexivity; nia. }
  replace (2 * (r * c) =? P * c) with (2 * r =? P).
  2:{ destruct (Z.eqb_spec (2 * r) P), (Z.eqb_spec (2 * (r * c)) (P * c)); try reflexivity; nia. }
  reflexivity.
Qed.

Lemma rne_at_exact (P q : Z) : 0 < P -> rne_at P (q * P) = q.
Proof.
  intros HP. unfold rne_at. rewrite Z.div_mul, Z.mod_mul by lia.
  destruct (Z.ltb_spec (2 * 0) P); [reflexivity|lia].
Qed.

(* |rne*P - m| <= P/2 *)
Lemma rne_at_near (P m : Z) : 0 < P -> 2 * (rne_at P m * P) <= 2 * m + P.
Proof.
  intros HP. unfold rne_at.
  pose proof (Z.div_mod m P ltac:(lia)) as E.
  pose proof (Z.mod_pos_bound m P HP) as B.
  set (q := m / P) in *. set (r := m mod P) in *. clearbody q r.
  destruct (Z.ltb_spec (2 * r) P); [nia|].
  destruct (Z.eqb_spec (2 * r) P); [destruct (Z.even q)|]; nia.
Qed.

Lemma rne_mono (m1 m2 n : Z) : 0 <= n -> m1 <= m2 -> rne m1 n <= rne m2 n.
Proof. intros. rewrite !rne_rne_at. apply rne_at_mono; [now apply pow2_pos|assumption]. Qed.

Lemma rne_scale (m n k : Z) : 0 <= n -> 0 <= k -> rne (m * 2 ^ k) (n + k) = rne m n.
Proof.
  intros Hn Hk. rewrite !rne_rne_at, Z.pow_add_r by lia.
  apply rne_at_scale; now apply pow2_pos.
Qed.

Lemma rne_exact (q n : Z) : 0 <= n -> rne (q * 2 ^ n) n = q.
Proof. intros. rewrite rne_rne_at. apply rne_at_exact. now apply pow2_pos. Qed.

Lemma rne_zero_shift (m : Z) : rne m 0 = m.
Proof. rewrite <- (rne_exact m 0) at 2 by lia. now rewrite Z.mul_1_r. Qed.

Lemma rne_bounds (m n : Z) : 0 <= n -> m / 2 ^ n <= rne m n <= m / 2 ^ n + 1.
Proof. intros. rewrite rne_rne_at. apply rne_at_bounds. now apply pow2_pos. Qed.

Lemma rne_near (m n : Z) : 0 <= n -> 2 * (rne m n * 2 ^ n) <= 2 * m + 2 ^ n.
Proof. intros. rewrite rne_rne_at. apply rne_at_near. now apply pow2_pos. Qed.

Lemma shr_rel_init (m0 : Z) : 0 <= m0 -> shr_rel m0 1 (Build_shr_record m0 false false).
Proof.
  intros H. exists 0. simpl. repeat split; lia.
Qed.

Lemma shr_rel_step (m0 P : Z) (mrs : shr_record) :
  0 < P -> shr_rel m0 P mrs -> shr_rel m0 (2 * P) (shr_1 mrs).
Proof.
  intros HP (rem & E & B & Hq & Hr & Hs).
  destruct mrs as [q r s]. cbn [shr_m shr_r shr_s] in *. subst r s.
  assert (Hsticky : (P <=? 2 * rem) || negb ((rem =? 0) || (2 * rem =? P)) = negb (rem =? 0)).
  { destruct (Z.leb_spec P (2 * rem)), (Z.eqb_spec rem 0), (Z.eqb_spec (2 * rem) P);
      simpl; try reflexivity; lia. }
  unfold shr_1. rewrite Hsticky.
  destruct q as [|[p|p|]|p]; try lia; cbv zeta;
    [exists rem | exists (rem + P) | exists rem | exists (rem + P)];
    cbn [shr_m shr_r shr_s]; repeat split; try lia;
    repeat match goal with
           | |- context [Z.leb ?a ?b] => destruct (Z.leb_spec a b)
           | |- context [Z.eqb ?a ?b] => destruct (Z.eqb_spec a b)
           end; simpl; try reflexivity; lia.
Qed.

Lemma shr_rel_iter (m0 : Z) (p : positive) : forall (P : Z) (mrs : shr_record),
  0 < P -> shr_rel m0 P mrs -> shr_rel m0 (P * 2 ^ Z.pos p) (SpecFloat.iter_pos shr_1 p mrs).
Proof.
  induction p as [p IH|p IH|]; intros P mrs HP H; simpl SpecFloat.iter_pos.
  - replace (P * 2 ^ Z.pos p~1) with (((2 * P) * 2 ^ Z.pos p) * 2 ^ Z.pos p).
    2:{ replace (Z.pos p~1) with (Z.pos p + Z.pos p + 1) by lia.
        rewrite !Z.pow_add_r by lia. change (2 ^ 1) with 2.
        set (a := 2 ^ Z.pos p). lia. }
    assert (0 < 2 ^ Z.pos p) by (apply pow2_pos; lia).
    apply IH; [nia|]. apply IH; [lia|]. now apply shr_rel_step.
  - replace (P * 2 ^ Z.pos p~0) with ((P * 2 ^ Z.pos p) * 2 ^ Z.pos p).
    2:{ replace (Z.pos p~0) with (Z.pos p + Z.pos p) by lia.
        rewrite !Z.pow_add_r by lia.
        set (a := 2 ^ Z.pos p). lia. }
    assert (0 < 2 ^ Z.pos p) by (apply pow2_pos; lia).
    apply IH; [nia|]. now apply IH.
  - change (2 ^ 1) with 2. rewrite Z.mul_comm. now apply shr_rel_step.
Qed.

Lemma shr_rel_rne (m0 n : Z) (mrs : shr_record) : 0 <= n ->
  shr_rel m0 (2 ^ n) mrs ->
  round_nearest_even (shr_m mrs) (loc_of_shr_record mrs) = rne m0 n.
Proof.
  intros Hn (rem & E & B & Hq & Hr & Hs).
  assert (HP : 0 < 2 ^ n) by now apply pow2_pos.
  unfold rne. set (P := 2 ^ n) in *. clearbody P.
  assert (Hd : m0 / P = shr_m mrs) by (symmetry; apply (Z.div_unique_pos m0 P _ rem); lia).
  assert (Hm : m0 mod P = rem) by (symmetry; apply (Z.mod_unique_pos m0 P (shr_m mrs) rem); lia).
  rewrite Hd, Hm. destruct mrs as [q r s]. cbn [shr_m shr_r shr_s] in *. subst r s.
  unfold loc_of_shr_record, round_nearest_even.
  destruct (Z.leb_spec P (2 * rem)), (Z.eqb_spec rem 0), (Z.eqb_spec (2 * rem) P),
           (Z.ltb_spec (2 * rem) P); simpl; try reflexivity; try lia.
Qed.

(* the first shift of binary_round_aux *)
Lemma shr_exact_rne (m e n : Z) : 0 <= m -> 0 <= n ->
  let '(mrs, e') := shr (shr_record_of_loc m loc_Exact) e n in
  round_nearest_even (shr_m mrs) (loc_of_shr_record mrs) = rne m n /\ e' = e + n.
Proof.
  intros Hm Hn. unfold shr. simpl shr_record_of_loc.
  destruct n as [|p|p]; try lia.
  - simpl. rewrite rne_zero_shift. split; [reflexivity|lia].
  - split; [|reflexivity].
    apply shr_rel_rne; [lia|].
    replace (2 ^ Z.pos p) with (1 * 2 ^ Z.pos p) by lia.
    apply shr_rel_iter; [lia|]. now apply shr_rel_init.
Qed.

Lemma fexp_normal (x : Z) : -1074 <= x - 53 -> fexp f64_prec f64_emax x = x - 53.
Proof. unfold fexp, emin, f64_prec, f64_emax. lia. Qed.

Lemma rne_mantissa_bounds (m : Z) : 0 < m -> 53 <= Zdigits2 m ->
  2 ^ 52 <= rne m (Zdigits2 m - 53) <= 2 ^ 53.
Proof.
  intros Hm Hd. destruct (Zdigits2_bounds m Hm) as (_ & Hb).
  set (d := Zdigits2 m) in *. set (n := d - 53).
  assert (Hn : 0 <= n) by (unfold n; lia).
  pose proof (rne_bounds m n Hn) as Hr.
  assert (HP : 0 < 2 ^ n) by now apply pow2_pos.
  assert (E1 : 2 ^ (d - 1) = 2 ^ 52 * 2 ^ n).
  { replace (d - 1) with (52 + n) by (unfold n; lia). now rewrite Z.pow_add_r by lia. }
  assert (E2 : 2 ^ d = 2 ^ 53 * 2 ^ n).
  { replace d with (53 + n) at 1 by (unfold n; lia). now rewrite Z.pow_add_r by lia. }
  assert (2 ^ 52 <= m / 2 ^ n) by (apply Z.div_le_lower_bound; lia).
  assert (m / 2 ^ n < 2 ^ 53) by (apply Z.div_lt_upper_bound; lia).
  lia.
Qed.

Lemma round_aux_pos (m : positive) (e : Z) :
  let d := Zdigits2 (Z.pos m) in
  let n := d - 53 in
  let r := rne (Z.pos m) n in
  53 <= d -> -1074 <= d + e - 53 -> d + e < 1024 ->
  binary_round_aux f64_prec f64_emax false (Z.pos m) e loc_Exact =
    if r =? 2 ^ 53 then S754_finite false (Z.to_pos (2 ^ 52)) (e + n + 1)
    else S754_finite false (Z.to_pos r) (e + n).
Proof.
  intros d n r Hd Hlo Hhi.
  assert (Hn : 0 <= n) by (unfold n; lia).
  pose proof (rne_mantissa_bounds (Z.pos m) ltac:(lia) Hd) as Hr. fold d n r in Hr.
  unfold binary_round_aux, shr_fexp.
  fold d. rewrite (fexp_normal (d + e)) by lia.
  replace (d + e - 53 - e) with n by (unfold n; lia).
  pose proof (shr_exact_rne (Z.pos m) e n ltac:(lia) Hn) as H1.
  destruct (shr (shr_record_of_loc (Z.pos m) loc_Exact) e n) as [mrs e'].
  destruct H1 as (H1 & ->). rewrite H1. fold r.
  destruct (Z.eqb_spec r (2 ^ 53)) as [E|NE].
  - rewrite E. change (Zdigits2 (2 ^ 53)) with 54.
    rewrite (fexp_normal (54 + (e + n))) by (unfold n; lia).
    replace (54 + (e + n) - 53 - (e + n)) with 1 by lia.
    change (shr (shr_record_of_loc (2 ^ 53) loc_Exact) (e + n) 1)
      with (Build_shr_record (2 ^ 52) false false, e + n + 1).
    cbn [shr_m]. change (2 ^ 52) with (Z.pos (Z.to_pos (2 ^ 52))) at 1.
    cbv iota beta.
    replace (e + n + 1 <=? f64_emax - f64_prec) with true; [reflexivity|].
    symmetry. apply Z.leb_le. unfold f64_emax, f64_prec, n. lia.
  - assert (Hdr : Zdigits2 r = 53) by (apply Zdigits2_unique; lia).
    rewrite Hdr, (fexp_normal (53 + (e + n))) by (unfold n; lia).
    replace (53 + (e + n) - 53 - (e + n)) with 0 by lia.
    unfold shr. simpl shr_record_of_loc. cbn [shr_m].
    destruct r as [|p|p]; try lia.
    replace (e + n <=? f64_emax - f64_prec) with true; [reflexivity|].
    symmetry. apply Z.leb_le. unfold f64_emax, f64_prec, n. lia.
Qed.

Lemma pow2_le (a b : Z) : 0 <= a <= b -> 2 ^ a <= 2 ^ b.
Proof. intros. apply Z.pow_le_mono_r; lia. Qed.

Lemma pow2_split (a b : Z) : 0 <= a -> 0 <= b -> 2 ^ (a + b) = 2 ^ a * 2 ^ b.
Proof. intros. apply Z.pow_add_r; lia. Qed.

Lemma round_value_mono (m1 e1 m2 e2 : Z) :
  0 < m1 -> 0 < m2 -> 53 <= Zdigits2 m1 -> 53 <= Zdigits2 m2 ->
  - f64_scale <= e1 -> - f64_scale <= e2 ->
  dyadic m1 e1 <= dyadic m2 e2 ->
  round_value m1 e1 <= round_value m2 e2.
Proof.
  intros Hm1 Hm2 Hd1 Hd2 He1 He2 Hle.
  destruct (Zdigits2_bounds m1 Hm1) as (_ & Hb1).
  destruct (Zdigits2_bounds m2 Hm2) as (_ & Hb2).
  pose proof (rne_mantissa_bounds m1 Hm1 Hd1) as Hr1.
  pose proof (rne_mantissa_bounds m2 Hm2 Hd2) as Hr2.
  unfold round_value, dyadic in *.
  set (d1 := Zdigits2 m1) in *. set (d2 := Zdigits2 m2) in *.
  set (a1 := e1 + f64_scale) in *. set (a2 := e2 + f64_scale) in *.
  assert (Ha1 : 0 <= a1) by (unfold a1; lia).
  assert (Ha2 : 0 <= a2) by (unfold a2; lia).
  set (n1 := d1 - 53) in *. set (n2 := d2 - 53) in *.
  replace (e1 + n1 + f64_scale) with (a1 + n1) by (unfold a1; lia).
  replace (e2 + n2 + f64_scale) with (a2 + n2) by (unfold a2; lia).
  assert (Hn1 : 0 <= n1) by (unfold n1; lia).
  assert (Hn2 : 0 <= n2) by (unfold n2; lia).
  set (r1 := rne m1 n1) in *. set (r2 := rne m2 n2) in *.
  (* magnitudes are ordered *)
  assert (HE : d1 + a1 <= d2 + a2).
  { assert (2 ^ (d1 - 1 + a1) < 2 ^ (d2 + a2)).
    { rewrite !pow2_split by lia.
      assert (0 < 2 ^ a1) by now apply pow2_pos.
      assert (0 < 2 ^ a2) by now apply pow2_pos.
      nia. }
    assert (d1 - 1 + a1 < d2 + a2) by (apply (Z.pow_lt_mono_r_iff 2); lia).
    lia. }
  destruct (Z.eq_dec (d1 + a1) (d2 + a2)) as [Eq|Ne].
  - (* same binade: same grid *)
    assert (Eg : a1 + n1 = a2 + n2) by (unfold n1, n2; lia).
    rewrite Eg.
    assert (0 < 2 ^ (a2 + n2)) by (apply pow2_pos; lia).
    apply Z.mul_le_mono_nonneg_r; [lia|].
    destruct (Z.le_ge_cases a1 a2) as [Hc|Hc].
    + set (c := a2 - a1).
      assert (Hc0 : 0 <= c) by (unfold c; lia).
      assert (En : n1 = n2 + c) by (unfold c; lia).
      assert (Hm : m1 <= m2 * 2 ^ c).
      { replace a2 with (c + a1) in Hle by (unfold c; lia).
        rewrite pow2_split in Hle by lia.
        assert (0 < 2 ^ a1) by now apply pow2_pos. nia. }
      unfold r1, r2. rewrite <- (rne_scale m2 n2 c Hn2 Hc0), <- En.
      apply rne_mono; assumption.
    + set (c := a1 - a2).
      assert (Hc0 : 0 <= c) by (unfold c; lia).
      assert (En : n2 = n1 + c) by (unfold c; lia).
      assert (Hm : m1 * 2 ^ c <= m2).
      { replace a1 with (c + a2) in Hle by (unfold c; lia).
        rewrite pow2_split in Hle by lia.
        assert (0 < 2 ^ a2) by now apply pow2_pos. nia. }
      unfold r1, r2. rewrite <- (rne_scale m1 n1 c Hn1 Hc0), <- En.
      apply rne_mono; assumption.
  - (* a lower binade *)
    assert (0 < 2 ^ (a1 + n1)) by (apply pow2_pos; lia).
    assert (0 < 2 ^ (a2 + n2)) by (apply pow2_pos; lia).
    apply Z.le_trans with (2 ^ 53 * 2 ^ (a1 + n1)); [nia|].
    apply Z.le_trans with (2 ^ 52 * 2 ^ (a2 + n2)); [|nia].
    rewrite <- !pow2_split by lia. apply pow2_le. unfold n1, n2. lia.
Qed.

Lemma dyadic_pos (m e : Z) : 0 < m -> - f64_scale <= e -> 0 < dyadic m e.
Proof.
  intros Hm He. unfold dyadic.
  assert (0 < 2 ^ (e + f64_scale)) by (apply pow2_pos; lia). nia.
Qed.

Lemma dyadic_scale (m e s : Z) : 0 <= s -> - f64_scale <= e - s ->
  dyadic (m * 2 ^ s) (e - s) = dyadic m e.
Proof.
  intros Hs He. unfold dyadic.
  replace (e + f64_scale) with (s + (e - s + f64_scale)) by lia.
  rewrite (pow2_split s) by lia. lia.
Qed.

Lemma dyadic_mono (m1 m2 e : Z) : m1 <= m2 -> - f64_scale <= e -> dyadic m1 e <= dyadic m2 e.
Proof.
  intros Hm He. unfold dyadic.
  assert (0 < 2 ^ (e + f64_scale)) by (apply pow2_pos; lia). nia.
Qed.

Lemma round_aux_value (m : positive) (e : Z) :
  53 <= Zdigits2 (Z.pos m) ->
  -1074 <= Zdigits2 (Z.pos m) + e - 53 ->
  Zdigits2 (Z.pos m) + e < 1024 ->
  - f64_scale <= e ->
  exists m' e',
    binary_round_aux f64_prec f64_emax false (Z.pos m) e loc_Exact = S754_finite false m' e' /\
    dyadic (Z.pos m') e' = round_value (Z.pos m) e /\
    2 ^ 52 <= Z.pos m' < 2 ^ 53 /\
    Zdigits2 (Z.pos m) + e - 53 <= e' <= Zdigits2 (Z.pos m) + e - 52.
Proof.
  intros Hd Hlo Hhi He.
  rewrite (round_aux_pos m e Hd Hlo Hhi).
  pose proof (rne_mantissa_bounds (Z.pos m) ltac:(lia) Hd) as Hr.
  unfold round_value.
  set (n := Zdigits2 (Z.pos m) - 53) in *. set (r := rne (Z.pos m) n) in *.
  destruct (Z.eqb_spec r (2 ^ 53)) as [E|NE].
  - exists (Z.to_pos (2 ^ 52)), (e + n + 1). split; [reflexivity|]. split.
    + rewrite E. unfold dyadic.
      replace (e + n + 1 + f64_scale) with (1 + (e + n + f64_scale)) by lia.
      rewrite (pow2_split 1) by (unfold n; lia).
      change (Z.pos (Z.to_pos (2 ^ 52))) with (2 ^ 52).
      change (2 ^ 53) with (2 ^ 52 * 2 ^ 1). lia.
    + change (Z.pos (Z.to_pos (2 ^ 52))) with (2 ^ 52). unfold n. lia.
  - exists (Z.to_pos r), (e + n). split; [reflexivity|].
    rewrite Z2Pos.id by lia. split; [reflexivity|]. unfold n. lia.
Qed.

Lemma iter_xO_pow2 (m k : positive) : Z.pos (Pos.iter xO m k) = Z.pos m * 2 ^ Z.pos k.
Proof.
  induction k as [|k IH] using Pos.peano_ind.
  - simpl. lia.
  - rewrite Pos.iter_succ, Pos2Z.inj_succ, Z.pow_succ_r by lia.
    change (Z.pos (Pos.iter xO m k)~0) with (2 * Z.pos (Pos.iter xO m k)).
    rewrite IH. lia.
Qed.

Lemma binary_round_value (m : positive) (e : Z) :
  let d := Zdigits2 (Z.pos m) in
  let s := Z.max 0 (53 - d) in
  -1074 <= d + e - 53 -> d + e < 1024 -> 53 - f64_scale <= e ->
  exists m' e',
    binary_round f64_prec f64_emax false m e = S754_finite false m' e' /\
    dyadic (Z.pos m') e' = round_value (Z.pos m * 2 ^ s) (e - s) /\
    2 ^ 52 <= Z.pos m' < 2 ^ 53 /\
    d + e - 53 <= e' <= d + e - 52.
Proof.
  intros d s Hlo Hhi He.
  destruct (Zdigits2_bounds (Z.pos m) ltac:(lia)) as (Hdpos & _). fold d in Hdpos.
  unfold binary_round.
  change (Z.pos (digits2_pos m)) with d.
  rewrite (fexp_normal (d + e)) by lia.
  unfold shl_align. replace (d + e - 53 - e) with (d - 53) by lia.
  destruct (d - 53) as [|k|k] eqn:Ek.
  - replace s with 0 by (unfold s; lia). rewrite Z.mul_1_r, Z.sub_0_r.
    destruct (round_aux_value m e) as (m' & e' & H1 & H2 & H3 & H4); fold d; try lia.
    exists m', e'. fold d in H4. auto.
  - replace s with 0 by (unfold s; lia). rewrite Z.mul_1_r, Z.sub_0_r.
    destruct (round_aux_value m e) as (m' & e' & H1 & H2 & H3 & H4); fold d; try lia.
    exists m', e'. fold d in H4. auto.
  - assert (Es : s = Z.pos k) by (unfold s; lia).
    assert (Ed : Zdigits2 (Z.pos (Pos.iter xO m k)) = 53).
    { rewrite iter_xO_pow2, Zdigits2_mul_pow2 by lia. fold d. lia. }
    destruct (round_aux_value (Pos.iter xO m k) (d + e - 53))
      as (m' & e' & H1 & H2 & H3 & H4); rewrite ?Ed; try lia.
    exists m', e'. rewrite Ed in H4. split; [exact H1|].
    split; [|split; [exact H3|lia]].
    rewrite H2, iter_xO_pow2, Es. f_equal. lia.
Qed.

Lemma Zdigits2_ge (m k : Z) : 0 < m -> 0 <= k -> 2 ^ k <= m -> k + 1 <= Zdigits2 m.
Proof.
  intros Hm Hk H. destruct (Zdigits2_bounds m Hm) as (Hd & Hb).
  assert (k < Zdigits2 m) by (apply (Z.pow_lt_mono_r_iff 2); lia). lia.
Qed.

Lemma Zdigits2_le (m k : Z) : 0 < m -> 0 <= k -> m < 2 ^ k -> Zdigits2 m <= k.
Proof.
  intros Hm Hk H. destruct (Zdigits2_bounds m Hm) as (Hd & Hb).
  assert (Zdigits2 m - 1 < k) by (apply (Z.pow_lt_mono_r_iff 2); lia). lia.
Qed.

(** float64(R) for a positive uint64 *)
Lemma f64_of_uint64_pos (R : Z) : 0 < R < 2 ^ 64 ->
  exists m e,
    f64_of_uint64 R = S754_finite false m e /\
    2 ^ 52 <= Z.pos m < 2 ^ 53 /\ -52 <= e <= 12 /\
    dyadic (Z.pos m) e <= dyadic (2 * R) 0.
Proof.
  intros HR. unfold f64_of_uint64, binary_normalize.
  destruct R as [|p|p]; try lia.
  assert (Hd1 : 1 <= Zdigits2 (Z.pos p)) by (apply (Zdigits2_ge _ 0); lia).
  assert (Hd2 : Zdigits2 (Z.pos p) <= 64) by (apply Zdigits2_le; lia).
  destruct (Zdigits2_bounds (Z.pos p) ltac:(lia)) as (_ & Hb).
  destruct (binary_round_value p 0) as (m & e & H1 & H2 & H3 & H4);
    try (unfold f64_scale; lia).
  exists m, e. split; [exact H1|]. split; [exact H3|]. split; [lia|].
  rewrite H2. clear H1 H2 H3 H4.
  set (d := Zdigits2 (Z.pos p)) in *.
  destruct (Z.le_gt_cases d 53) as [Hs|Hs].
  - (* exact *)
    replace (Z.max 0 (53 - d)) with (53 - d) by lia.
    unfold round_value.
    rewrite Zdigits2_mul_pow2 by lia. fold d.
    replace (d + (53 - d) - 53) with 0 by lia.
    rewrite rne_zero_shift, Z.add_0_r, dyadic_scale by (unfold f64_scale; lia).
    apply dyadic_mono; [lia|unfold f64_scale; lia].
  - replace (Z.max 0 (53 - d)) with 0 by lia.
    rewrite Z.mul_1_r, Z.sub_0_r. unfold round_value. fold d.
    set (n := d - 53). assert (Hn : 0 < n) by (unfold n; lia).
    pose proof (rne_near (Z.pos p) n ltac:(lia)) as Hnear.
    assert (Hpn : 2 ^ n <= 2 ^ (d - 1)) by (apply pow2_le; unfold n; lia).
    unfold dyadic. rewrite Z.add_0_l.
    replace (0 + n + f64_scale) with (n + f64_scale) by lia.
    rewrite (pow2_split n) by (unfold f64_scale; lia).
    assert (0 < 2 ^ f64_scale) by (apply pow2_pos; unfold f64_scale; lia).
    assert (rne (Z.pos p) n * 2 ^ n <= 2 * Z.pos p) by lia.
    rewrite Z.mul_assoc. apply Z.mul_le_mono_nonneg_r; lia.
Qed.

Lemma f64_valid_finite (s : bool) (m : positive) (e : Z) :
  f64_valid (S754_finite s m e) = true ->
  e = Z.max (Zdigits2 (Z.pos m) + e - 53) (-1074) /\ e <= 971.
Proof.
  unfold f64_valid, valid_binary, bounded, canonical_mantissa, fexp, emin, f64_prec, f64_emax.
  intros H. apply andb_true_iff in H. destruct H as (H1 & H2).
  apply Z.eqb_eq in H1. apply Z.leb_le in H2. simpl Zdigits2. lia.
Qed.

Lemma canonical_lt (m1 : positive) (e1 : Z) (m2 : positive) (e2 : Z) :
  f64_valid (S754_finite false m1 e1) = true ->
  f64_valid (S754_finite false m2 e2) = true ->
  e1 < e2 -> dyadic (Z.pos m1) e1 < dyadic (Z.pos m2) e2.
Proof.
  intros V1 V2 Hlt.
  apply f64_valid_finite in V1, V2. destruct V1 as (C1 & _), V2 as (C2 & _).
  destruct (Zdigits2_bounds (Z.pos m1) ltac:(lia)) as (P1 & B1).
  destruct (Zdigits2_bounds (Z.pos m2) ltac:(lia)) as (P2 & B2).
  set (d1 := Zdigits2 (Z.pos m1)) in *. set (d2 := Zdigits2 (Z.pos m2)) in *.
  assert (d2 = 53) by lia. assert (d1 <= 53) by lia.
  assert (Z.pos m1 < 2 ^ 53).
  { apply Z.lt_le_trans with (2 ^ d1); [lia|]. apply pow2_le. lia. }
  assert (2 ^ 52 <= Z.pos m2) by (replace 52 with (d2 - 1) by lia; lia).
  unfold dyadic.
  assert (0 < 2 ^ (e1 + f64_scale)) by (apply pow2_pos; unfold f64_scale; lia).
  replace (e2 + f64_scale) with ((e2 - e1 - 1) + (1 + (e1 + f64_scale))) by lia.
  rewrite (pow2_split (e2 - e1 - 1)), (pow2_split 1) by (unfold f64_scale; lia).
  assert (0 < 2 ^ (e2 - e1 - 1)) by (apply pow2_pos; lia).
  change (2 ^ 1) with 2. change (2 ^ 53) with (2 * 2 ^ 52) in *.
  set (X := 2 ^ (e1 + f64_scale)) in *. set (Y := 2 ^ (e2 - e1 - 1)) in *.
  set (c := 2 ^ 52) in *. clearbody X Y c. clear B1 B2.
  apply Z.lt_le_trans with (2 * c * X); [nia|].
  assert (c * X <= Z.pos m2 * X) by nia.
  assert (Z.pos m2 * X <= Z.pos m2 * X * Y) by nia.
  lia.
Qed.

(** On valid data that are zero or positive, the comparison is the
    comparison of values. *)
Lemma f64_compare_value (x y : float64) :
  f64_valid x = true -> f64_valid y = true ->
  f64_nonneg x = true -> f64_nonneg y = true ->
  SFcompare x y = Some (f64_value x ?= f64_value y).
Proof.
  intros Vx Vy Nx Ny.
  destruct x as [sx|sx| |[|] mx ex]; try discriminate;
  destruct y as [sy|sy| |[|] my ey]; try discriminate;
    unfold SFcompare, f64_value; cbv beta iota.
  - reflexivity.
  - pose proof (f64_valid_finite _ _ _ Vy) as (C & _).
    pose proof (dyadic_pos (Z.pos my) ey ltac:(lia) ltac:(unfold f64_scale; lia)).
    symmetry. f_equal. apply Z.compare_lt_iff. lia.
  - pose proof (f64_valid_finite _ _ _ Vx) as (C & _).
    pose proof (dyadic_pos (Z.pos mx) ex ltac:(lia) ltac:(unfold f64_scale; lia)).
    symmetry. f_equal. apply Z.compare_gt_iff. lia.
  - destruct (Z.compare_spec ex ey) as [E|L|G].
    + subst ey. pose proof (f64_valid_finite _ _ _ Vx) as (C & _).
      unfold dyadic.
      assert (0 < 2 ^ (ex + f64_scale)) by (apply pow2_pos; unfold f64_scale; lia).
      change (Pos.compare_cont Eq mx my) with (Z.pos mx ?= Z.pos my).
      set (X := 2 ^ (ex + f64_scale)) in *. clearbody X.
      destruct (Z.compare_spec (Z.pos mx) (Z.pos my)) as [E|L|G];
        symmetry; f_equal;
        [apply Z.compare_eq_iff | apply Z.compare_lt_iff | apply Z.compare_gt_iff]; nia.
    + symmetry. f_equal. apply Z.compare_lt_iff. now apply canonical_lt.
    + symmetry. f_equal. apply Z.compare_gt_iff. now apply canonical_lt.
Qed.

Lemma shiftl_dyadic (m e : Z) : - f64_scale <= e ->
  Z.shiftl m e = dyadic m e / 2 ^ f64_scale.
Proof.
  intros He. unfold dyadic.
  assert (0 < 2 ^ f64_scale) by (apply pow2_pos; unfold f64_scale; lia).
  destruct (Z.le_gt_cases 0 e) as [Hp|Hn].
  - rewrite Z.shiftl_mul_pow2, pow2_split by (unfold f64_scale; lia).
    rewrite Z.mul_assoc, Z.div_mul by lia. reflexivity.
  - rewrite Z.shiftl_div_pow2 by lia.
    replace (2 ^ f64_scale) with (2 ^ (- e) * 2 ^ (e + f64_scale)).
    2:{ rewrite <- pow2_split by lia. f_equal. lia. }
    assert (0 < 2 ^ (e + f64_scale)) by (apply pow2_pos; lia).
    rewrite Z.div_mul_cancel_r by lia. reflexivity.
Qed.

(** uint64(x) for a positive finite x within range. *)
Lemma uint64_of_f64_finite (cvt : float64 -> Z) (m : positive) (e : Z) :
  - f64_scale <= e ->
  dyadic (Z.pos m) e / 2 ^ f64_scale <= max_uint64 ->
  uint64_of_f64 cvt (S754_finite false m e) = dyadic (Z.pos m) e / 2 ^ f64_scale.
Proof.
  intros He Hr. unfold uint64_of_f64. rewrite shiftl_dyadic by exact He.
  destruct (Z.leb_spec (dyadic (Z.pos m) e / 2 ^ f64_scale) max_uint64); [reflexivity|lia].
Qed.

(** The product of two positive normal data. *)
Lemma f64_mul_value (my : positive) (ey : Z) (mx : positive) (ex : Z) :
  2 ^ 52 <= Z.pos my < 2 ^ 53 -> 2 ^ 52 <= Z.pos mx < 2 ^ 53 ->
  -1000 <= ey + ex <= 900 ->
  exists m e,
    f64_mul (S754_finite false my ey) (S754_finite false mx ex) = S754_finite false m e /\
    dyadic (Z.pos m) e = round_value (Z.pos my * Z.pos mx) (ey + ex) /\
    2 ^ 52 <= Z.pos m < 2 ^ 53 /\
    ey + ex + 52 <= e <= ey + ex + 54.
Proof.
  intros Hy Hx He. unfold f64_mul, SFmul. simpl xorb.
  assert (H104 : 2 ^ 104 <= Z.pos my * Z.pos mx).
  { change (2 ^ 104) with (2 ^ 52 * 2 ^ 52). nia. }
  assert (H106 : Z.pos my * Z.pos mx < 2 ^ 106).
  { change (2 ^ 106) with (2 ^ 53 * 2 ^ 53). nia. }
  assert (Hd1 : 105 <= Zdigits2 (Z.pos (my * mx))).
  { rewrite Pos2Z.inj_mul. apply (Zdigits2_ge _ 104); lia. }
  assert (Hd2 : Zdigits2 (Z.pos (my * mx)) <= 106).
  { rewrite Pos2Z.inj_mul. apply Zdigits2_le; lia. }
  destruct (round_aux_value (my * mx) (ey + ex)) as (m & e & H1 & H2 & H3 & H4);
    try (unfold f64_scale; lia).
  exists m, e. split; [exact H1|]. rewrite Pos2Z.inj_mul in H2. split; [exact H2|].
  split; [exact H3|]. lia.
Qed.

Lemma shl_align_fst (m : positive) (e e' : Z) : e' <= e ->
  Z.pos (fst (shl_align m e e')) = Z.pos m * 2 ^ (e - e').
Proof.
  intros H. unfold shl_align.
  destruct (e' - e) as [|k|k] eqn:E; simpl fst.
  - replace (e - e') with 0 by lia. lia.
  - lia.
  - rewrite iter_xO_pow2. f_equal. f_equal. lia.
Qed.


Lemma round_value_norm_mono (m1 e1 m2 e2 : Z) :
  0 < m1 -> 0 < m2 ->
  53 - f64_scale <= e1 -> 53 - f64_scale <= e2 ->
  dyadic m1 e1 <= dyadic m2 e2 ->
  round_value (m1 * 2 ^ norm_shift m1) (e1 - norm_shift m1)
    <= round_value (m2 * 2 ^ norm_shift m2) (e2 - norm_shift m2).
Proof.
  intros Hm1 Hm2 He1 He2 Hle.
  destruct (Zdigits2_bounds m1 Hm1) as (P1 & _).
  destruct (Zdigits2_bounds m2 Hm2) as (P2 & _).
  assert (S1 : 0 <= norm_shift m1 <= 53) by (unfold norm_shift; lia).
  assert (S2 : 0 <= norm_shift m2 <= 53) by (unfold norm_shift; lia).
  assert (0 < 2 ^ norm_shift m1) by (apply pow2_pos; lia).
  assert (0 < 2 ^ norm_shift m2) by (apply pow2_pos; lia).
  apply round_value_mono; try nia; try lia.
  - rewrite Zdigits2_mul_pow2 by lia. unfold norm_shift. lia.
  - rewrite Zdigits2_mul_pow2 by lia. unfold norm_shift. lia.
  - rewrite !dyadic_scale by lia. exact Hle.
Qed.

(** Exact data round to themselves. *)
Lemma round_value_exact (m e : Z) : 0 < m -> Zdigits2 m = 53 -> round_value m e = dyadic m e.
Proof.
  intros Hm Hd. unfold round_value. rewrite Hd. simpl (53 - 53).
  now rewrite rne_zero_shift, Z.add_0_r.
Qed.

Lemma round_value_exact_shifted (m e k : Z) : 0 < m -> Zdigits2 m = 53 -> 0 <= k ->
  - f64_scale <= e - k ->
  round_value (m * 2 ^ k) (e - k) = dyadic m e.
Proof.
  intros Hm Hd Hk He. unfold round_value.
  rewrite Zdigits2_mul_pow2, Hd by lia.
  replace (53 + k - 53) with k by lia.
  rewrite rne_exact by lia. f_equal. lia.
Qed.

Lemma f64_value_one : f64_value f64_one = 2 ^ f64_scale.
Proof.
  unfold f64_value, f64_one, dyadic.
  change (Z.pos 4503599627370496) with (2 ^ 52).
  rewrite <- pow2_split by (unfold f64_scale; lia). f_equal.
Qed.

(** A valid positive datum between 0.1 and 1. *)
Lemma f64_tail_shape (m : positive) (e : Z) :
  f64_valid (S754_finite false m e) = true ->
  f64_lt (S754_finite false m e) f64_tenth = false ->
  f64_le (S754_finite false m e) f64_one = true ->
  -56 <= e <= -52 /\ 2 ^ 52 <= Z.pos m < 2 ^ 53 /\ Z.pos m <= 2 ^ (- e).
Proof.
  intros V Ht H1.
  pose proof (f64_valid_finite _ _ _ V) as (C & _).
  assert (He : -56 <= e <= -52).
  { unfold f64_lt, f64_le, SFltb, SFleb, SFcompare, f64_tenth, f64_one in Ht, H1.
    destruct (Z.compare_spec e (-56)); destruct (Z.compare_spec e (-52));
      try discriminate; lia. }
  destruct (Zdigits2_bounds (Z.pos m) ltac:(lia)) as (_ & B).
  assert (Hd : Zdigits2 (Z.pos m) = 53) by lia. rewrite Hd in B.
  split; [exact He|]. split; [exact B|].
  (* from the value order *)
  assert (Hv : f64_value (S754_finite false m e) <= f64_value f64_one).
  { assert (Hc := f64_compare_value (S754_finite false m e) f64_one V eq_refl eq_refl eq_refl).
    unfold f64_le, SFleb in H1. rewrite Hc in H1.
    destruct (Z.compare_spec (f64_value (S754_finite false m e)) (f64_value f64_one));
      try discriminate; lia. }
  rewrite f64_value_one in Hv. unfold f64_value, dyadic in Hv.
  replace f64_scale with (- e + (e + f64_scale)) in Hv at 2 by lia.
  rewrite (pow2_split (- e)) in Hv by (unfold f64_scale; lia).
  assert (0 < 2 ^ (e + f64_scale)) by (apply pow2_pos; unfold f64_scale; lia).
  nia.
Qed.

(** [1 - L], before rounding. *)
Lemma f64_sub_one_exact (m : positive) (e : Z) :
  -56 <= e <= -52 ->
  f64_sub f64_one (S754_finite false m e) =
    binary_normalize f64_prec f64_emax (2 ^ (- e) - Z.pos m) e false.
Proof.
  intros He. unfold f64_sub, SFsub, f64_one, cond_Zopp.
  replace (Z.min (-52) e) with e by lia.
  rewrite (shl_align_fst _ (-52) e) by lia.
  rewrite (shl_align_fst m e e) by lia.
  replace (e - e) with 0 by lia. rewrite Z.mul_1_r.
  change (Z.pos 4503599627370496) with (2 ^ 52).
  rewrite <- pow2_split by lia. replace (52 + (-52 - e)) with (- e) by lia.
  reflexivity.
Qed.

Lemma normal_in_value_nonneg (lo hi : Z) (x : float64) :
  - f64_scale <= lo -> normal_in lo hi x -> 0 <= f64_value x.
Proof.
  intros Hlo. destruct x as [s|s| |[|] m e]; simpl; try lia; try tauto.
  intros (_ & He). pose proof (dyadic_pos (Z.pos m) e ltac:(lia) ltac:(lia)). lia.
Qed.

Lemma normal_in_weaken (lo hi lo' hi' : Z) (x : float64) :
  lo' <= lo -> hi <= hi' -> normal_in lo hi x -> normal_in lo' hi' x.
Proof.
  intros H1 H2. destruct x as [s|s| |[|] m e]; simpl; try tauto. lia.
Qed.

(** float64(R) *)
Lemma f64_of_uint64_shape (R : Z) : 0 <= R < 2 ^ 64 ->
  normal_in (-52) 12 (f64_of_uint64 R) /\
  f64_value (f64_of_uint64 R) <= dyadic (2 * R) 0.
Proof.
  intros HR. destruct (Z.eq_dec R 0) as [->|Hne].
  - simpl. split; [exact I|]. unfold dyadic. simpl. lia.
  - destruct (f64_of_uint64_pos R ltac:(lia)) as (m & e & -> & Hm & He & Hv).
    simpl. auto.
Qed.

(** 1 - L for a valid L between 0.1 and 1 *)
Lemma f64_sub_one_shape (m : positive) (e : Z) :
  f64_valid (S754_finite false m e) = true ->
  f64_lt (S754_finite false m e) f64_tenth = false ->
  f64_le (S754_finite false m e) f64_one = true ->
  let x := f64_sub f64_one (S754_finite false m e) in
  let N := 2 ^ (- e) - Z.pos m in
  normal_in (-108) (-52) x /\
  dyadic N e = 2 ^ f64_scale - f64_value (S754_finite false m e) /\
  0 <= N /\ -56 <= e <= -52 /\
  f64_value x =
    if N =? 0 then 0 else round_value (N * 2 ^ norm_shift N) (e - norm_shift N).
Proof.
  intros V Ht H1 x N.
  destruct (f64_tail_shape m e V Ht H1) as (He & Hm & HN).
  assert (HN0 : 0 <= N) by (unfold N; lia).
  assert (Hdy : dyadic N e = 2 ^ f64_scale - f64_value (S754_finite false m e)).
  { unfold N, f64_value, dyadic. rewrite Z.mul_sub_distr_r.
    rewrite <- pow2_split by (unfold f64_scale; lia).
    f_equal. f_equal. lia. }
  unfold x. rewrite (f64_sub_one_exact m e He). fold N.
  destruct N as [|p|p] eqn:EN; try lia.
  - simpl. auto 10.
  - assert (0 < 2 ^ (- e)) by (apply pow2_pos; lia).
    assert (Hd1 : 1 <= Zdigits2 (Z.pos p)) by (apply (Zdigits2_ge _ 0); lia).
    assert (Hd2 : Zdigits2 (Z.pos p) <= - e) by (apply Zdigits2_le; lia).
    unfold binary_normalize.
    destruct (binary_round_value p e) as (mx & ex & E1 & E2 & E3 & E4);
      try (unfold f64_scale; lia).
    rewrite E1. simpl normal_in. simpl f64_value.
    split; [split; [exact E3|lia]|].
    split; [exact Hdy|]. split; [lia|]. split; [exact He|].
    rewrite E2. reflexivity.
Qed.

(** The value of [1 - L] does not grow with [L]. *)
Lemma f64_sub_one_mono (m1 : positive) (e1 : Z) (m2 : positive) (e2 : Z) :
  let L1 := S754_finite false m1 e1 in
  let L2 := S754_finite false m2 e2 in
  f64_valid L1 = true -> f64_valid L2 = true ->
  f64_lt L1 f64_tenth = false -> f64_lt L2 f64_tenth = false ->
  f64_le L1 f64_one = true -> f64_le L2 f64_one = true ->
  f64_value L1 <= f64_value L2 ->
  f64_value (f64_sub f64_one L2) <= f64_value (f64_sub f64_one L1).
Proof.
  intros L1 L2 V1 V2 T1 T2 O1 O2 Hle.
  destruct (f64_sub_one_shape m1 e1 V1 T1 O1) as (S1 & D1 & N1 & E1 & X1).
  destruct (f64_sub_one_shape m2 e2 V2 T2 O2) as (S2 & D2 & N2 & E2 & X2).
  fold L1 in D1, X1. fold L2 in D2, X2.
  rewrite X1, X2.
  set (Na := 2 ^ (- e1) - Z.pos m1) in *. set (Nb := 2 ^ (- e2) - Z.pos m2) in *.
  assert (Hd : dyadic Nb e2 <= dyadic Na e1) by lia.
  destruct (Z.eqb_spec Nb 0) as [Eb|Nb0].
  - destruct (Z.eqb_spec Na 0) as [Ea|Na0]; [lia|].
    fold (f64_value (f64_sub f64_one L1)) in X1.
    rewrite <- X1. apply (normal_in_value_nonneg (-108) (-52)); [unfold f64_scale; lia|exact S1].
  - assert (0 < dyadic Nb e2) by (apply dyadic_pos; unfold f64_scale; lia).
    destruct (Z.eqb_spec Na 0) as [Ea|Na0].
    + rewrite Ea in Hd. unfold dyadic in Hd at 2. rewrite Z.mul_0_l in Hd. lia.
    + apply round_value_norm_mono; try lia; unfold f64_scale; lia.
Qed.

Lemma f64_sub_one_le_one (m : positive) (e : Z) :
  let L := S754_finite false m e in
  f64_valid L = true -> f64_lt L f64_tenth = false -> f64_le L f64_one = true ->
  f64_value (f64_sub f64_one L) <= 2 ^ f64_scale.
Proof.
  intros L V T O.
  destruct (f64_sub_one_shape m e V T O) as (S1 & D1 & N1 & E1 & X1).
  fold L in D1, X1. rewrite X1.
  set (N := 2 ^ (- e) - Z.pos m) in *.
  assert (0 < 2 ^ f64_scale) by (apply pow2_pos; unfold f64_scale; lia).
  destruct (Z.eqb_spec N 0) as [E0|NE]; [lia|].
  (* below the rounding of 1 = 2^52 * 2^-52 *)
  assert (Hone : round_value (2 ^ 52 * 2 ^ norm_shift (2 ^ 52)) (-52 - norm_shift (2 ^ 52))
                 = 2 ^ f64_scale).
  { change (norm_shift (2 ^ 52)) with 0. rewrite Z.mul_1_r, Z.sub_0_r.
    rewrite round_value_exact by (try reflexivity; lia).
    change (2 ^ 52) with (Z.pos 4503599627370496). exact f64_value_one. }
  rewrite <- Hone.
  apply round_value_norm_mono; try lia; try (unfold f64_scale; lia).
  change (dyadic (2 ^ 52) (-52)) with (f64_value f64_one). rewrite f64_value_one.
  assert (0 <= f64_value L).
  { unfold L, f64_value. pose proof (dyadic_pos (Z.pos m) e ltac:(lia) ltac:(unfold f64_scale; lia)). lia. }
  lia.
Qed.

Lemma dyadic_mul_mono (my ey mx1 ex1 mx2 ex2 : Z) :
  0 < my ->
  - f64_scale <= ex1 -> - f64_scale <= ex2 ->
  - f64_scale <= ey + ex1 -> - f64_scale <= ey + ex2 ->
  dyadic mx1 ex1 <= dyadic mx2 ex2 ->
  dyadic (my * mx1) (ey + ex1) <= dyadic (my * mx2) (ey + ex2).
Proof.
  intros Hy H1 H2 H3 H4 Hle. unfold dyadic in *.
  set (a1 := ex1 + f64_scale) in *. set (a2 := ex2 + f64_scale) in *.
  replace (ey + ex1 + f64_scale) with (a1 + ey) by (unfold a1; lia).
  replace (ey + ex2 + f64_scale) with (a2 + ey) by (unfold a2; lia).
  assert (Ha1 : 0 <= a1) by (unfold a1; lia).
  assert (Ha2 : 0 <= a2) by (unfold a2; lia).
  assert (Hb1 : 0 <= a1 + ey) by (unfold a1; lia).
  assert (Hb2 : 0 <= a2 + ey) by (unfold a2; lia).
  assert (Hcore : mx1 * 2 ^ (a1 + ey) <= mx2 * 2 ^ (a2 + ey)).
  { destruct (Z.le_gt_cases 0 ey) as [Hp|Hn].
    - rewrite !pow2_split by lia.
      assert (0 < 2 ^ ey) by now apply pow2_pos.
      rewrite !Z.mul_assoc. apply Z.mul_le_mono_nonneg_r; lia.
    - assert (0 < 2 ^ (- ey)) by (apply pow2_pos; lia).
      apply (Z.mul_le_mono_pos_r _ _ (2 ^ (- ey))); [lia|].
      rewrite <- !Z.mul_assoc, <- !pow2_split by lia.
      replace (a1 + ey + - ey) with a1 by lia.
      replace (a2 + ey + - ey) with a2 by lia. exact Hle. }
  rewrite <- !Z.mul_assoc. apply Z.mul_le_mono_nonneg_l; lia.
Qed.

Lemma f64_mul_shape (y x : float64) :
  normal_in (-52) 12 y -> normal_in (-108) (-52) x ->
  normal_in (-108) 100 (f64_mul y x) /\
  f64_value (f64_mul y x) =
    match y, x with
    | S754_finite false my ey, S754_finite false mx ex =>
        round_value (Z.pos my * Z.pos mx) (ey + ex)
    | _, _ => 0
    end.
Proof.
  intros Ny Nx.
  destruct y as [sy|sy| |[|] my ey]; simpl in Ny; try tauto;
  destruct x as [sx|sx| |[|] mx ex]; simpl in Nx; try tauto;
    try (split; [exact I|reflexivity]).
  destruct Ny as (Hmy & Hey). destruct Nx as (Hmx & Hex).
  destruct (f64_mul_value my ey mx ex Hmy Hmx ltac:(lia)) as (m & e & E1 & E2 & E3 & E4).
  rewrite E1. split; [split; [exact E3|lia]|exact E2].
Qed.

Lemma normal_digits (m : positive) : 2 ^ 52 <= Z.pos m < 2 ^ 53 -> Zdigits2 (Z.pos m) = 53.
Proof. intros H. apply Zdigits2_unique; simpl; lia. Qed.

Lemma product_digits (my mx : positive) :
  2 ^ 52 <= Z.pos my < 2 ^ 53 -> 2 ^ 52 <= Z.pos mx < 2 ^ 53 ->
  53 <= Zdigits2 (Z.pos my * Z.pos mx).
Proof.
  intros Hy Hx.
  assert (2 ^ 104 <= Z.pos my * Z.pos mx).
  { change (2 ^ 104) with (2 ^ 52 * 2 ^ 52). nia. }
  pose proof (Zdigits2_ge (Z.pos my * Z.pos mx) 104 ltac:(lia) ltac:(lia) H). lia.
Qed.

(** The product does not grow when the right factor shrinks. *)
Lemma f64_mul_mono (y x1 x2 : float64) :
  normal_in (-52) 12 y -> normal_in (-108) (-52) x1 -> normal_in (-108) (-52) x2 ->
  f64_value x2 <= f64_value x1 ->
  f64_value (f64_mul y x2) <= f64_value (f64_mul y x1).
Proof.
  intros Ny N1 N2 Hle.
  destruct (f64_mul_shape y x1 Ny N1) as (S1 & V1).
  destruct (f64_mul_shape y x2 Ny N2) as (S2 & V2).
  assert (P1 : 0 <= f64_value (f64_mul y x1))
    by (apply (normal_in_value_nonneg (-108) 100); [unfold f64_scale; lia|exact S1]).
  rewrite V2. rewrite V1 in *.
  destruct y as [sy|sy| |[|] my ey]; try lia.
  destruct x2 as [s2|s2| |[|] m2 e2]; try lia.
  simpl in Ny, N2. destruct Ny as (Hmy & Hey). destruct N2 as (Hm2 & He2).
  assert (0 < f64_value (S754_finite false m2 e2))
    by (apply dyadic_pos; unfold f64_scale; lia).
  destruct x1 as [s1|s1| |[|] m1 e1]; simpl in N1; try tauto;
    try (simpl f64_value in Hle at 2; lia).
  destruct N1 as (Hm1 & He1).
  apply round_value_mono; try lia; try (unfold f64_scale; lia).
  - now apply product_digits.
  - now apply product_digits.
  - apply dyadic_mul_mono; try lia; try (unfold f64_scale; lia). exact Hle.
Qed.

(** Multiplying by a factor of at most one does not grow. *)
Lemma f64_mul_le_left (y x : float64) :
  normal_in (-52) 12 y -> normal_in (-108) (-52) x ->
  f64_value x <= 2 ^ f64_scale ->
  f64_value (f64_mul y x) <= f64_value y.
Proof.
  intros Ny Nx Hle.
  destruct (f64_mul_shape y x Ny Nx) as (_ & V). rewrite V.
  pose proof (normal_in_value_nonneg (-52) 12 y ltac:(unfold f64_scale; lia) Ny) as Py.
  destruct y as [sy|sy| |[|] my ey]; try lia.
  destruct x as [sx|sx| |[|] mx ex]; try lia.
  simpl in Ny, Nx. destruct Ny as (Hmy & Hey). destruct Nx as (Hmx & Hex).
  simpl f64_value in *.
  rewrite <- (round_value_exact_shifted (Z.pos my) ey 52)
    by (try apply normal_digits; try lia; unfold f64_scale; lia).
  apply round_value_mono; try lia; try (unfold f64_scale; lia).
  - now apply product_digits.
  - rewrite Zdigits2_mul_pow2, normal_digits by lia. lia.
  - replace (ey - 52) with (ey + (-52)) by lia.
    apply dyadic_mul_mono; try lia; try (unfold f64_scale; lia).
    change (dyadic (2 ^ 52) (-52)) with (f64_value f64_one).
    rewrite f64_value_one. exact Hle.
Qed.

(** uint64(x) is the integer part of the value. *)
Lemma uint64_of_f64_value (cvt : float64 -> Z) (lo hi : Z) (x : float64) :
  - f64_scale <= lo -> normal_in lo hi x ->
  f64_value x / 2 ^ f64_scale <= max_uint64 ->
  uint64_of_f64 cvt x = f64_value x / 2 ^ f64_scale.
Proof.
  intros Hlo Nx Hr.
  destruct x as [s|s| |[|] m e]; simpl in Nx; try contradiction.
  - simpl. symmetry. apply Z.div_0_l.
    assert (0 < 2 ^ f64_scale) by (apply pow2_pos; unfold f64_scale; lia). lia.
  - apply uint64_of_f64_finite; [lia|exact Hr].
Qed.

Section Compare.

Variables x y : float64.
Hypothesis Vx : f64_valid x = true.
Hypothesis Vy : f64_valid y = true.
Hypothesis Nx : f64_nonneg x = true.
Hypothesis Ny : f64_nonneg y = true.

Lemma f64_lt_value : f64_lt x y = (f64_value x <? f64_value y).
Proof.
  unfold f64_lt, SFltb. rewrite (f64_compare_value x y Vx Vy Nx Ny).
  unfold Z.ltb. now destruct (f64_value x ?= f64_value y).
Qed.

Lemma f64_le_value : f64_le x y = (f64_value x <=? f64_value y).
Proof.
  unfold f64_le, SFleb. rewrite (f64_compare_value x y Vx Vy Nx Ny).
  unfold Z.leb. now destruct (f64_value x ?= f64_value y).
Qed.

Lemma f64_eq_value : f64_eq x y = (f64_value x =? f64_value y).
Proof.
  unfold f64_eq, SFeqb. rewrite (f64_compare_value x y Vx Vy Nx Ny).
  destruct (Z.compare_spec (f64_value x) (f64_value y)) as [E|L|G];
    symmetry; [apply Z.eqb_eq | apply Z.eqb_neq | apply Z.eqb_neq]; lia.
Qed.

End Compare.

(** Loss rates in [0, 1] are zero or positive finite data. *)
Lemma loss_rates_nonneg (L1 L2 : float64) :
  f64_le f64_zero L1 = true -> f64_le L1 L2 = true -> f64_le L2 f64_one = true ->
  f64_nonneg L1 = true /\ f64_nonneg L2 = true.
Proof.
  destruct L1 as [s1|[|]| |[|] m1 e1]; destruct L2 as [s2|[|]| |[|] m2 e2];
    cbv beta iota delta [f64_le SFleb SFcompare f64_zero f64_one f64_nonneg];
    intros H0 H12 H21; try discriminate; auto.
Qed.

Lemma remb_clamp_mono (a b : Z) : a <= b -> remb_clamp a <= remb_clamp b.
Proof. intros H. rewrite !remb_clamp_spec. lia. Qed.

Lemma f64_value_tenth_pos : 0 < f64_value f64_tenth.
Proof. apply dyadic_pos; unfold f64_scale; lia. Qed.

Section Tail.

Variable cvt_undef : float64 -> Z.
Variable R : Z.
Hypothesis HR : observed_rate R.

(** The third branch of the proposal. *)
Let tail (L : float64) : Z :=
  uint64_of_f64 cvt_undef (f64_mul (f64_of_uint64 R) (f64_sub f64_one L)).

Let prod (L : float64) : Z :=
  f64_value (f64_mul (f64_of_uint64 R) (f64_sub f64_one L)).

Lemma observed_rate_range : 0 <= R /\ 2 * R <= max_uint64 /\ R < 2 ^ 64.
Proof.
  unfold observed_rate, max_uint64 in *.
  assert (Hq : (2 ^ 64 - 1) / 3 = 6148914691236517205) by reflexivity.
  rewrite Hq in HR. lia.
Qed.

Lemma remb_tail_value (m : positive) (e : Z) :
  let L := S754_finite false m e in
  f64_valid L = true -> f64_lt L f64_tenth = false -> f64_le L f64_one = true ->
  tail L = prod L / 2 ^ f64_scale /\ 0 <= tail L <= 2 * R.
Proof.
  intros L V T O. unfold tail, prod.
  destruct observed_rate_range as (R0 & R2 & R64).
  destruct (f64_of_uint64_shape R ltac:(lia)) as (Ny & Vy).
  destruct (f64_sub_one_shape m e V T O) as (Nx & _). fold L in Nx.
  pose proof (f64_sub_one_le_one m e V T O) as Hx1. fold L in Hx1.
  destruct (f64_mul_shape _ _ Ny Nx) as (Np & _).
  pose proof (f64_mul_le_left _ _ Ny Nx Hx1) as Hp.
  pose proof (normal_in_value_nonneg (-108) 100 _ ltac:(unfold f64_scale; lia) Np) as Hp0.
  set (p := f64_mul (f64_of_uint64 R) (f64_sub f64_one L)) in *.
  assert (HK : 0 < 2 ^ f64_scale) by (apply pow2_pos; unfold f64_scale; lia).
  assert (Hq : f64_value p / 2 ^ f64_scale <= 2 * R).
  { apply Z.div_le_upper_bound; [lia|].
    apply Z.le_trans with (dyadic (2 * R) 0); [lia|].
    unfold dyadic. rewrite Z.add_0_l. lia. }
  assert (Hq0 : 0 <= f64_value p / 2 ^ f64_scale) by (apply Z.div_pos; lia).
  rewrite (uint64_of_f64_value cvt_undef (-108) 100 p) by (try (unfold f64_scale; lia); auto; lia).
  split; [reflexivity|lia].
Qed.

Lemma remb_tail_mono (m1 : positive) (e1 : Z) (m2 : positive) (e2 : Z) :
  let L1 := S754_finite false m1 e1 in
  let L2 := S754_finite false m2 e2 in
  f64_valid L1 = true -> f64_valid L2 = true ->
  f64_lt L1 f64_tenth = false -> f64_lt L2 f64_tenth = false ->
  f64_le L1 f64_one = true -> f64_le L2 f64_one = true ->
  f64_value L1 <= f64_value L2 ->
  tail L2 <= tail L1.
Proof.
  intros L1 L2 V1 V2 T1 T2 O1 O2 Hle.
  destruct (remb_tail_value m1 e1 V1 T1 O1) as (E1 & _).
  destruct (remb_tail_value m2 e2 V2 T2 O2) as (E2 & _).
  fold L1 in E1. fold L2 in E2. rewrite E1, E2.
  assert (HK : 0 < 2 ^ f64_scale) by (apply pow2_pos; unfold f64_scale; lia).
  apply Z.div_le_mono; [lia|].
  destruct observed_rate_range as (R0 & R2 & R64).
  destruct (f64_of_uint64_shape R ltac:(lia)) as (Ny & _).
  destruct (f64_sub_one_shape m1 e1 V1 T1 O1) as (Nx1 & _).
  destruct (f64_sub_one_shape m2 e2 V2 T2 O2) as (Nx2 & _).
  unfold prod. apply f64_mul_mono; auto.
  now apply f64_sub_one_mono.
Qed.

End Tail.

(* ===================================================================== *)
(** * float64: the value of the third branch *)
(* ===================================================================== *)

Lemma round53_zero : round53 0 = 0.
Proof. reflexivity. Qed.

(** Rounding a mantissa of at least 53 bits is rounding its value. *)
Lemma round_value_round53 (m e : Z) :
  0 < m -> 53 <= Zdigits2 m -> 0 <= e + f64_scale ->
  round_value m e = round53 (dyadic m e).
Proof.
  intros Hm Hd He. unfold round_value, round53, dyadic.
  rewrite Zdigits2_mul_pow2 by lia.
  set (n := Zdigits2 m - 53). set (k := e + f64_scale) in *.
  replace (Zdigits2 m + k - 53) with (n + k) by (unfold n; lia).
  assert (Hn : 0 <= n) by (unfold n; lia).
  destruct (Z.leb_spec (n + k) 0) as [Hz|Hz].
  - assert (n = 0) by lia. assert (k = 0) by lia.
    replace (e + n + f64_scale) with k by (unfold k; lia).
    replace n with 0 by lia. now rewrite rne_zero_shift.
  - rewrite rne_scale by lia.
    replace (e + n + f64_scale) with (n + k) by (unfold k; lia). reflexivity.
Qed.

Lemma f64_of_uint64_value (R : Z) : 0 <= R < 2 ^ 64 ->
  f64_value (f64_of_uint64 R) = round53 (R * 2 ^ f64_scale).
Proof.
  intros HR. destruct (Z.eq_dec R 0) as [->|Hne]; [reflexivity|].
  unfold f64_of_uint64, binary_normalize.
  destruct R as [|p|p]; try lia.
  assert (Hd1 : 1 <= Zdigits2 (Z.pos p)) by (apply (Zdigits2_ge _ 0); lia).
  assert (Hd2 : Zdigits2 (Z.pos p) <= 64) by (apply Zdigits2_le; lia).
  destruct (binary_round_value p 0) as (m & e & H1 & H2 & H3 & H4);
    try (unfold f64_scale; lia).
  rewrite H1. simpl f64_value. rewrite H2.
  set (s := Z.max 0 (53 - Zdigits2 (Z.pos p))).
  assert (Hs : 0 <= s <= 53) by (unfold s; lia).
  rewrite round_value_round53.
  - rewrite dyadic_scale by (unfold f64_scale; lia).
    unfold dyadic. now rewrite Z.add_0_l.
  - assert (0 < 2 ^ s) by (apply pow2_pos; lia). nia.
  - rewrite Zdigits2_mul_pow2 by lia. unfold s. lia.
  - unfold f64_scale. lia.
Qed.

Lemma f64_sub_one_value (m : positive) (e : Z) :
  let L := S754_finite false m e in
  f64_valid L = true -> f64_lt L f64_tenth = false -> f64_le L f64_one = true ->
  f64_value (f64_sub f64_one L) = round53 (2 ^ f64_scale - f64_value L).
Proof.
  intros L V T O.
  destruct (f64_sub_one_shape m e V T O) as (_ & D & N0 & He & X).
  fold L in D, X. rewrite X, <- D.
  set (N := 2 ^ (- e) - Z.pos m) in *.
  destruct (Z.eqb_spec N 0) as [E0|NE].
  - rewrite E0. unfold dyadic. now rewrite Z.mul_0_l.
  - assert (Hns : 0 <= norm_shift N <= 53).
    { unfold norm_shift. pose proof (Zdigits2_bounds N ltac:(lia)). lia. }
    rewrite round_value_round53.
    + now rewrite dyadic_scale by (unfold f64_scale; lia).
    + assert (0 < 2 ^ norm_shift N) by (apply pow2_pos; lia). nia.
    + rewrite Zdigits2_mul_pow2 by lia. unfold norm_shift. lia.
    + unfold f64_scale. lia.
Qed.

Lemma f64_mul_value53 (y x : float64) :
  normal_in (-52) 12 y -> normal_in (-108) (-52) x ->
  f64_value (f64_mul y x) = round53 (f64_value y * f64_value x / 2 ^ f64_scale).
Proof.
  intros Ny Nx. destruct (f64_mul_shape y x Ny Nx) as (_ & V). rewrite V.
  assert (HK : 0 < 2 ^ f64_scale) by (apply pow2_pos; unfold f64_scale; lia).
  destruct y as [sy|sy| |[|] my ey]; simpl in Ny; try tauto;
  destruct x as [sx|sx| |[|] mx ex]; simpl in Nx; try tauto;
    simpl f64_value;
    try (rewrite ?Z.mul_0_l, ?Z.mul_0_r, Z.div_0_l by lia; reflexivity).
  destruct Ny as (Hmy & Hey). destruct Nx as (Hmx & Hex).
  rewrite round_value_round53.
  - f_equal. unfold dyadic.
    replace (Z.pos my * 2 ^ (ey + f64_scale) * (Z.pos mx * 2 ^ (ex + f64_scale)))
      with (Z.pos my * Z.pos mx * 2 ^ (ey + ex + f64_scale) * 2 ^ f64_scale).
    + now rewrite Z.div_mul by lia.
    + rewrite <- !Z.mul_assoc. f_equal.
      rewrite (Z.mul_comm (2 ^ (ey + f64_scale))), <- !Z.mul_assoc. f_equal.
      rewrite <- !pow2_split by (unfold f64_scale; lia). f_equal. lia.
  - lia.
  - now apply product_digits.
  - unfold f64_scale. lia.
Qed.

(** The third branch of the proposal, by values: [float64(R)] times
    [1 - L], each of the three operations rounded to the nearest
    [float64], and the fraction of the product dropped. *)
Lemma remb_tail_exact (cvt_undef : float64 -> Z) (R : Z) (m : positive) (e : Z) :
  let L := S754_finite false m e in
  let S := 2 ^ f64_scale in
  observed_rate R ->
  f64_valid L = true -> f64_lt L f64_tenth = false -> f64_le L f64_one = true ->
  uint64_of_f64 cvt_undef (f64_mul (f64_of_uint64 R) (f64_sub f64_one L)) =
    round53 (round53 (R * S) * round53 (S - f64_value L) / S) / S.
Proof.
  intros L S HR V T O. subst L S.
  destruct (remb_tail_value cvt_undef R HR m e V T O) as (E & _).
  destruct (observed_rate_range R HR) as (R0 & R2 & R64).
  destruct (f64_of_uint64_shape R ltac:(lia)) as (Ny & _).
  destruct (f64_sub_one_shape m e V T O) as (Nx & _).
  pose proof (f64_sub_one_value m e V T O) as Hs. cbv zeta in Hs.
  rewrite E, (f64_mul_value53 _ _ Ny Nx).
  rewrite (f64_of_uint64_value R) by lia.
  now rewrite Hs.
Qed.

(* ===================================================================== *)
(** * Properties: the bandwidth estimate as a function of the loss rate *)
(* ===================================================================== *)

(** The clamped bandwidth does not grow with the loss rate. *)
Lemma remb_bw_mono (cvt_undef : float64 -> Z) (R : Z) (L1 L2 : float64) :
  observed_rate R ->
  f64_valid L1 = true -> f64_valid L2 = true ->
  f64_le f64_zero L1 = true -> f64_le L1 L2 = true -> f64_le L2 f64_one = true ->
  remb_bw cvt_undef R L2 <= remb_bw cvt_undef R L1.
Proof.
  intros HR V1 V2 H0 H12 H21.
  destruct (loss_rates_nonneg L1 L2 H0 H12 H21) as (N1 & N2).
  pose proof (observed_rate_no_wrap R HR) as Hwrap.
  destruct (observed_rate_range R HR) as (R0 & R2 & R64).
  (* every comparison is a comparison of values *)
  assert (Vz : f64_valid f64_zero = true) by reflexivity.
  assert (Vt : f64_valid f64_tenth = true) by reflexivity.
  assert (Vo : f64_valid f64_one = true) by reflexivity.
  rewrite (f64_le_value f64_zero L1 Vz V1 eq_refl N1) in H0.
  rewrite (f64_le_value L1 L2 V1 V2 N1 N2) in H12.
  pose proof H21 as H21v. rewrite (f64_le_value L2 f64_one V2 Vo N2 eq_refl) in H21v.
  apply Z.leb_le in H0, H12, H21v. change (f64_value f64_zero) with 0 in H0.
  pose proof f64_value_tenth_pos as Ht.
  assert (H1o : f64_le L1 f64_one = true).
  { rewrite (f64_le_value L1 f64_one V1 Vo N1 eq_refl). apply Z.leb_le. lia. }
  unfold remb_bw, remb_proposal.
  change (f64_ge L1 f64_zero) with (f64_le f64_zero L1).
  change (f64_ge L2 f64_zero) with (f64_le f64_zero L2).
  rewrite (f64_le_value f64_zero L1 Vz V1 eq_refl N1).
  rewrite (f64_le_value f64_zero L2 Vz V2 eq_refl N2).
  rewrite (f64_eq_value L1 f64_zero V1 Vz N1 eq_refl).
  rewrite (f64_eq_value L2 f64_zero V2 Vz N2 eq_refl).
  change (f64_value f64_zero) with 0.
  replace (0 <=? f64_value L1) with true by (symmetry; apply Z.leb_le; lia).
  replace (0 <=? f64_value L2) with true by (symmetry; apply Z.leb_le; lia).
  simpl (true && _). rewrite Hwrap.
  pose proof (remb_clamp_bounds rembHighBW) as BH.
  assert (EH : remb_clamp rembHighBW = rembHighBW) by reflexivity.
  destruct (f64_lt L2 f64_tenth) eqn:T2.
  - (* L2 < 0.1, so L1 < 0.1 *)
    assert (T1 : f64_lt L1 f64_tenth = true).
    { rewrite (f64_lt_value L2 f64_tenth V2 Vt N2 eq_refl) in T2.
      rewrite (f64_lt_value L1 f64_tenth V1 Vt N1 eq_refl).
      apply Z.ltb_lt in T2. apply Z.ltb_lt. lia. }
    rewrite T1.
    destruct (Z.eqb_spec (f64_value L2) 0) as [E2|NE2];
      destruct (Z.eqb_spec (f64_value L1) 0) as [E1|NE1];
      destruct (Z.eqb_spec R 0) as [ER|NER]; simpl; try lia;
      try (rewrite EH; apply remb_clamp_bounds).
  - (* L2 >= 0.1: the product *)
    assert (F2 : exists m2 e2, L2 = S754_finite false m2 e2).
    { destruct L2 as [s|s| |[|] m e]; try discriminate; eauto. }
    destruct F2 as (m2 & e2 & ->).
    destruct (remb_tail_value cvt_undef R HR m2 e2 V2 T2 H21) as (_ & B2).
    assert (NZ2 : (f64_value (S754_finite false m2 e2) =? 0) = false).
    { apply Z.eqb_neq.
      rewrite (f64_lt_value _ f64_tenth V2 Vt N2 eq_refl) in T2.
      apply Z.ltb_ge in T2. lia. }
    rewrite NZ2. simpl (false && _).
    destruct (f64_lt L1 f64_tenth) eqn:T1.
    + destruct ((f64_value L1 =? 0) && (R =? 0)).
      * rewrite EH. apply remb_clamp_bounds.
      * apply remb_clamp_mono. lia.
    + assert (F1 : exists m1 e1, L1 = S754_finite false m1 e1).
      { destruct L1 as [s|s| |[|] m e]; try discriminate; eauto. }
      destruct F1 as (m1 & e1 & ->).
      assert (NZ1 : (f64_value (S754_finite false m1 e1) =? 0) = false).
      { apply Z.eqb_neq.
        rewrite (f64_lt_value _ f64_tenth V1 Vt N1 eq_refl) in T1.
        apply Z.ltb_ge in T1. lia. }
      rewrite NZ1. simpl (false && _).
      apply remb_clamp_mono.
      apply (remb_tail_mono cvt_undef R HR m1 e1 m2 e2); auto.
Qed.

(** X1.  For an observed byte rate, the estimate [sendREMB] reports does
    not grow when the loss rate grows: for valid [float64] loss rates
    [0 <= L1 <= L2 <= 1], the clamped bandwidth at [L2] is at most the one
    at [L1].  The rounding of [1 - L] and of the product, and the
    truncation to [uint64], are part of the statement. *)
Theorem remb_bw_monotone (cvt_undef : float64 -> Z) (R : Z) (L1 L2 : float64) :
  observed_rate R ->
  f64_valid L1 = true -> f64_valid L2 = true ->
  f64_le f64_zero L1 = true -> f64_le L1 L2 = true -> f64_le L2 f64_one = true ->
  remb_bw cvt_undef R L2 <= remb_bw cvt_undef R L1.
Proof. apply remb_bw_mono. Qed.

Lemma remb_bw_monotone_witness :
  remb_bw (fun _ => 0) 50000 f64_half = 30000 /\
  remb_bw (fun _ => 0) 50000 f64_0_05 = 100000 /\
  remb_bw (fun _ => 0) 50000 f64_half <= remb_bw (fun _ => 0) 50000 f64_0_05.
Proof.
  split; [reflexivity|]. split; [reflexivity|].
  apply (remb_bw_monotone (fun _ => 0) 50000 f64_0_05 f64_half);
    try reflexivity.
  split; apply Z.leb_le; vm_compute; reflexivity.
Defined.

Lemma loss_rate_nonneg (L : float64) :
  f64_le f64_zero L = true -> f64_le L f64_one = true -> f64_nonneg L = true.
Proof.
  destruct L as [s|[|]| |[|] m e];
    cbv beta iota delta [f64_le SFleb SFcompare f64_zero f64_one f64_nonneg];
    intros H0 H1; try discriminate; auto.
Qed.

(** X2.  For an observed byte rate and a valid loss rate in [0, 1] the
    estimate does not depend on the platform: the conversion to [uint64]
    in the third branch is never applied outside its defined range, and
    the proposal never exceeds the larger of the high bound and twice the
    observed rate. *)
Theorem remb_bw_platform_independent (cvt1 cvt2 : float64 -> Z) (R : Z) (L : float64) :
  observed_rate R -> f64_valid L = true ->
  f64_le f64_zero L = true -> f64_le L f64_one = true ->
  remb_bw cvt1 R L = remb_bw cvt2 R L /\
  0 <= remb_proposal cvt1 R L <= Z.max rembHighBW (2 * R).
Proof.
  intros HR V H0 H1.
  pose proof (loss_rate_nonneg L H0 H1) as N.
  pose proof (observed_rate_no_wrap R HR) as Hwrap.
  destruct (observed_rate_range R HR) as (R0 & R2 & R64).
  unfold remb_bw, remb_proposal. rewrite Hwrap.
  destruct (f64_eq L f64_zero && (R =? 0)).
  { split; [reflexivity|]. unfold rembHighBW. lia. }
  destruct (f64_ge L f64_zero && f64_lt L f64_tenth) eqn:Hb.
  { split; [reflexivity|]. lia. }
  assert (T : f64_lt L f64_tenth = false).
  { apply andb_false_iff in Hb. destruct Hb as [Hb|Hb]; [|exact Hb].
    unfold f64_ge in Hb. unfold f64_le in H0. congruence. }
  assert (F : exists m e, L = S754_finite false m e).
  { destruct L as [s|s| |[|] m e]; try discriminate; eauto. }
  destruct F as (m & e & ->).
  destruct (remb_tail_value cvt1 R HR m e V T H1) as (E1 & B1).
  destruct (remb_tail_value cvt2 R HR m e V T H1) as (E2 & B2).
  split; [now rewrite E1, E2|]. lia.
Qed.

Lemma remb_bw_platform_independent_witness :
  remb_bw (fun _ => 0) 50000 f64_half = remb_bw (fun _ => 2 ^ 63) 50000 f64_half /\
  0 <= remb_proposal (fun _ => 0) 50000 f64_half <= Z.max rembHighBW (2 * 50000).
Proof.
  apply (remb_bw_platform_independent (fun _ => 0) (fun _ => 2 ^ 63) 50000 f64_half);
    try reflexivity.
  split; apply Z.leb_le; vm_compute; reflexivity.
Defined.

(* ===================================================================== *)
(** * Properties: the bandwidth report *)
(* ===================================================================== *)

Lemma remb_bw_bitrate (cvt_undef : float64 -> Z) (R : Z) (L : float64) :
  wrap64 (remb_bw cvt_undef R L * 8) = remb_bw cvt_undef R L * 8 /\
  30000 <= remb_bw cvt_undef R L <= 100000.
Proof.
  pose proof (remb_clamp_bounds (remb_proposal cvt_undef R L)) as Hb.
  unfold remb_bw, rembLowBW, rembHighBW, wrap64 in *.
  rewrite Z.mod_small by lia. lia.
Qed.

(** C1, as the code has it.  On a publisher with a peer connection and
    an observed byte rate [R]: a loss rate below 0 or above 1 makes
    [sendREMB] return with the transport untouched, no report written.  A
    loss rate [L] with [0 <= L <= 1] makes it write exactly one report
    whose bitrate is eight times the proposal clamped to
    [[30000, 100000]], the proposal being 100000 when [L = 0] and
    [R = 0], [2 * R] when [L < 0.1], and otherwise the integer part of
    the product [R * (1 - L)] as [float64] arithmetic yields it: [R] and
    [1 - L] each rounded to the nearest [float64], their product rounded
    again (values in units of [2^-f64_scale]).  A loss rate that is not a
    number is not rejected: both comparisons of the guard are false for
    it and a report is written. *)
Theorem sendREMB_spec (cvt_undef : float64 -> Z) (t : WebRTCTransport)
    (c : PeerConnection) (L : float64) (visited : list (Z * Track)) :
  pc t = Some c ->
  observed_rate (byteRate t) ->
  f64_valid L = true ->
  (f64_lt L f64_zero = true \/ f64_gt L f64_one = true ->
     sendREMB cvt_undef t L visited = Done t) /\
  (f64_le f64_zero L = true -> f64_le L f64_one = true ->
     let R := byteRate t in
     let S := 2 ^ f64_scale in
     let proposal :=
       if f64_eq L f64_zero && (R =? 0) then 100000
       else if f64_lt L f64_tenth then 2 * R
       else round53 (round53 (R * S) * round53 (S - f64_value L) / S) / S in
     let clamped := Z.min (Z.max proposal 30000) 100000 in
     let ssrc := videoSSRC_of visited in
     sendREMB cvt_undef t L visited =
       Done (set_pc t (Some {| pcClosed := pcClosed c;
                               rtcpOut := rtcpOut c ++
                                 [[Remb {| rembSenderSSRC := ssrc;
                                           Bitrate := clamped * 8;
                                           SSRCs := [ssrc] |}]] |}))) /\
  (f64_is_nan L = true ->
     exists r,
       sendREMB cvt_undef t L visited =
         Done (set_pc t (Some {| pcClosed := pcClosed c;
                                 rtcpOut := rtcpOut c ++ [[Remb r]] |})) /\
       240000 <= Bitrate r <= 800000).
Proof.
  intros Hpc Hobs V. split; [|split].
  - intros H. unfold sendREMB, remb_rejects.
    destruct H as [H|H]; rewrite H; [rewrite orb_true_r|]; reflexivity.
  - intros H0 H1 R S proposal clamped ssrc.
    unfold sendREMB. rewrite (remb_accepts L H0 H1), Hpc.
    assert (Hbw : remb_bw cvt_undef (byteRate t) L = clamped).
    { subst clamped proposal. unfold remb_bw. rewrite remb_clamp_spec. unfold remb_proposal.
      fold R. unfold rembLowBW, rembHighBW.
      replace (f64_ge L f64_zero) with true by (symmetry; exact H0). simpl (true && _).
      rewrite (observed_rate_no_wrap R Hobs).
      destruct (f64_eq L f64_zero && (R =? 0)); [reflexivity|].
      destruct (f64_lt L f64_tenth) eqn:T; [reflexivity|].
      assert (F : exists m e, L = S754_finite false m e).
      { destruct L as [s|[|]| |[|] m e]; try discriminate; eauto. }
      destruct F as (m & e & ->).
      now rewrite (remb_tail_exact cvt_undef R m e Hobs V T H1). }
    rewrite Hbw. unfold pc_WriteRTCP.
    assert (Hw : wrap64 (clamped * 8) = clamped * 8).
    { unfold wrap64. apply Z.mod_small. unfold clamped. lia. }
    rewrite Hw. reflexivity.
  - intros Hn. destruct L; try discriminate Hn.
    unfold sendREMB. simpl. rewrite Hpc. eexists. split; [reflexivity|].
    simpl. destruct (remb_bw_bitrate cvt_undef (byteRate t) S754_nan) as (-> & Hb). lia.
Qed.

Lemma sendREMB_spec_witness :
  sendREMB (fun _ => 0) sample_pub_50k f64_1_5 [] = Done sample_pub_50k /\
  sendREMB (fun _ => 0) sample_pub_50k f64_quarter [] =
    Done (set_pc sample_pub_50k
            (Some {| pcClosed := false;
                     rtcpOut := [[Remb {| rembSenderSSRC := 0; Bitrate := 300000;
                                          SSRCs := [0] |}]] |})) /\
  sendREMB (fun _ => 0) sample_pub_50k f64_half [] =
    Done (set_pc sample_pub_50k
            (Some {| pcClosed := false;
                     rtcpOut := [[Remb {| rembSenderSSRC := 0; Bitrate := 240000;
                                          SSRCs := [0] |}]] |})) /\
  sendREMB (fun _ => 0) sample_pub_50k f64_0_05 [] =
    Done (set_pc sample_pub_50k
            (Some {| pcClosed := false;
                     rtcpOut := [[Remb {| rembSenderSSRC := 0; Bitrate := 800000;
                                          SSRCs := [0] |}]] |})).
Proof.
  assert (Hobs : observed_rate (byteRate sample_pub_50k))
    by (split; apply Z.leb_le; vm_compute; reflexivity).
  split; [|split; [|split]].
  - apply (sendREMB_spec (fun _ => 0) sample_pub_50k sample_pc f64_1_5 []
             eq_refl Hobs eq_refl).
    right. reflexivity.
  - etransitivity.
    + apply (proj1 (proj2 (sendREMB_spec (fun _ => 0) sample_pub_50k sample_pc f64_quarter []
                             eq_refl Hobs eq_refl))); reflexivity.
    + vm_compute. reflexivity.
  - etransitivity.
    + apply (proj1 (proj2 (sendREMB_spec (fun _ => 0) sample_pub_50k sample_pc f64_half []
                             eq_refl Hobs eq_refl))); reflexivity.
    + vm_compute. reflexivity.
  - etransitivity.
    + apply (proj1 (proj2 (sendREMB_spec (fun _ => 0) sample_pub_50k sample_pc f64_0_05 []
                             eq_refl Hobs eq_refl))); reflexivity.
    + vm_compute. reflexivity.
Defined.

(** C1, as the spec has it: a loss rate outside [[0, 1]] would make the
    call a no-op, and the third branch would propose [R * (1 - L)].
    Not-a-number is not within [[0, 1]], and on whatever platform the
    call writes a report for it.  And for [R = 50001] and [L = 1/4] the
    proposal is 37500, the integer part of 37500.75: the report carries
    300000, not [8 * R * (1 - L) = 300006]. *)
Lemma sendREMB_not_as_specified :
  (f64_le f64_zero S754_nan = false /\ f64_le S754_nan f64_one = false /\
   forall cvt_undef : float64 -> Z,
     exists r,
       sendREMB cvt_undef sample_pub_50k S754_nan [] =
         Done (set_pc sample_pub_50k
                 (Some {| pcClosed := false; rtcpOut := [[Remb r]] |})) /\
       sendREMB cvt_undef sample_pub_50k S754_nan [] <> Done sample_pub_50k) /\
  (4 * f64_value f64_quarter = 2 ^ f64_scale /\
   sendREMB (fun _ => 0) sample_pub_50001 f64_quarter [] =
     Done (set_pc sample_pub_50001
             (Some {| pcClosed := false;
                      rtcpOut := [[Remb {| rembSenderSSRC := 0; Bitrate := 300000;
                                           SSRCs := [0] |}]] |})) /\
   4 * 300000 <> 8 * (50001 * (4 - 1))).
Proof.
  split.
  - split; [reflexivity|]. split; [reflexivity|].
    intros cvt_undef. eexists. split; [reflexivity|]. discriminate.
  - split; [vm_compute; reflexivity|]. split; [vm_compute; reflexivity|]. lia.
Qed.

(** X18.  A loss rate that is not a number passes the guard (both
    comparisons are false), so a report is written; its bitrate rests on
    what the platform makes of [uint64(NaN)]. *)
Remark sendREMB_nan (cvt_undef : float64 -> Z) (t : WebRTCTransport) (c : PeerConnection)
    (visited : list (Z * Track)) :
  pc t = Some c ->
  exists r, sendREMB cvt_undef t S754_nan visited =
              Done (set_pc t (Some (pc_WriteRTCP c [Remb r]))) /\
            Bitrate r = 8 * remb_clamp (wrap64 (cvt_undef S754_nan)).
Proof.
  intros Hpc. unfold sendREMB. simpl. rewrite Hpc. eexists. split; [reflexivity|].
  simpl. unfold remb_bw, remb_proposal. simpl.
  assert (E : f64_mul (f64_of_uint64 (byteRate t)) S754_nan = S754_nan).
  { unfold f64_mul, SFmul. destruct (f64_of_uint64 (byteRate t)); reflexivity. }
  replace (f64_sub f64_one S754_nan) with S754_nan by reflexivity.
  rewrite E. simpl.
  pose proof (remb_clamp_bounds (wrap64 (cvt_undef S754_nan))) as Hb.
  unfold rembLowBW, rembHighBW in Hb. unfold wrap64 at 1. rewrite Z.mod_small; lia.
Qed.

Lemma sendREMB_nan_witness :
  exists r,
    sendREMB (fun _ => 0) sample_pub_50k S754_nan [] =
      Done (set_pc sample_pub_50k (Some (pc_WriteRTCP sample_pc [Remb r]))) /\
    Bitrate r = 240000.
Proof.
  destruct (sendREMB_nan (fun _ => 0) sample_pub_50k sample_pc [] eq_refl) as (r & H1 & H2).
  exists r. split; [exact H1|]. rewrite H2. reflexivity.
Defined.

(** C6.  The estimate a report carries, before the conversion to bits,
    lies within [[30000, 100000]] for every byte rate and every loss rate
    the guard lets through; and on one transport, with its observed byte
    rate, the estimate reported does not grow when the loss rate grows
    over [[0, 1]]. *)
Theorem sendREMB_estimate_monotone (cvt_undef : float64 -> Z) (t : WebRTCTransport)
    (c : PeerConnection) (visited : list (Z * Track)) :
  pc t = Some c ->
  (forall L, remb_rejects L = false ->
     exists r bw,
       sendREMB cvt_undef t L visited = Done (set_pc t (Some (pc_WriteRTCP c [Remb r]))) /\
       Bitrate r = bw * 8 /\ 30000 <= bw <= 100000) /\
  (forall L1 L2,
     observed_rate (byteRate t) ->
     f64_valid L1 = true -> f64_valid L2 = true ->
     f64_le f64_zero L1 = true -> f64_le L1 L2 = true -> f64_le L2 f64_one = true ->
     exists r1 r2 bw1 bw2,
       sendREMB cvt_undef t L1 visited = Done (set_pc t (Some (pc_WriteRTCP c [Remb r1]))) /\
       sendREMB cvt_undef t L2 visited = Done (set_pc t (Some (pc_WriteRTCP c [Remb r2]))) /\
       Bitrate r1 = bw1 * 8 /\ Bitrate r2 = bw2 * 8 /\
       bw2 <= bw1).
Proof.
  intros Hpc. split.
  - intros L Hr. unfold sendREMB. rewrite Hr, Hpc.
    destruct (remb_bw_bitrate cvt_undef (byteRate t) L) as (Hw & Hb).
    eexists _, (remb_bw cvt_undef (byteRate t) L).
    split; [reflexivity|]. split; [exact Hw|exact Hb].
  - intros L1 L2 Hobs V1 V2 H0 H12 H21.
    destruct (loss_rates_nonneg L1 L2 H0 H12 H21) as (N1 & N2).
    assert (H1o : f64_le L1 f64_one = true).
    { assert (Vo : f64_valid f64_one = true) by reflexivity.
      rewrite (f64_le_value L1 f64_one V1 Vo N1 eq_refl).
      rewrite (f64_le_value L1 L2 V1 V2 N1 N2) in H12.
      rewrite (f64_le_value L2 f64_one V2 Vo N2 eq_refl) in H21.
      apply Z.leb_le in H12, H21. apply Z.leb_le. lia. }
    assert (H0' : f64_le f64_zero L2 = true).
    { assert (Vz : f64_valid f64_zero = true) by reflexivity.
      rewrite (f64_le_value f64_zero L2 Vz V2 eq_refl N2).
      rewrite (f64_le_value f64_zero L1 Vz V1 eq_refl N1) in H0.
      rewrite (f64_le_value L1 L2 V1 V2 N1 N2) in H12.
      apply Z.leb_le in H0, H12. apply Z.leb_le. lia. }
    unfold sendREMB.
    rewrite (remb_accepts L1 H0 H1o), (remb_accepts L2 H0' H21), Hpc.
    destruct (remb_bw_bitrate cvt_undef (byteRate t) L1) as (Hw1 & _).
    destruct (remb_bw_bitrate cvt_undef (byteRate t) L2) as (Hw2 & _).
    eexists _, _, (remb_bw cvt_undef (byteRate t) L1), (remb_bw cvt_undef (byteRate t) L2).
    split; [reflexivity|]. split; [reflexivity|].
    split; [exact Hw1|]. split; [exact Hw2|].
    now apply remb_bw_mono.
Qed.

Lemma sendREMB_estimate_monotone_witness :
  exists r1 r2,
    sendREMB (fun _ => 0) sample_pub_50k f64_0_05 [] =
      Done (set_pc sample_pub_50k (Some (pc_WriteRTCP sample_pc [Remb r1]))) /\
    sendREMB (fun _ => 0) sample_pub_50k f64_half [] =
      Done (set_pc sample_pub_50k (Some (pc_WriteRTCP sample_pc [Remb r2]))) /\
    Bitrate r1 = 800000 /\ Bitrate r2 = 240000.
Proof.
  assert (Hobs : observed_rate (byteRate sample_pub_50k))
    by (split; apply Z.leb_le; vm_compute; reflexivity).
  destruct (proj2 (sendREMB_estimate_monotone (fun _ => 0) sample_pub_50k sample_pc []
                     eq_refl) f64_0_05 f64_half Hobs eq_refl eq_refl eq_refl eq_refl eq_refl)
    as (r1 & r2 & bw1 & bw2 & E1 & E2 & _).
  exists r1, r2. split; [exact E1|]. split; [exact E2|].
  revert E1 E2. vm_compute. intros [= <-] [= <-]. split; reflexivity.
Defined.

Lemma foldl_videoSSRC (l : list (Z * Track)) : forall acc : Z,
  let r := foldl (fun acc '(ssrc, tr) => if is_video_pt (PayloadType tr) then ssrc else acc)
                 acc l in
  (r = acc /\ forall k tr, (k, tr) ∈ l -> is_video_pt (PayloadType tr) = false) \/
  (exists tr, (r, tr) ∈ l /\ is_video_pt (PayloadType tr) = true).
Proof.
  induction l as [|[k tr] l IH]; intros acc; simpl.
  - left. split; [reflexivity|]. intros k tr H. inversion H.
  - destruct (is_video_pt (PayloadType tr)) eqn:Ev.
    + destruct (IH k) as [(Hr & Hall)|(tr' & Hin & Hv)].
      * right. exists tr. rewrite Hr. split; [left|exact Ev].
      * right. exists tr'. split; [now right|exact Hv].
    + destruct (IH acc) as [(Hr & Hall)|(tr' & Hin & Hv)].
      * left. split; [exact Hr|]. intros k' tr' Hin.
        apply elem_of_cons in Hin. destruct Hin as [[= -> ->]|Hin]; eauto.
      * right. exists tr'. split; [now right|exact Hv].
Qed.

(** The SSRC of a report, whatever the order of the visit. *)
Lemma videoSSRC_of_table (tracks : gmap Z Track) (visited : list (Z * Track)) :
  visited ≡ₚ map_to_list tracks ->
  (videoSSRC_of visited = 0 /\
   forall ssrc tr, tracks !! ssrc = Some tr -> is_video_pt (PayloadType tr) = false) \/
  (exists tr, tracks !! videoSSRC_of visited = Some tr /\
              is_video_pt (PayloadType tr) = true).
Proof.
  intros Hperm. unfold videoSSRC_of.
  destruct (foldl_videoSSRC visited 0) as [(Hr & Hall)|(tr & Hin & Hv)].
  - left. split; [exact Hr|]. intros ssrc tr Hl. apply (Hall ssrc).
    rewrite Hperm. now apply elem_of_map_to_list.
  - right. exists tr. split; [|exact Hv]. apply elem_of_map_to_list.
    now rewrite <- Hperm.
Qed.

Lemma two_video_list :
  map_to_list two_video = [(1234, sample_track); (4321, sample_track)] \/
  map_to_list two_video = [(4321, sample_track); (1234, sample_track)].
Proof. vm_compute. auto. Qed.

Lemma two_video_orders :
  [(1234, sample_track); (4321, sample_track)] ≡ₚ map_to_list two_video /\
  [(4321, sample_track); (1234, sample_track)] ≡ₚ map_to_list two_video.
Proof.
  destruct two_video_list as [-> | ->]; split;
    first [reflexivity | apply perm_swap].
Qed.

(** X3.  Whatever the loss rate (not-a-number and the infinities
    included), the byte rate, the platform and the order in which the
    track table is visited: a call of [sendREMB] that returns has either
    left the transport as it was, or appended exactly one report to the
    connection's outgoing batches and changed nothing else; the report's
    bitrate lies between 240000 and 800000 bits per second, its one media
    SSRC is its sender SSRC, and that SSRC is 0 when the track table
    holds no video track and otherwise the SSRC of one of the table's
    video tracks (which one depends on the visit).  On a transport
    without a peer connection an accepted loss rate panics. *)
Theorem sendREMB_effect (cvt_undef : float64 -> Z) (t : WebRTCTransport) (L : float64)
    (visited : list (Z * Track)) :
  visited ≡ₚ map_to_list (track t) ->
  (forall t', sendREMB cvt_undef t L visited = Done t' ->
     (remb_rejects L = true /\ t' = t) \/
     (remb_rejects L = false /\
      exists c r, pc t = Some c /\
        t' = set_pc t (Some {| pcClosed := pcClosed c; rtcpOut := rtcpOut c ++ [[Remb r]] |}) /\
        240000 <= Bitrate r <= 800000 /\
        SSRCs r = [rembSenderSSRC r] /\
        ((rembSenderSSRC r = 0 /\
          forall ssrc tr, track t !! ssrc = Some tr ->
                          is_video_pt (PayloadType tr) = false) \/
         (exists tr, track t !! rembSenderSSRC r = Some tr /\
                     is_video_pt (PayloadType tr) = true)))) /\
  (pc t = None -> remb_rejects L = false ->
     exists msg, sendREMB cvt_undef t L visited = Panic msg).
Proof.
  intros Hperm. unfold sendREMB. split.
  - intros t'. destruct (remb_rejects L).
    + intros [= <-]. left. auto.
    + destruct (pc t) as [c|]; [|discriminate]. intros [= <-]. right.
      split; [reflexivity|]. eexists c, _. split; [reflexivity|].
      split; [reflexivity|]. simpl.
      destruct (remb_bw_bitrate cvt_undef (byteRate t) L) as (-> & Hb).
      split; [lia|]. split; [reflexivity|].
      exact (videoSSRC_of_table (track t) visited Hperm).
  - intros Hpc Hr. rewrite Hr, Hpc. eauto.
Qed.

Lemma sendREMB_effect_witness :
  exists r1 r2,
    sendREMB (fun _ => 0) sample_sub2 (S754_infinity true)
             [(1234, sample_track); (4321, sample_track)] = Done sample_sub2 /\
    sendREMB (fun _ => 0) sample_sub2 S754_nan
             [(1234, sample_track); (4321, sample_track)] =
      Done (set_pc sample_sub2 (Some {| pcClosed := false; rtcpOut := [[Remb r1]] |})) /\
    sendREMB (fun _ => 0) sample_sub2 S754_nan
             [(4321, sample_track); (1234, sample_track)] =
      Done (set_pc sample_sub2 (Some {| pcClosed := false; rtcpOut := [[Remb r2]] |})) /\
    rembSenderSSRC r1 = 4321 /\ rembSenderSSRC r2 = 1234 /\
    240000 <= Bitrate r1 <= 800000.
Proof.
  destruct (sendREMB (fun _ => 0) sample_sub2 S754_nan
              [(1234, sample_track); (4321, sample_track)]) as [t'|msg] eqn:E;
    [|discriminate E].
  destruct (proj1 (sendREMB_effect (fun _ => 0) sample_sub2 S754_nan _
                     (proj1 two_video_orders)) t' E)
    as [(Hr & _)|(_ & c & r & Hc & Ht & Hb & _)]; [discriminate Hr|].
  exists r. eexists. split; [reflexivity|]. split.
  { rewrite Ht. injection Hc as <-. reflexivity. }
  split; [reflexivity|].
  split; [|split; [reflexivity|exact Hb]].
  revert E. rewrite Ht. injection Hc as <-. vm_compute. now intros [= <-].
Defined.

(** X4.  The SSRC a bandwidth report is addressed to, whatever the order
    in which the track table is visited: 0 when the table holds no video
    track (so always for a publisher, whose track table nothing fills),
    and otherwise the SSRC of a track of the table that carries VP8, VP9
    or H264. *)
Theorem videoSSRC_of_spec (tracks : gmap Z Track) (visited : list (Z * Track)) :
  visited ≡ₚ map_to_list tracks ->
  (videoSSRC_of visited = 0 /\
   forall ssrc tr, tracks !! ssrc = Some tr -> is_video_pt (PayloadType tr) = false) \/
  (exists tr, tracks !! videoSSRC_of visited = Some tr /\
              is_video_pt (PayloadType tr) = true).
Proof. apply videoSSRC_of_table. Qed.

Lemma videoSSRC_of_spec_witness :
  videoSSRC_of [(1234, sample_track); (4321, sample_track)] = 4321 /\
  videoSSRC_of [(4321, sample_track); (1234, sample_track)] = 1234 /\
  exists tr, two_video !! videoSSRC_of [(4321, sample_track); (1234, sample_track)] = Some tr /\
             is_video_pt (PayloadType tr) = true.
Proof.
  split; [reflexivity|]. split; [reflexivity|].
  destruct (videoSSRC_of_spec two_video _ (proj2 two_video_orders))
    as [(H0 & _)|H]; [discriminate H0|exact H].
Defined.

(* ===================================================================== *)
(** * Properties: AnswerPublish, its errors and its flags *)
(* ===================================================================== *)

(** X5.  [AnswerPublish] on nil options answers "invalid options" and
    touches nothing; a [codec] value that is not a string panics (the
    type assertion has no comma-ok form); and a call that gets past the
    options has registered Opus first and at most one video codec, has
    set each of the three capability flags from its key when the key
    holds a bool and kept the flag otherwise, and has changed nothing
    else of the transport. *)
Theorem AnswerPublish_options (t : WebRTCTransport) :
  AnswerPublish t None = Done (Some errInvalidOptions, [], t) /\
  (forall o v, o !! "codec"%string = Some v -> (forall s, v <> VString s) ->
     exists msg, AnswerPublish t (Some o) = Panic msg) /\
  (forall o r, AnswerPublish t (Some o) = Done r ->
     exists e t', r = (None, e, t') /\
       head e = Some Opus /\ (length e <= 2)%nat /\
       (forall b, o !! "video"%string = Some (VBool b) -> hasVideo t' = b) /\
       ((forall b, o !! "video"%string <> Some (VBool b)) -> hasVideo t' = hasVideo t) /\
       (forall b, o !! "audio"%string = Some (VBool b) -> hasAudio t' = b) /\
       ((forall b, o !! "audio"%string <> Some (VBool b)) -> hasAudio t' = hasAudio t) /\
       (forall b, o !! "screen"%string = Some (VBool b) -> hasScreen t' = b) /\
       ((forall b, o !! "screen"%string <> Some (VBool b)) -> hasScreen t' = hasScreen t) /\
       t' = set_flags t (hasVideo t') (hasAudio t') (hasScreen t')).
Proof.
  split; [reflexivity|]. split.
  - intros o v Hv Hns. unfold AnswerPublish. rewrite Hv.
    destruct v as [b|s|]; simpl; eauto. exfalso. now apply (Hns s).
  - intros o r. unfold AnswerPublish.
    assert (Hflag : forall (k : string) (cur : bool),
      (forall b, o !! k = Some (VBool b) -> default cur (bool_option o k) = b) /\
      ((forall b, o !! k <> Some (VBool b)) -> default cur (bool_option o k) = cur)).
    { intros k cur. unfold bool_option. split.
      - intros b Hb. now rewrite Hb.
      - intros Hn. destruct (o !! k) as [[b| |]|]; simpl; auto.
        exfalso. now apply (Hn b). }
    set (v := default (hasVideo t) (bool_option o "video")).
    set (a := default (hasAudio t) (bool_option o "audio")).
    set (s := default (hasScreen t) (bool_option o "screen")).
    assert (Hfin : forall e : list codec, head e = Some Opus -> (length e <= 2)%nat ->
      Done (None, e, set_flags t v a s) = Done r ->
      exists e t', r = (None, e, t') /\ head e = Some Opus /\ (length e <= 2)%nat /\
        (forall b, o !! "video"%string = Some (VBool b) -> hasVideo t' = b) /\
        ((forall b, o !! "video"%string <> Some (VBool b)) -> hasVideo t' = hasVideo t) /\
        (forall b, o !! "audio"%string = Some (VBool b) -> hasAudio t' = b) /\
        ((forall b, o !! "audio"%string <> Some (VBool b)) -> hasAudio t' = hasAudio t) /\
        (forall b, o !! "screen"%string = Some (VBool b) -> hasScreen t' = b) /\
        ((forall b, o !! "screen"%string <> Some (VBool b)) -> hasScreen t' = hasScreen t) /\
        t' = set_flags t (hasVideo t') (hasAudio t') (hasScreen t')).
    { intros e He Hl [= <-]. exists e, (set_flags t v a s).
      split; [reflexivity|]. split; [exact He|]. split; [exact Hl|]. simpl.
      pose proof (Hflag "video"%string (hasVideo t)) as (V1 & V2).
      pose proof (Hflag "audio"%string (hasAudio t)) as (A1 & A2).
      pose proof (Hflag "screen"%string (hasScreen t)) as (S1 & S2).
      repeat split; auto. }
    destruct (o !! "codec"%string) as [[b|cs|]|]; simpl; try discriminate.
    + destruct (EqualFold cs "h264"); [|destruct (EqualFold cs "vp9")];
        simpl; apply Hfin; simpl; auto.
    + apply Hfin; simpl; auto.
Qed.

Lemma AnswerPublish_options_witness :
  (exists msg, AnswerPublish sample_pub (Some {[ "codec"%string := VBool true ]}) = Panic msg) /\
  (exists e t', AnswerPublish sample_pub
                  (Some {[ "screen"%string := VBool true ]}) = Done (None, e, t') /\
                hasScreen t' = true /\ hasVideo t' = true).
Proof.
  destruct (AnswerPublish_options sample_pub) as (_ & H2 & H3). split.
  - apply (H2 _ (VBool true)); [reflexivity|discriminate].
  - destruct (AnswerPublish sample_pub (Some {[ "screen"%string := VBool true ]}))
      as [r|msg] eqn:E; [|discriminate E].
    destruct (H3 _ r E) as (e & t' & -> & _ & _ & _ & V2 & _ & _ & S1 & _).
    exists e, t'. split; [reflexivity|]. split.
    + apply S1. reflexivity.
    + rewrite V2; [reflexivity|]. intros b. discriminate.
Defined.

(* ===================================================================== *)
(** * Properties: the tables of different transports *)
(* ===================================================================== *)

Lemma newWebRTCTransport_ref (i : string) (h : heap) :
  h !! ssrcPT (fst (newWebRTCTransport i h)) = None /\
  snd (newWebRTCTransport i h) !! ssrcPT (fst (newWebRTCTransport i h)) = Some ∅.
Proof.
  simpl. split.
  - apply not_elem_of_dom. apply is_fresh.
  - apply lookup_insert_eq.
Qed.

(** X6.  Every transport gets a payload-type table of its own: the table
    of a new transport is empty and leaves the tables already in the
    store as they were, and what the [OnTrack] handler of one transport
    records never shows in the table [SSRCPT] hands out for a transport
    created after it. *)
Theorem transports_have_own_tables (i1 i2 : string) (h : heap) (ssrc pt : Z) :
  let t1 := fst (newWebRTCTransport i1 h) in
  let h1 := snd (newWebRTCTransport i1 h) in
  let t2 := fst (newWebRTCTransport i2 h1) in
  let h2 := snd (newWebRTCTransport i2 h1) in
  deref h1 (SSRCPT t1) = ∅ /\
  (forall r, is_Some (h !! r) -> h1 !! r = h !! r) /\
  SSRCPT t1 <> SSRCPT t2 /\
  deref (OnTrack_record t1 ssrc pt h2) (SSRCPT t2) = ∅ /\
  deref (OnTrack_record t1 ssrc pt h2) (SSRCPT t1) = {[ ssrc := pt ]} /\
  deref (OnTrack_record t2 ssrc pt h2) (SSRCPT t1) = ∅.
Proof.
  intros t1 h1 t2 h2.
  destruct (newWebRTCTransport_ref i1 h) as (F1 & L1). fold t1 h1 in F1, L1.
  destruct (newWebRTCTransport_ref i2 h1) as (F2 & L2). fold t2 h2 in F2, L2.
  assert (Hne : ssrcPT t1 <> ssrcPT t2).
  { intros Heq. rewrite Heq in L1. rewrite L1 in F2. discriminate. }
  assert (L12 : h2 !! ssrcPT t1 = Some ∅).
  { unfold h2, newWebRTCTransport. cbn [snd]. rewrite lookup_insert_ne; [exact L1|].
    intros Heq. apply Hne. symmetry. exact Heq. }
  unfold SSRCPT, deref, OnTrack_record.
  split; [now rewrite L1|]. split.
  - intros r [m Hr]. unfold h1, newWebRTCTransport. cbn [snd].
    rewrite lookup_insert_ne; [reflexivity|].
    intros Heq. subst r. change (h !! fresh (dom h) = None) in F1. congruence.
  - split; [exact Hne|]. split.
    + rewrite lookup_insert_ne by congruence. now rewrite L2.
    + split.
      * rewrite lookup_insert_eq. unfold deref. rewrite L12. reflexivity.
      * rewrite lookup_insert_ne by congruence. now rewrite L12.
Qed.

(* ===================================================================== *)
(** * Properties: reading the packet channel *)
(* ===================================================================== *)

Lemma ReadRTP_n_buffered (l : list rtp_Packet) : forall (t : WebRTCTransport) (rest : list rtp_Packet),
  chBuf (rtpCh t) = l ++ rest ->
  ReadRTP_n (length l) t = (map (fun p => (Some p, None)) l, with_rtp_buf t rest).
Proof.
  induction l as [|p l IH]; intros t rest Hb; simpl.
  - unfold with_rtp_buf. simpl in Hb. rewrite <- Hb. now destruct t as [? ? ? ? ? []].
  - unfold ReadRTP at 1. rewrite Hb. simpl.
    rewrite (IH _ rest) by reflexivity. reflexivity.
Qed.

Lemma ReadRTP_n_app (l : list rtp_Packet) :
  forall (t : WebRTCTransport) (rest : list rtp_Packet) (n : nat),
  chBuf (rtpCh t) = l ++ rest ->
  ReadRTP_n (length l + n) t =
    (map (fun p => (Some p, None)) l ++ fst (ReadRTP_n n (with_rtp_buf t rest)),
     snd (ReadRTP_n n (with_rtp_buf t rest))).
Proof.
  induction l as [|p l IH]; intros t rest n Hb; simpl.
  - simpl in Hb. replace (with_rtp_buf t rest) with t.
    + now destruct (ReadRTP_n n t).
    + unfold with_rtp_buf. rewrite <- Hb. now destruct t as [? ? ? ? ? []].
  - unfold ReadRTP at 1. rewrite Hb. simpl.
    rewrite (IH _ rest n) by reflexivity. reflexivity.
Qed.

(** X7.  The packet channel is first in, first out, and closing it loses
    nothing: a reader gets the buffered packets in the order they were
    sent, each without error; behind them a closed channel answers
    "channel closed" (and goes on answering it), while an open one
    parks the reader. *)
Theorem ReadRTP_fifo (t : WebRTCTransport) :
  let buf := chBuf (rtpCh t) in
  ReadRTP_n (length buf) t = (map (fun p => (Some p, None)) buf, with_rtp_buf t []) /\
  (chClosed (rtpCh t) = true ->
     ReadRTP_n (length buf + 2) t =
       (map (fun p => (Some p, None)) buf ++
          [(None, Some errChanClosed); (None, Some errChanClosed)],
        with_rtp_buf t [])) /\
  (chClosed (rtpCh t) = false ->
     forall n, ReadRTP_n (length buf + n) t = ReadRTP_n (length buf) t).
Proof.
  intros buf.
  pose proof (fun rest n => ReadRTP_n_app buf t rest n) as H0.
  split; [|split].
  - apply ReadRTP_n_buffered. now rewrite app_nil_r.
  - intros Hc. rewrite (H0 [] 2%nat) by now rewrite app_nil_r.
    assert (E : ReadRTP (with_rtp_buf t []) =
                Some ((None, Some errChanClosed), with_rtp_buf t [])).
    { unfold ReadRTP. cbn [with_rtp_buf set_rtpCh rtpCh chBuf chClosed]. now rewrite Hc. }
    cbn [ReadRTP_n]. rewrite !E. reflexivity.
  - intros Hc n. rewrite (H0 [] n) by now rewrite app_nil_r.
    rewrite (ReadRTP_n_buffered buf t []) by now rewrite app_nil_r.
    assert (E : ReadRTP (with_rtp_buf t []) = None).
    { unfold ReadRTP. cbn [with_rtp_buf set_rtpCh rtpCh chBuf chClosed]. now rewrite Hc. }
    destruct n; cbn [ReadRTP_n]; rewrite ?E; cbn [fst snd]; now rewrite app_nil_r.
Qed.

Lemma ReadRTP_fifo_witness :
  ReadRTP_n 4 (set_rtpCh sample_pub
                 {| chClosed := true; chBuf := [sample_pkt; sample_pkt2]; chCap := 1000 |})
  = ([(Some sample_pkt, None); (Some sample_pkt2, None);
      (None, Some errChanClosed); (None, Some errChanClosed)],
     set_rtpCh sample_pub {| chClosed := true; chBuf := []; chCap := 1000 |}).
Proof.
  apply (proj1 (proj2 (ReadRTP_fifo
    (set_rtpCh sample_pub
       {| chClosed := true; chBuf := [sample_pkt; sample_pkt2]; chCap := 1000 |})))).
  reflexivity.
Defined.

(* ===================================================================== *)
(** * Properties: statistics and the packet channel in every run *)
(* ===================================================================== *)

Lemma wrap64_is_uint64 (x : Z) : is_uint64 (wrap64 x).
Proof.
  unfold wrap64, is_uint64, max_uint64.
  pose proof (Z.mod_pos_bound x (2 ^ 64)). lia.
Qed.

Lemma go_step_stats (up : bool) (t : WebRTCTransport) (g : goroutine) (a : alt) t' g' :
  go_step up t g a = Some (Done (t', g')) ->
  total_ok g -> observed_rate (byteRate t) ->
  (length (chBuf (rtpCh t)) <= chCap (rtpCh t))%nat ->
  total_ok g' /\ observed_rate (byteRate t') /\
  (length (chBuf (rtpCh t')) <= chCap (rtpCh t'))%nat /\
  chCap (rtpCh t') = chCap (rtpCh t).
Proof.
  intros H Hg Hr Hb.
  destruct g as [l|ssrc l|total l|l]; destruct l; destruct a; simpl in H;
    try discriminate;
    unfold returning, wg_Done, wg_Add, t_WriteRTCP, chan_send in H;
    repeat match type of H with
           | context [if ?b then _ else _] => destruct b eqn:?
           | context [match pc ?t with _ => _ end] => destruct (pc t) eqn:?
           end;
    simpl in H; try discriminate;
    injection H as <- <-; simpl;
    (split; [|split; [|split]]); auto;
    try apply wrap64_is_uint64;
    try (unfold is_uint64, max_uint64; lia).
  - (* the ticker of receiveRTP *)
    apply observed_rate_iff. exists total. auto.
  - (* a packet was sent *)
    rewrite length_app. simpl.
    match goal with E : (_ <? _)%nat = true |- _ => apply Nat.ltb_lt in E end. lia.
Qed.

Lemma stats_inv_step (a : action) (s s' : system) :
  step a s = Some s' -> stats_inv s ->
  stats_inv s' /\ chCap (rtpCh (tr s')) = chCap (rtpCh (tr s)).
Proof.
  unfold step, stats_inv. destruct (panicked s) eqn:Hp; [discriminate|].
  destruct a as [| |i al|i j| |].
  - destruct (closer s) as [[]|]; try discriminate; intros [= <-]; simpl; auto.
  - destruct (closer s) as [l|] eqn:Hl; [|discriminate]. simpl.
    destruct (close_step (tr s) l) as [r|] eqn:Hr; [|discriminate]. simpl.
    intros [= <-] H. destruct r as [[[t l'] ev]|msg]; simpl; [|auto].
    revert Hr. unfold close_step, close_chan.
    destruct l; case_ifs; simpl; try discriminate; intros [= <- <- <-]; simpl; auto.
  - destruct (gs s !! i) as [g|] eqn:Hg; [|discriminate]. simpl.
    destruct (go_step (connected s) (tr s) g al) as [r|] eqn:Hr; [|discriminate]. simpl.
    intros [= <-] (H1 & H2 & H3). destruct r as [[t g']|msg]; simpl; [|auto].
    destruct (go_step_stats _ _ _ _ _ _ Hr (Forall_lookup_1 _ _ _ _ H2 Hg) H1 H3)
      as (G1 & G2 & G3 & G4).
    split; [|exact G4]. split; [exact G2|]. split; [|exact G3].
    now apply Forall_insert.
  - destruct (gs s !! i) as [[[]| | |]|] eqn:Hi; try discriminate.
    destruct (gs s !! j) as [[|ssrc []| |]|]; try discriminate.
    destruct (chClosed (pliCh (tr s))); [discriminate|].
    intros [= <-] (H1 & H2 & H3). unfold t_WriteRTCP.
    destruct (pc (tr s)); simpl; auto.
    split; [|reflexivity]. split; [exact H1|]. split; [|exact H3].
    apply Forall_insert; simpl; auto.
  - unfold ReadRTP. destruct (chBuf (rtpCh (tr s))) eqn:Eb;
      [destruct (chClosed (rtpCh (tr s)))|]; try discriminate.
    intros [= <-] (H1 & H2 & H3). simpl in *.
    split; [|reflexivity]. split; [exact H1|]. split; [exact H2|]. lia.
  - destruct (pc (tr s)) as [c|]; [|discriminate].
    destruct (connected s || pcClosed c); [discriminate|].
    intros [= <-] H. simpl. auto.
Qed.

(** X8.  In every run of the transport's goroutines and [Close], started
    with byte totals that are [uint64] values: the byte rate stays one
    that [total / 3] can produce (at most a third of the largest
    [uint64], so doubling it in [sendREMB] never wraps), every running
    total stays a [uint64], and the packet channel never holds more than
    its capacity, which never changes. *)
Theorem stats_invariant (acts : list action) : forall s0 s : system,
  stats_inv s0 -> run acts s0 = Some s ->
  stats_inv s /\ chCap (rtpCh (tr s)) = chCap (rtpCh (tr s0)) /\
  wrap64 (byteRate (tr s) * 2) = 2 * byteRate (tr s).
Proof.
  induction acts as [|a acts IH]; simpl; intros s0 s Hinv.
  - intros [= <-]. split; [exact Hinv|]. split; [reflexivity|].
    apply observed_rate_no_wrap. apply Hinv.
  - destruct (step a s0) as [s1|] eqn:Hs; [|discriminate]. simpl.
    intros Hrun. destruct (stats_inv_step a s0 s1 Hs Hinv) as (H1 & H2).
    destruct (IH s1 s H1 Hrun) as (G1 & G2 & G3).
    split; [exact G1|]. split; [congruence|exact G3].
Qed.

Lemma stats_inv_pub_system : stats_inv pub_system.
Proof.
  unfold stats_inv. simpl. split; [|split].
  - split; apply Z.leb_le; vm_compute; reflexivity.
  - repeat constructor; unfold is_uint64, max_uint64; simpl; lia.
  - lia.
Qed.

Lemma stats_invariant_witness :
  exists s,
    run [Go 2 Run; Go 2 CaseDefault; Go 2 (ReadPacket sample_pkt); Go 2 Run;
         Go 2 CaseTicker] pub_system = Some s /\
    byteRate (tr s) = 400 /\ chBuf (rtpCh (tr s)) = [sample_pkt] /\ stats_inv s.
Proof.
  assert (Hsched : exists s,
              run [Go 2 Run; Go 2 CaseDefault; Go 2 (ReadPacket sample_pkt); Go 2 Run; Go 2
              CaseTicker] pub_system = Some s)
    by (vm_compute; eexists; reflexivity).
  destruct Hsched as [s E].
  exists s. split; [exact E|].
  pose proof (stats_invariant _ pub_system s stats_inv_pub_system E) as (H & _).
  split; [|split; [|exact H]]; revert E; vm_compute; now intros [= <-].
Defined.

(* ===================================================================== *)
(** * Properties: one [Close] after every goroutine registered *)
(* ===================================================================== *)

Lemma nreg_lookup (l : list goroutine) : forall (i : nat) g,
  l !! i = Some g -> registered g = true -> 1 <= nreg l.
Proof.
  induction l as [|x l IH]; intros [|i] g; simpl; try discriminate.
  - intros [= ->] ->. pose proof (nreg_nonneg l). lia.
  - intros H Hr. pose proof (IH i g H Hr). destruct (registered x); lia.
Qed.


Lemma close_state_at (s : system) :
  close_state s ->
  match closer s with
  | None | Some CloseEntry =>
      chClosed (stopCh (tr s)) = false /\ chClosed (rtpCh (tr s)) = false /\
      chClosed (pliCh (tr s)) = false
  | Some CloseStop =>
      pc_is_closed (tr s) = true /\
      chClosed (stopCh (tr s)) = false /\ chClosed (rtpCh (tr s)) = false /\
      chClosed (pliCh (tr s)) = false
  | Some CloseWait | Some CloseRtp =>
      pc_is_closed (tr s) = true /\
      chClosed (stopCh (tr s)) = true /\ chClosed (rtpCh (tr s)) = false /\
      chClosed (pliCh (tr s)) = false
  | Some ClosePli =>
      pc_is_closed (tr s) = true /\
      chClosed (stopCh (tr s)) = true /\ chClosed (rtpCh (tr s)) = true /\
      chClosed (pliCh (tr s)) = false
  | Some CloseReturned =>
      pc_is_closed (tr s) = true /\
      chClosed (stopCh (tr s)) = true /\ chClosed (rtpCh (tr s)) = true /\
      chClosed (pliCh (tr s)) = true
  end.
Proof.
  unfold close_state, stop_raised, rtp_closed, pli_closed, torn_down.
  destruct (closer s) as [[]|]; simpl; intros [= H1 H2 H3 H4]; auto.
Qed.






(* ===================================================================== *)
(** * Properties: which panics a transport can raise *)
(* ===================================================================== *)


Lemma step_pc (a : action) (s s' : system) :
  step a s = Some s' -> is_Some (pc (tr s)) -> is_Some (pc (tr s')).
Proof.
  unfold step. destruct (panicked s) eqn:Hp; [discriminate|].
  destruct a as [| |i al|i j| |].
  - destruct (closer s) as [[]|]; try discriminate; intros [= <-]; simpl; auto.
  - destruct (closer s) as [l|] eqn:Hl; [|discriminate]. simpl.
    destruct (close_step (tr s) l) as [r|] eqn:Hr; [|discriminate]. simpl.
    intros [= <-] H. destruct r as [[[t l'] ev]|msg]; simpl; [|exact H].
    revert Hr. unfold close_step, close_chan.
    destruct l; case_ifs; simpl; try discriminate; intros [= <- <- <-]; simpl; eauto.
  - destruct (gs s !! i) as [g|] eqn:Hg; [|discriminate]. simpl.
    destruct (go_step (connected s) (tr s) g al) as [r|] eqn:Hr; [|discriminate]. simpl.
    intros [= <-] H. destruct r as [[t g']|msg]; simpl; [|exact H].
    revert Hr.
    destruct g as [l|ssrc l|total l|l]; destruct l; destruct al; simpl;
      try discriminate;
      unfold returning, wg_Done, wg_Add, t_WriteRTCP, chan_send;
      case_ifs; simpl; try discriminate; intros [= <- <-]; simpl; eauto.
  - destruct (gs s !! i) as [[[]| | |]|] eqn:Hi; try discriminate.
    destruct (gs s !! j) as [[|ssrc []| |]|]; try discriminate.
    destruct (chClosed (pliCh (tr s))); [discriminate|].
    intros [= <-] [c Hc]. unfold t_WriteRTCP. rewrite Hc. simpl. eauto.
  - unfold ReadRTP. destruct (chBuf (rtpCh (tr s))) eqn:Eb;
      [destruct (chClosed (rtpCh (tr s)))|]; try discriminate.
    intros [= <-] H. exact H.
  - destruct (pc (tr s)) as [c|] eqn:Ec; [|discriminate].
    destruct (connected s || pcClosed c); [discriminate|].
    intros [= <-] _. simpl. rewrite Ec. eauto.
Qed.



(* ===================================================================== *)
(** * Properties: when [Close] can return, and when it cannot *)
(* ===================================================================== *)

Lemma run_app (a b : list action) : forall s : system,
  run (a ++ b) s = (s' ← run a s; run b s').
Proof.
  induction a as [|x a IH]; simpl; intros s; [reflexivity|].
  destruct (step x s) as [s1|]; simpl; [apply IH|reflexivity].
Qed.

Lemma run_app_Some (a b : list action) (s s1 s2 : system) :
  run a s = Some s1 -> run b s1 = Some s2 -> run (a ++ b) s = Some s2.
Proof. intros H1 H2. rewrite run_app, H1. exact H2. Qed.

Lemma calls_app (a b : list action) : calls (app a b) = (calls a + calls b)%nat.
Proof.
  induction a as [|x a IH]; simpl; [reflexivity|]. destruct x; simpl; lia.
Qed.

Lemma drains_app (a b : list action) : drains (app a b) = (drains a + drains b)%nat.
Proof.
  induction a as [|x a IH]; simpl; [reflexivity|]. destruct x; simpl; lia.
Qed.

Lemma nreg_pos (l : list goroutine) :
  1 <= nreg l -> exists (i : nat) g, l !! i = Some g /\ registered g = true.
Proof.
  induction l as [|x l IH]; simpl; [lia|].
  destruct (registered x) eqn:E.
  - intros _. exists O, x. split; [reflexivity|exact E].
  - intros H. destruct IH as (i & g & Hg & Hr); [lia|].
    exists (S i), g. split; [exact Hg|exact Hr].
Qed.

Lemma in_flight_insert (l : list goroutine) : forall (i : nat) g g',
  l !! i = Some g ->
  (length (in_flight (<[i := g']> l)) + length (in_hand g) =
   length (in_flight l) + length (in_hand g'))%nat.
Proof.
  unfold in_flight.
  induction l as [|x l IH]; intros [|i] g g'; try discriminate.
  - intros [= ->].
    change (length (in_hand g' ++ flat_map in_hand l) + length (in_hand g) =
            length (in_hand g ++ flat_map in_hand l) + length (in_hand g'))%nat.
    rewrite !length_app. lia.
  - intros H. specialize (IH i g g' H).
    change (length (in_hand x ++ flat_map in_hand (<[i := g']> l)) + length (in_hand g) =
            length (in_hand x ++ flat_map in_hand l) + length (in_hand g'))%nat.
    rewrite !length_app. lia.
Qed.

Lemma Go_step_run (s : system) (i : nat) (g : goroutine) (al : alt) t' g' :
  panicked s = None -> gs s !! i = Some g ->
  go_step (connected s) (tr s) g al = Some (Done (t', g')) ->
  step (Go i al) s =
    Some {| tr := t'; connected := connected s; closer := closer s;
            closeLog := closeLog s; gs := <[i := g']> (gs s); panicked := None |}.
Proof. intros Hp Hg Hr. unfold step. rewrite Hp, Hg. simpl. rewrite Hr. reflexivity. Qed.

Lemma StepClose_run (s : system) (l : close_loc) t' l' ev :
  panicked s = None -> closer s = Some l ->
  close_step (tr s) l = Some (Done (t', l', ev)) ->
  step StepClose s =
    Some {| tr := t'; connected := connected s; closer := Some l';
            closeLog := closeLog s ++ [ev]; gs := gs s; panicked := None |}.
Proof. intros Hp Hl Hr. unfold step. rewrite Hp, Hl. simpl. rewrite Hr. reflexivity. Qed.

Lemma leave_step (up : bool) (t : WebRTCTransport) (g : goroutine) :
  can_leave up g = true -> in_hand g = [] ->
  chClosed (stopCh t) = true -> pc_is_closed t = true -> 1 <= wg t ->
  exists g', go_step up t g (leave_alt g) = Some (Done (set_wg t (wg t - 1), g')) /\
             registered g' = false /\ in_hand g' = [].
Proof.
  intros Hl Hh Hs Hc Hw.
  assert (E : (wg t - 1 <? 0) = false) by (apply Z.ltb_ge; lia).
  destruct up; destruct g as [l|ssrc l|total l|l]; destruct l;
    simpl in Hl, Hh; try discriminate;
    simpl; rewrite ?Hs, ?Hc; unfold returning, wg_Done; rewrite E; simpl;
    eexists; (split; [reflexivity|split; reflexivity]).
Qed.

(** A registered goroutine at its [select] or in a read leaves by one
    move. *)
Lemma leaves_simple (s : system) (i : nat) (g : goroutine) :
  winding_down s -> gs s !! i = Some g -> registered g = true ->
  can_leave (connected s) g = true -> in_hand g = [] ->
  exists s' g',
    run [Go i (leave_alt g)] s = Some s' /\
    winding_down s' /\ same_call s s' /\
    gs s' = <[i := g']> (gs s) /\ registered g' = false /\ in_hand g' = [].
Proof.
  intros (Hp & Hwg & Hstop & Hpc & Hrtp & Hb & Hcap) Hg Hr Hl Hh.
  pose proof (nreg_lookup _ _ _ Hg Hr) as Hn.
  assert (Hw : 1 <= wg (tr s)) by (unfold wg_counts in Hwg; lia).
  destruct (leave_step (connected s) (tr s) g Hl Hh Hstop Hpc Hw) as (g' & Hgo & Hr' & Hh').
  pose proof (Go_step_run s i g (leave_alt g) _ g' Hp Hg Hgo) as Hs.
  eexists. exists g'. split; [cbn [run]; rewrite Hs; reflexivity|].
  split; [|split; [|split; [reflexivity|split; [exact Hr'|exact Hh']]]].
  - split; [reflexivity|]. split; [exact (wg_counts_step _ _ _ Hs Hwg)|].
    cbn. unfold pc_is_closed in *. cbn. auto.
  - repeat split.
Qed.

(** [receiveRTP] in its send, with room in the channel: it sends, sees
    the signal and leaves. *)
Lemma leaves_room (s : system) (i : nat) (total : Z) (p : rtp_Packet) :
  winding_down s -> gs s !! i = Some (G_receiveRTP total (RecvSend p)) ->
  (length (chBuf (rtpCh (tr s))) < chCap (rtpCh (tr s)))%nat ->
  exists s' g',
    run [Go i Run; Go i CaseStop] s = Some s' /\
    winding_down s' /\ same_call s s' /\
    gs s' = <[i := g']> (gs s) /\ registered g' = false /\ in_hand g' = [].
Proof.
  intros (Hp & Hwg & Hstop & Hpc & Hrtp & Hb & Hcap) Hg Hroom.
  set (t1 := set_rtpCh (tr s)
               {| chClosed := false; chBuf := chBuf (rtpCh (tr s)) ++ [p];
                  chCap := chCap (rtpCh (tr s)) |}).
  set (s1 := {| tr := t1; connected := connected s; closer := closer s;
                closeLog := closeLog s;
                gs := <[i := G_receiveRTP total RecvSelect]> (gs s);
                panicked := None |}).
  assert (Hs : step (Go i Run) s = Some s1).
  { apply (Go_step_run s i _ Run t1 _ Hp Hg). simpl. unfold chan_send.
    rewrite Hrtp. apply Nat.ltb_lt in Hroom. rewrite Hroom. reflexivity. }
  assert (Hw1 : winding_down s1).
  { split; [reflexivity|]. split; [exact (wg_counts_step _ _ _ Hs Hwg)|].
    cbn. unfold pc_is_closed in *. cbn. rewrite length_app. cbn.
    repeat split; auto; lia. }
  assert (Hg1 : gs s1 !! i = Some (G_receiveRTP total RecvSelect)).
  { cbn. apply list_lookup_insert_eq. exact (lookup_lt_Some _ _ _ Hg). }
  destruct (leaves_simple s1 i _ Hw1 Hg1 eq_refl eq_refl eq_refl)
    as (s' & g' & Hrun & Hw' & (C1 & C2 & C3 & C4) & Hgs & Hr' & Hh').
  exists s', g'. split.
  { cbn [run]. rewrite Hs. cbn [mbind option_bind]. exact Hrun. }
  split; [exact Hw'|]. split; [|split; [|split; [exact Hr'|exact Hh']]].
  - repeat split; [rewrite C1|rewrite C2|rewrite C3|rewrite C4]; reflexivity.
  - rewrite Hgs. cbn. apply list_insert_insert_eq.
Qed.

(** The same with the channel full: the reader takes a packet first. *)
Lemma leaves_full (s : system) (i : nat) (total : Z) (p : rtp_Packet) :
  winding_down s -> gs s !! i = Some (G_receiveRTP total (RecvSend p)) ->
  (chCap (rtpCh (tr s)) <= length (chBuf (rtpCh (tr s))))%nat ->
  exists s' g',
    run [Drain; Go i Run; Go i CaseStop] s = Some s' /\
    winding_down s' /\ same_call s s' /\
    gs s' = <[i := g']> (gs s) /\ registered g' = false /\ in_hand g' = [].
Proof.
  intros (Hp & Hwg & Hstop & Hpc & Hrtp & Hb & Hcap) Hg Hfull.
  destruct (chBuf (rtpCh (tr s))) as [|q rest] eqn:Ebuf; [simpl in Hfull; lia|].
  set (t0 := set_rtpCh (tr s)
               {| chClosed := chClosed (rtpCh (tr s)); chBuf := rest;
                  chCap := chCap (rtpCh (tr s)) |}).
  assert (Hs : step Drain s = Some (with_tr s t0)).
  { unfold step. rewrite Hp. unfold ReadRTP. rewrite Ebuf. reflexivity. }
  assert (Hw0 : winding_down (with_tr s t0)).
  { split; [exact Hp|]. split; [exact (wg_counts_step _ _ _ Hs Hwg)|].
    cbn. unfold pc_is_closed in *. cbn. simpl in Hb.
    repeat split; auto; lia. }
  destruct (leaves_room (with_tr s t0) i total p Hw0 Hg)
    as (s' & g' & Hrun & Hw' & (C1 & C2 & C3 & C4) & Hgs & Hr' & Hh').
  { cbn. simpl in Hb. lia. }
  exists s', g'. split.
  { cbn [run]. rewrite Hs. cbn [mbind option_bind]. exact Hrun. }
  split; [exact Hw'|]. split; [|split; [exact Hgs|split; [exact Hr'|exact Hh']]].
  repeat split; [rewrite C1|rewrite C2|rewrite C3|rewrite C4]; reflexivity.
Qed.

Lemma goroutine_leaves (s : system) (i : nat) (g : goroutine) :
  winding_down s -> gs s !! i = Some g -> registered g = true ->
  can_leave (connected s) g = true ->
  exists acts s' g',
    run acts s = Some s' /\ calls acts = O /\
    (drains acts <= length (in_hand g))%nat /\
    winding_down s' /\ same_call s s' /\
    gs s' = <[i := g']> (gs s) /\ registered g' = false /\ in_hand g' = [].
Proof.
  intros Hw Hg Hr Hl.
  destruct (in_hand g) as [|p l] eqn:Hh.
  - destruct (leaves_simple s i g Hw Hg Hr Hl Hh) as (s' & g' & Hrun & Hrest).
    exists [Go i (leave_alt g)], s', g'.
    split; [exact Hrun|]. split; [reflexivity|]. split; [simpl; lia|exact Hrest].
  - destruct g as [?|? ?|total []|?]; try discriminate Hh.
    injection Hh as <- <-.
    destruct (le_lt_dec (chCap (rtpCh (tr s))) (length (chBuf (rtpCh (tr s)))))
      as [Hfull|Hroom].
    + destruct (leaves_full s i total p0 Hw Hg Hfull) as (s' & g' & Hrun & Hrest).
      exists [Drain; Go i Run; Go i CaseStop], s', g'.
      split; [exact Hrun|]. split; [reflexivity|]. split; [simpl; lia|exact Hrest].
    + destruct (leaves_room s i total p0 Hw Hg Hroom) as (s' & g' & Hrun & Hrest).
      exists [Go i Run; Go i CaseStop], s', g'.
      split; [exact Hrun|]. split; [reflexivity|]. split; [simpl; lia|exact Hrest].
Qed.

(** All registered goroutines leave, one after the other. *)
Lemma goroutines_leave (n : nat) : forall s : system,
  nreg (gs s) = Z.of_nat n -> winding_down s ->
  Forall (fun g => registered g = true -> can_leave (connected s) g = true) (gs s) ->
  exists acts s',
    run acts s = Some s' /\ calls acts = O /\
    (drains acts <= length (in_flight (gs s)))%nat /\
    winding_down s' /\ same_call s s' /\
    Forall (fun g => registered g = false) (gs s').
Proof.
  induction n as [|n IH]; intros s Hn Hw Hall.
  - exists [], s. split; [reflexivity|]. split; [reflexivity|].
    split; [simpl; lia|]. split; [exact Hw|]. split; [repeat split|].
    now apply nreg_zero.
  - destruct (nreg_pos (gs s)) as (i & g & Hg & Hr); [lia|].
    pose proof (Forall_lookup_1 _ _ _ _ Hall Hg Hr) as Hl.
    destruct (goroutine_leaves s i g Hw Hg Hr Hl)
      as (a1 & s1 & g' & R1 & K1 & D1 & W1 & (C1 & C2 & C3 & C4) & G1 & Hr' & Hh').
    destruct (IH s1) as (a2 & s2 & R2 & K2 & D2 & W2 & (E1 & E2 & E3 & E4) & F2).
    + rewrite G1, (nreg_insert _ _ _ _ Hg), Hr, Hr'. lia.
    + exact W1.
    + rewrite G1, C1. apply Forall_insert; [exact Hall|]. rewrite Hr'. discriminate.
    + exists (a1 ++ a2), s2.
      split; [exact (run_app_Some _ _ _ _ _ R1 R2)|].
      split; [rewrite calls_app; lia|].
      split.
      { rewrite drains_app. rewrite G1 in D2.
        pose proof (in_flight_insert (gs s) i g g' Hg) as Hf. rewrite Hh' in Hf.
        simpl in Hf. lia. }
      split; [exact W2|]. split; [|exact F2].
      repeat split; congruence.
Qed.

(** To the wait and through it. *)
Lemma Close_to_wait (s : system) (l : close_loc) :
  panicked s = None -> is_Some (pc (tr s)) -> close_state s ->
  closeLog s = log_of (closer s) -> closer s = Some l ->
  match l with CloseEntry | CloseStop | CloseWait => True | _ => False end ->
  exists acts s',
    run acts s = Some s' /\ calls acts = O /\ drains acts = O /\
    panicked s' = None /\ connected s' = connected s /\ gs s' = gs s /\
    wg (tr s') = wg (tr s) /\ rtpCh (tr s') = rtpCh (tr s) /\
    closer s' = Some CloseWait /\ closeLog s' = [EvPcClose; EvRaiseStop] /\
    chClosed (stopCh (tr s')) = true /\ pc_is_closed (tr s') = true /\
    chClosed (rtpCh (tr s')) = false /\ chClosed (pliCh (tr s')) = false.
Proof.
  intros Hp [c Ec] Hcs Hlog Hc Hl.
  pose proof (close_state_at s Hcs) as Hat. rewrite Hc in Hat, Hlog.
  destruct l; try contradiction; simpl in Hlog.
  - (* before pc.Close() *)
    destruct Hat as (H1 & H2 & H3).
    pose proof (StepClose_run s CloseEntry _ _ _ Hp Hc ltac:(simpl; rewrite Ec; reflexivity))
      as S1.
    match type of S1 with _ = Some ?x => set (s1 := x) in * end.
    pose proof (StepClose_run s1 CloseStop _ _ _ eq_refl eq_refl
                  ltac:(simpl; unfold close_chan; simpl; rewrite H1; reflexivity)) as S2.
    eexists [StepClose; StepClose], _. split.
    { cbn [run]. rewrite S1. cbn [mbind option_bind]. rewrite S2. reflexivity. }
    cbn. rewrite Hlog. unfold pc_is_closed. cbn. auto 20.
  - (* before close(stopCh) *)
    destruct Hat as (H0 & H1 & H2 & H3).
    pose proof (StepClose_run s CloseStop _ _ _ Hp Hc
                  ltac:(simpl; unfold close_chan; rewrite H1; reflexivity)) as S2.
    eexists [StepClose], _. split.
    { cbn [run]. rewrite S2. reflexivity. }
    cbn. rewrite Hlog. unfold pc_is_closed in *. cbn. auto 20.
  - (* in wg.Wait() *)
    destruct Hat as (H0 & H1 & H2 & H3).
    exists [], s. split; [reflexivity|]. auto 20.
Qed.

Lemma Close_from_wait (s : system) :
  panicked s = None -> closer s = Some CloseWait -> wg (tr s) = 0 ->
  chClosed (rtpCh (tr s)) = false -> chClosed (pliCh (tr s)) = false ->
  exists s',
    run [StepClose; StepClose; StepClose] s = Some s' /\
    closer s' = Some CloseReturned /\ panicked s' = None /\
    closeLog s' = closeLog s ++ [EvWaited; EvCloseRtp; EvClosePli] /\
    gs s' = gs s /\ wg (tr s') = 0.
Proof.
  intros Hp Hc Hw H2 H3.
  pose proof (StepClose_run s CloseWait _ _ _ Hp Hc
                ltac:(cbn -[Z.eqb]; rewrite Hw; reflexivity)) as S1.
  match type of S1 with _ = Some ?x => set (s1 := x) in * end.
  pose proof (StepClose_run s1 CloseRtp _ _ _ eq_refl eq_refl
                ltac:(simpl; unfold close_chan; rewrite H2; reflexivity)) as S2.
  match type of S2 with _ = Some ?x => set (s2 := x) in * end.
  pose proof (StepClose_run s2 ClosePli _ _ _ eq_refl eq_refl
                ltac:(simpl; unfold close_chan; rewrite H3; reflexivity)) as S3.
  eexists. split.
  { cbn [run]. rewrite S1. cbn [mbind option_bind]. rewrite S2.
    cbn [mbind option_bind]. rewrite S3. reflexivity. }
  cbn. rewrite <- !app_assoc. auto.
Qed.

Lemma Close_after_wait (s : system) (l : close_loc) :
  panicked s = None -> close_state s -> closeLog s = log_of (closer s) ->
  closer s = Some l ->
  match l with CloseRtp | ClosePli => True | _ => False end ->
  exists acts s',
    run acts s = Some s' /\ calls acts = O /\ drains acts = O /\
    closer s' = Some CloseReturned /\ panicked s' = None /\
    closeLog s' = close_order.
Proof.
  intros Hp Hcs Hlog Hc Hl.
  pose proof (close_state_at s Hcs) as Hat. rewrite Hc in Hat, Hlog.
  destruct l; try contradiction; simpl in Hlog; destruct Hat as (H0 & H1 & H2 & H3).
  - pose proof (StepClose_run s CloseRtp _ _ _ Hp Hc
                  ltac:(simpl; unfold close_chan; rewrite H2; reflexivity)) as S2.
    match type of S2 with _ = Some ?x => set (s2 := x) in * end.
    pose proof (StepClose_run s2 ClosePli _ _ _ eq_refl eq_refl
                  ltac:(simpl; unfold close_chan; rewrite H3; reflexivity)) as S3.
    eexists [StepClose; StepClose], _. split.
    { cbn [run]. rewrite S2. cbn [mbind option_bind]. rewrite S3. reflexivity. }
    cbn. rewrite Hlog. auto.
  - pose proof (StepClose_run s ClosePli _ _ _ Hp Hc
                  ltac:(simpl; unfold close_chan; rewrite H3; reflexivity)) as S3.
    eexists [StepClose], _. split.
    { cbn [run]. rewrite S3. reflexivity. }
    cbn. rewrite Hlog. auto.
Qed.

(** A first call of [Close] that has not returned can run to its end,
    if every registered goroutine can leave. *)
Lemma Close_finishes (s : system) (l : close_loc) :
  panicked s = None -> wg_counts s -> is_Some (pc (tr s)) -> close_state s ->
  closeLog s = log_of (closer s) -> closer s = Some l -> l <> CloseReturned ->
  (length (chBuf (rtpCh (tr s))) <= chCap (rtpCh (tr s)))%nat ->
  (0 < chCap (rtpCh (tr s)))%nat ->
  Forall (fun g => registered g = true -> can_leave (connected s) g = true) (gs s) ->
  exists acts s',
    run acts s = Some s' /\ calls acts = O /\
    (drains acts <= length (in_flight (gs s)))%nat /\
    closer s' = Some CloseReturned /\ panicked s' = None /\
    closeLog s' = close_order /\
    match l with
    | CloseRtp | ClosePli => True
    | _ => wg (tr s') = 0 /\ Forall (fun g => registered g = false) (gs s')
    end.
Proof.
  intros Hp Hwg Hpc Hcs Hlog Hc Hl Hb Hcap Hall.
  assert (Hcase : match l with CloseEntry | CloseStop | CloseWait => True | _ => False end
                  \/ match l with CloseRtp | ClosePli => True | _ => False end)
    by (destruct l; auto; contradiction).
  destruct Hcase as [Hbefore|Hafter].
  - destruct (Close_to_wait s l Hp Hpc Hcs Hlog Hc Hbefore)
      as (a1 & s1 & R1 & K1 & D1 & P1 & U1 & G1 & W1 & B1 & C1 & L1 & F1 & F2 & F3 & F4).
    assert (Hw1 : winding_down s1).
    { split; [exact P1|]. split; [unfold wg_counts in *; congruence|].
      rewrite <- B1 in Hb, Hcap. auto. }
    destruct (goroutines_leave (Z.to_nat (nreg (gs s1))) s1)
      as (a2 & s2 & R2 & K2 & D2 & W2 & (E1 & E2 & E3 & E4) & A2).
    { pose proof (nreg_nonneg (gs s1)). lia. }
    { exact Hw1. }
    { rewrite G1, U1. exact Hall. }
    destruct W2 as (P2 & Hwg2 & T1 & T2 & T3 & _).
    assert (Hz : wg (tr s2) = 0).
    { unfold wg_counts in Hwg2. rewrite Hwg2.
      clear -A2. induction A2 as [|g gl Hg _ IH]; simpl; [reflexivity|].
      rewrite Hg, IH. reflexivity. }
    destruct (Close_from_wait s2 P2) as (s3 & R3 & C3 & P3 & L3 & G3 & W3).
    { congruence. }
    { exact Hz. }
    { exact T3. }
    { rewrite E4. exact F4. }
    exists (a1 ++ a2 ++ [StepClose; StepClose; StepClose]), s3.
    split; [exact (run_app_Some _ _ _ _ _ R1 (run_app_Some _ _ _ _ _ R2 R3))|].
    split; [rewrite !calls_app, K1, K2; reflexivity|].
    split; [rewrite !drains_app, D1; rewrite G1 in D2; simpl; lia|].
    split; [exact C3|]. split; [exact P3|].
    split; [rewrite L3, E3, L1; reflexivity|].
    assert (Hres : wg (tr s3) = 0 /\ Forall (fun g => registered g = false) (gs s3))
      by (rewrite G3; auto).
    destruct l; auto; contradiction.
  - destruct (Close_after_wait s l Hp Hcs Hlog Hc Hafter)
      as (a & s' & R & K & D & C & P & L).
    exists a, s'. split; [exact R|]. split; [exact K|]. split; [lia|].
    split; [exact C|]. split; [exact P|]. split; [exact L|].
    destruct l; auto; contradiction.
Qed.

(** X10.  On a negotiated transport whose registered goroutines all stand
    at their [select], in their send on the packet channel, or inside a
    read on a connection that has come up (none is parked in the send on
    [pliCh], none reads on a connection that never came up), a call of
    [Close] can run to its end: there is a schedule with exactly one
    call in which nothing panics, [Close] returns after its five
    statements in order, the wait group is at zero and every goroutine
    that had registered has returned.  The reader of the packet channel
    takes at most one packet for each goroutine that holds one. *)
Theorem Close_completes (s0 : system) :
  live s0 -> wg_counts s0 ->
  (length (chBuf (rtpCh (tr s0))) <= chCap (rtpCh (tr s0)))%nat ->
  (0 < chCap (rtpCh (tr s0)))%nat ->
  Forall (fun g => registered g = true -> can_leave (connected s0) g = true) (gs s0) ->
  exists acts s,
    run acts s0 = Some s /\ calls acts = 1%nat /\
    (drains acts <= length (in_flight (gs s0)))%nat /\
    closer s = Some CloseReturned /\ panicked s = None /\
    closeLog s = close_order /\ wg (tr s) = 0 /\
    Forall (fun g => registered g = false) (gs s).
Proof.
  intros Hlive Hwg Hb Hcap Hall.
  pose proof (live_close_state s0 Hlive) as Hcs.
  destruct Hlive as (Hc & Hlog & Hp & (c & Ec & Hcc) & H1 & H2 & H3).
  set (s1 := {| tr := tr s0; connected := connected s0; closer := Some CloseEntry;
                closeLog := []; gs := gs s0; panicked := None |}).
  assert (E : step CallClose s0 = Some s1) by (unfold step; now rewrite Hp, Hc).
  assert (Hpc1 : is_Some (pc (tr s1))) by (simpl; eauto).
  assert (Hcs1 : close_state s1) by (revert Hcs; unfold close_state; now rewrite Hc).
  assert (Hne : CloseEntry <> CloseReturned) by discriminate.
  destruct (Close_finishes s1 CloseEntry eq_refl Hwg Hpc1 Hcs1 eq_refl eq_refl Hne
              Hb Hcap Hall)
    as (acts & s & R & K & D & C & P & L & W & F).
  exists (CallClose :: acts), s. split; [simpl; rewrite E; exact R|].
  split; [simpl; now rewrite K|]. auto 10.
Qed.

Lemma live_full_system : live full_system.
Proof.
  unfold live. simpl. repeat split; try reflexivity.
  exists sample_pc. split; reflexivity.
Qed.

Lemma Close_completes_witness :
  (exists acts s,
     run acts sub_system = Some s /\ calls acts = 1%nat /\ drains acts = O /\
     closer s = Some CloseReturned /\ panicked s = None /\
     closeLog s = close_order /\ wg (tr s) = 0) /\
  (exists acts s,
     run acts full_system = Some s /\ calls acts = 1%nat /\
     (drains acts <= 1)%nat /\
     closer s = Some CloseReturned /\ panicked s = None).
Proof.
  split.
  - destruct (Close_completes sub_system live_sub_system eq_refl)
      as (acts & s & R & K & D & C & P & L & W & _).
    + simpl. lia.
    + simpl. lia.
    + repeat constructor.
    + exists acts, s. simpl in D. repeat (split; [assumption || lia|]). exact W.
  - destruct (Close_completes full_system live_full_system eq_refl)
      as (acts & s & R & K & D & C & P & _).
    + apply Nat.leb_le. vm_compute. reflexivity.
    + apply Nat.ltb_lt. vm_compute. reflexivity.
    + repeat constructor.
    + exists acts, s. simpl in D. auto.
Defined.
Lemma step_rtp_bound (a : action) (s s' : system) :
  step a s = Some s' ->
  (length (chBuf (rtpCh (tr s))) <= chCap (rtpCh (tr s)))%nat ->
  (length (chBuf (rtpCh (tr s'))) <= chCap (rtpCh (tr s')))%nat /\
  chCap (rtpCh (tr s')) = chCap (rtpCh (tr s)).
Proof.
  unfold step. destruct (panicked s) eqn:Hp; [discriminate|].
  destruct a as [| |i al|i j| |].
  - destruct (closer s) as [[]|]; try discriminate; intros [= <-]; simpl; auto.
  - destruct (closer s) as [l|] eqn:Hl; [|discriminate]. simpl.
    destruct (close_step (tr s) l) as [r|] eqn:Hr; [|discriminate]. simpl.
    intros [= <-] H. destruct r as [[[t l'] ev]|msg]; simpl; [|auto].
    revert Hr. unfold close_step, close_chan.
    destruct l; case_ifs; simpl; try discriminate; intros [= <- <- <-]; simpl; auto.
  - destruct (gs s !! i) as [g|] eqn:Hg; [|discriminate]. simpl.
    destruct (go_step (connected s) (tr s) g al) as [r|] eqn:Hr; [|discriminate]. simpl.
    intros [= <-] H. destruct r as [[t g']|msg]; simpl; [|auto].
    revert Hr.
    destruct g as [l|ssrc l|total l|l]; destruct l; destruct al; simpl;
      try discriminate;
      unfold returning, wg_Done, wg_Add, t_WriteRTCP, chan_send;
      case_ifs; simpl; try discriminate; intros [= <- <-]; simpl; auto.
    rewrite length_app. simpl.
    match goal with E : (_ <? _)%nat = true |- _ => apply Nat.ltb_lt in E end.
    split; [lia|reflexivity].
  - destruct (gs s !! i) as [[[]| | |]|] eqn:Hi; try discriminate.
    destruct (gs s !! j) as [[|ssrc []| |]|]; try discriminate.
    destruct (chClosed (pliCh (tr s))); [discriminate|].
    intros [= <-] H. unfold t_WriteRTCP. destruct (pc (tr s)); simpl; auto.
  - unfold ReadRTP. destruct (chBuf (rtpCh (tr s))) eqn:Eb;
      [destruct (chClosed (rtpCh (tr s)))|]; try discriminate.
    intros [= <-] H. simpl in *. split; [lia|reflexivity].
  - destruct (pc (tr s)) as [c|]; [|discriminate].
    destruct (connected s || pcClosed c); [discriminate|].
    intros [= <-] H. simpl. auto.
Qed.

Lemma run_rtp_bound (acts : list action) : forall s s' : system,
  run acts s = Some s' ->
  (length (chBuf (rtpCh (tr s))) <= chCap (rtpCh (tr s)))%nat ->
  (length (chBuf (rtpCh (tr s'))) <= chCap (rtpCh (tr s')))%nat /\
  chCap (rtpCh (tr s')) = chCap (rtpCh (tr s)).
Proof.
  induction acts as [|a acts IH]; simpl; intros s s'.
  - intros [= <-]. auto.
  - destruct (step a s) as [s1|] eqn:Hs; [|discriminate]. simpl.
    intros Hrun H. destruct (step_rtp_bound a s s1 Hs H) as (H1 & H2).
    destruct (IH s1 s' Hrun H1) as (G1 & G2). split; [exact G1|congruence].
Qed.

Lemma step_chCap (a : action) (s s' : system) :
  step a s = Some s' -> chCap (rtpCh (tr s')) = chCap (rtpCh (tr s)).
Proof.
  unfold step. destruct (panicked s) eqn:Hp; [discriminate|].
  destruct a as [| |i al|i j| |].
  - destruct (closer s) as [[]|]; try discriminate; intros [= <-]; reflexivity.
  - destruct (closer s) as [l|] eqn:Hl; [|discriminate]. simpl.
    destruct (close_step (tr s) l) as [r|] eqn:Hr; [|discriminate]. simpl.
    intros [= <-]. destruct r as [[[t l'] ev]|msg]; simpl; [|reflexivity].
    revert Hr. unfold close_step, close_chan.
    destruct l; case_ifs; simpl; try discriminate; intros [= <- <- <-]; reflexivity.
  - destruct (gs s !! i) as [g|] eqn:Hg; [|discriminate]. simpl.
    destruct (go_step (connected s) (tr s) g al) as [r|] eqn:Hr; [|discriminate]. simpl.
    intros [= <-]. destruct r as [[t g']|msg]; simpl; [|reflexivity].
    revert Hr.
    destruct g as [l|ssrc l|total l|l]; destruct l; destruct al; simpl;
      try discriminate;
      unfold returning, wg_Done, wg_Add, t_WriteRTCP, chan_send;
      case_ifs; simpl; try discriminate; intros [= <- <-]; reflexivity.
  - destruct (gs s !! i) as [[[]| | |]|] eqn:Hi; try discriminate.
    destruct (gs s !! j) as [[|ssrc []| |]|]; try discriminate.
    destruct (chClosed (pliCh (tr s))); [discriminate|].
    intros [= <-]. unfold t_WriteRTCP. destruct (pc (tr s)); reflexivity.
  - unfold ReadRTP. destruct (chBuf (rtpCh (tr s))) eqn:Eb;
      [destruct (chClosed (rtpCh (tr s)))|]; try discriminate.
    intros [= <-]. reflexivity.
  - destruct (pc (tr s)) as [c|]; [|discriminate].
    destruct (connected s || pcClosed c); [discriminate|].
    intros [= <-]. reflexivity.
Qed.

Lemma run_chCap (acts : list action) : forall s s' : system,
  run acts s = Some s' -> chCap (rtpCh (tr s')) = chCap (rtpCh (tr s)).
Proof.
  induction acts as [|a acts IH]; simpl; intros s s'.
  - now intros [= <-].
  - destruct (step a s) as [s1|] eqn:Hs; [|discriminate]. simpl.
    intros Hrun. rewrite (IH s1 s' Hrun). now apply (step_chCap a).
Qed.

(** What a state looks like in which [Close] waits in [wg.Wait()] and
    nothing can move. *)
Lemma stuck_waiting (s : system) :
  close_inv s -> wg_counts s -> (0 < chCap (rtpCh (tr s)))%nat ->
  stuck s -> panicked s = None -> closer s = Some CloseWait ->
  Forall (fun g => registered g = true -> parked (connected s) g = true) (gs s) /\
  exists (i : nat) g, gs s !! i = Some g /\ registered g = true.
Proof.
  intros (_ & Htd & _ & _ & Hcl) Hwg Hcap Hstuck Hp Hc.
  rewrite Hc in Hcl. specialize (Htd Hcl).
  unfold stop_raised in Hcl. unfold torn_down in Htd.
  split.
  - apply Forall_lookup_2. intros i g Hg Hr.
    assert (Hgo : forall al, go_step (connected s) (tr s) g al = None).
    { intros al. specialize (Hstuck (Go i al)). unfold step in Hstuck.
      rewrite Hp, Hg in Hstuck. simpl in Hstuck.
      destruct (go_step (connected s) (tr s) g al); [discriminate|reflexivity]. }
    destruct g as [l|ssrc l|total l|l]; destruct l; simpl in Hr; try discriminate.
    + specialize (Hgo CaseTicker). discriminate.
    + reflexivity.
    + specialize (Hgo CaseStop). simpl in Hgo. rewrite Hcl in Hgo. discriminate.
    + specialize (Hgo CaseTicker). discriminate.
    + specialize (Hgo ReadEOF). simpl in *. rewrite Htd in Hgo.
      destruct (connected s); [discriminate|reflexivity].
    + exfalso. specialize (Hgo Run). simpl in Hgo. unfold chan_send in Hgo.
      destruct (chClosed (rtpCh (tr s))); [discriminate|].
      destruct (length (chBuf (rtpCh (tr s))) <? chCap (rtpCh (tr s)))%nat eqn:E;
        [discriminate|]. apply Nat.ltb_ge in E.
      specialize (Hstuck Drain). unfold step in Hstuck. rewrite Hp in Hstuck.
      unfold ReadRTP in Hstuck.
      destruct (chBuf (rtpCh (tr s))); [simpl in E; lia|discriminate].
    + specialize (Hgo CaseStop). simpl in Hgo. rewrite Hcl in Hgo. discriminate.
    + specialize (Hgo ReadEOF). simpl in *. rewrite Htd in Hgo.
      destruct (connected s); [discriminate|reflexivity].
  - assert (Hw : wg (tr s) <> 0).
    { intros E. specialize (Hstuck StepClose). unfold step in Hstuck.
      rewrite Hp, Hc in Hstuck. cbn -[Z.eqb] in Hstuck. rewrite E in Hstuck.
      discriminate. }
    unfold wg_counts in Hwg. pose proof (nreg_nonneg (gs s)).
    apply nreg_pos. lia.
Qed.

Lemma stuck_closer (s : system) :
  stuck s -> panicked s = None -> closer s = Some CloseWait.
Proof.
  intros Hstuck Hp.
  destruct (closer s) as [[]|] eqn:Hc; auto; exfalso.
  - specialize (Hstuck StepClose). unfold step in Hstuck. rewrite Hp, Hc in Hstuck.
    simpl in Hstuck. discriminate.
  - specialize (Hstuck StepClose). unfold step in Hstuck. rewrite Hp, Hc in Hstuck.
    simpl in Hstuck. discriminate.
  - specialize (Hstuck StepClose). unfold step in Hstuck. rewrite Hp, Hc in Hstuck.
    simpl in Hstuck. discriminate.
  - specialize (Hstuck StepClose). unfold step in Hstuck. rewrite Hp, Hc in Hstuck.
    simpl in Hstuck. discriminate.
  - specialize (Hstuck CallClose). unfold step in Hstuck. rewrite Hp, Hc in Hstuck.
    discriminate.
  - specialize (Hstuck CallClose). unfold step in Hstuck. rewrite Hp, Hc in Hstuck.
    discriminate.
Qed.

(** One parked goroutine while [Close] waits for it: nothing can
    move. *)
Lemma parked_is_stuck (s : system) (g : goroutine) :
  panicked s = None -> closer s = Some CloseWait -> wg (tr s) = 1 ->
  gs s = [g] -> parked (connected s) g = true ->
  pc_is_closed (tr s) = true -> chClosed (pliCh (tr s)) = false ->
  chBuf (rtpCh (tr s)) = [] -> chClosed (rtpCh (tr s)) = false ->
  stuck s.
Proof.
  intros Hp Hc Hw Hg Hpark Hpc Hpli Hbuf Hrtp a. unfold step. rewrite Hp.
  destruct a as [| |i al|i j| |].
  - now rewrite Hc.
  - rewrite Hc. cbn -[Z.eqb]. now rewrite Hw.
  - rewrite Hg. destruct i as [|i]; [|reflexivity]. simpl.
    destruct g as [l|ssrc l|total l|l]; destruct l; simpl in Hpark; try discriminate;
      apply negb_true_iff in Hpark || idtac; rewrite ?Hpark;
      destruct al; simpl; rewrite ?Hpli; reflexivity.
  - rewrite Hg. destruct i as [|i]; [|reflexivity]. simpl.
    destruct g as [[]| | |]; try reflexivity. destruct j as [|j]; reflexivity.
  - unfold ReadRTP. now rewrite Hbuf, Hrtp.
  - unfold pc_is_closed in Hpc. destruct (pc (tr s)) as [c|]; [|reflexivity].
    rewrite Hpc. now rewrite orb_true_r.
Qed.

(** X11.  The standstills of the transport: in a run from a negotiated
    transport (packet channel with room for at least one packet, and a
    reader that takes what is in it), if nothing has panicked and no
    action is enabled, then [Close] waits in [wg.Wait()] for at least one
    registered goroutine, and every goroutine still registered is
    parked: a [sendPLI] in its send on [pliCh], or a [receiveRTP] or
    [subReadRTCP] inside a read on a connection that never came up. *)
Theorem standstill_is_parked (acts : list action) (s0 s : system) :
  live s0 -> wg_counts s0 -> (0 < chCap (rtpCh (tr s0)))%nat ->
  run acts s0 = Some s -> stuck s -> panicked s = None ->
  closer s = Some CloseWait /\
  (exists (i : nat) g, gs s !! i = Some g /\ registered g = true) /\
  Forall (fun g => registered g = true -> parked (connected s) g = true) (gs s).
Proof.
  intros Hlive Hwg Hcap Hrun Hstuck Hp.
  pose proof (stuck_closer s Hstuck Hp) as Hc. split; [exact Hc|].
  destruct (stuck_waiting s) as (Hall & Hex); auto.
  - apply (close_inv_run acts s0 s Hrun). now apply live_close_inv.
  - now apply (wg_counts_run acts s0 s Hrun).
  - now rewrite (run_chCap acts s0 s Hrun).
Qed.

Lemma live_lonely_system : live lonely_system.
Proof.
  unfold live. simpl. repeat split; try reflexivity.
  exists sample_pc. split; reflexivity.
Qed.

Lemma live_unconnected_sub_system : live unconnected_sub_system.
Proof.
  unfold live. simpl. repeat split; try reflexivity.
  exists sample_pc. split; reflexivity.
Qed.

Lemma standstill_is_parked_witness :
  (exists s,
     run [CallClose; StepClose; StepClose] lonely_system = Some s /\
     stuck s /\ closer s = Some CloseWait /\
     gs s = [G_sendPLI PliSend] /\
     Forall (fun g => registered g = true -> parked (connected s) g = true) (gs s)) /\
  (exists s,
     run [CallClose; StepClose; StepClose] unconnected_sub_system = Some s /\
     stuck s /\ closer s = Some CloseWait /\
     gs s = [G_subReadRTCP SubRead] /\ connected s = false /\
     Forall (fun g => registered g = true -> parked (connected s) g = true) (gs s)).
Proof.
  split.
  - assert (Hsched : exists s,
             run [CallClose; StepClose; StepClose] lonely_system = Some s)
      by (vm_compute; eexists; reflexivity).
    destruct Hsched as [s E].
    exists s. split; [exact E|].
    assert (Hcap : (0 < chCap (rtpCh (tr lonely_system)))%nat) by (simpl; lia).
    assert (Hp : panicked s = None) by (revert E; vm_compute; now intros [= <-]).
    assert (Hg : gs s = [G_sendPLI PliSend]) by (revert E; vm_compute; now intros [= <-]).
    assert (Hs : stuck s).
    { apply (parked_is_stuck s (G_sendPLI PliSend)); revert E; vm_compute;
        now intros [= <-]. }
    split; [exact Hs|].
    destruct (standstill_is_parked _ lonely_system s live_lonely_system eq_refl
                Hcap E Hs Hp) as (H1 & _ & H3).
    split; [exact H1|]. split; [exact Hg|exact H3].
  - assert (Hsched : exists s,
             run [CallClose; StepClose; StepClose] unconnected_sub_system = Some s)
      by (vm_compute; eexists; reflexivity).
    destruct Hsched as [s E].
    exists s. split; [exact E|].
    assert (Hcap : (0 < chCap (rtpCh (tr unconnected_sub_system)))%nat) by (simpl; lia).
    assert (Hp : panicked s = None) by (revert E; vm_compute; now intros [= <-]).
    assert (Hg : gs s = [G_subReadRTCP SubRead])
      by (revert E; vm_compute; now intros [= <-]).
    assert (Hu : connected s = false) by (revert E; vm_compute; now intros [= <-]).
    assert (Hs : stuck s).
    { apply (parked_is_stuck s (G_subReadRTCP SubRead)); revert E; vm_compute;
        now intros [= <-]. }
    split; [exact Hs|].
    destruct (standstill_is_parked _ unconnected_sub_system s
                live_unconnected_sub_system eq_refl Hcap E Hs Hp) as (H1 & _ & H3).
    split; [exact H1|]. split; [exact Hg|]. split; [exact Hu|exact H3].
Defined.

Lemma step_no_sendPLI (a : action) (s s' : system) :
  step a s = Some s' -> Forall (fun g => is_sendPLI g = false) (gs s) ->
  Forall (fun g => is_sendPLI g = false) (gs s').
Proof.
  unfold step. destruct (panicked s) eqn:Hp; [discriminate|].
  destruct a as [| |i al|i j| |].
  - destruct (closer s) as [[]|]; try discriminate; intros [= <-]; simpl; auto.
  - destruct (closer s) as [l|] eqn:Hl; [|discriminate]. simpl.
    destruct (close_step (tr s) l) as [r|] eqn:Hr; [|discriminate]. simpl.
    intros [= <-]. destruct r as [[[t l'] ev]|msg]; simpl; auto.
  - destruct (gs s !! i) as [g|] eqn:Hg; [|discriminate]. simpl.
    destruct (go_step (connected s) (tr s) g al) as [r|] eqn:Hr; [|discriminate]. simpl.
    intros [= <-] H. destruct r as [[t g']|msg]; simpl; [|exact H].
    apply Forall_insert; [exact H|].
    pose proof (Forall_lookup_1 _ _ _ _ H Hg) as Hsub. simpl in Hsub.
    revert Hr.
    destruct g as [l|ssrc l|total l|l]; try discriminate;
      destruct l; destruct al; simpl; try discriminate;
      unfold returning, wg_Done, wg_Add, t_WriteRTCP, chan_send;
      case_ifs; simpl; try discriminate;
      intros [= <- <-]; reflexivity.
  - destruct (gs s !! i) as [[[]| | |]|] eqn:Hi; try discriminate.
    destruct (gs s !! j) as [[|ssrc []| |]|]; try discriminate.
    destruct (chClosed (pliCh (tr s))); [discriminate|].
    intros _ H. pose proof (Forall_lookup_1 _ _ _ _ H Hi) as Hsub. discriminate.
  - destruct (ReadRTP (tr s)) as [[[[p|] e] t]|]; try discriminate.
    intros [= <-]. simpl. auto.
  - destruct (pc (tr s)) as [c|]; [|discriminate].
    destruct (connected s || pcClosed c); [discriminate|].
    intros [= <-]. simpl. auto.
Qed.

Lemma run_no_sendPLI (acts : list action) : forall s s' : system,
  run acts s = Some s' -> Forall (fun g => is_sendPLI g = false) (gs s) ->
  Forall (fun g => is_sendPLI g = false) (gs s').
Proof.
  induction acts as [|a acts IH]; simpl; intros s s'.
  - now intros [= <-].
  - destruct (step a s) as [s1|] eqn:Hs; [|discriminate]. simpl.
    intros Hrun H. apply (IH s1 s' Hrun). now apply (step_no_sendPLI a s).
Qed.

Lemma run_pc (acts : list action) : forall s s' : system,
  run acts s = Some s' -> is_Some (pc (tr s)) -> is_Some (pc (tr s')).
Proof.
  induction acts as [|a acts IH]; simpl; intros s s'.
  - now intros [= <-].
  - destruct (step a s) as [s1|] eqn:Hs; [|discriminate]. simpl.
    intros Hrun H. apply (IH s1 s' Hrun). now apply (step_pc a s).
Qed.

Lemma can_leave_without_sendPLI (g : goroutine) :
  is_sendPLI g = false -> registered g = true -> can_leave true g = true.
Proof.
  destruct g as [l|ssrc l|total l|l]; destruct l; simpl; auto; discriminate.
Qed.

(** X12.  Without a [sendPLI] goroutine (a subscriber, or a publisher
    that announced neither video nor screen) and on a connection that
    has come up, a first call of [Close] is never blocked for good: in
    every run from a negotiated transport, from every state in which
    [Close] has been called and has not returned and nothing has
    panicked, there is a continuation without a further call in which
    [Close] returns, with its five effects in order and without a panic.
    In it the reader of the packet channel takes at most one packet for
    each goroutine that holds one: none at all if no [receiveRTP] stands
    in its send. *)
Theorem Close_never_blocked_without_sendPLI
    (acts : list action) (s0 s : system) (l : close_loc) :
  live s0 -> wg_counts s0 ->
  (length (chBuf (rtpCh (tr s0))) <= chCap (rtpCh (tr s0)))%nat ->
  (0 < chCap (rtpCh (tr s0)))%nat ->
  Forall (fun g => is_sendPLI g = false) (gs s0) ->
  run acts s0 = Some s -> (calls acts <= 1)%nat -> panicked s = None ->
  connected s = true ->
  closer s = Some l -> l <> CloseReturned ->
  exists rest s',
    run rest s = Some s' /\ calls rest = O /\
    (drains rest <= length (in_flight (gs s)))%nat /\
    closer s' = Some CloseReturned /\ panicked s' = None /\
    closeLog s' = close_order.
Proof.
  intros Hlive Hwg Hb Hcap Hsub Hrun Hcalls Hp Hup Hc Hl.
  pose proof (close_inv_run acts s0 s Hrun (live_close_inv s0 Hlive)) as (Hlog & _).
  pose proof (close_state_run acts s0 s Hlive Hrun Hcalls) as Hcs.
  pose proof (wg_counts_run acts s0 s Hrun Hwg) as Hwg'.
  pose proof (run_no_sendPLI acts s0 s Hrun Hsub) as Hsub'.
  destruct (run_rtp_bound acts s0 s Hrun Hb) as (Hb' & Hcap').
  assert (Hpc : is_Some (pc (tr s))).
  { apply (run_pc acts s0 s Hrun). destruct Hlive as (_ & _ & _ & (c & -> & _) & _).
    eauto. }
  assert (Hall : Forall (fun g => registered g = true -> can_leave (connected s) g = true)
                   (gs s)).
  { rewrite Hup. eapply Forall_impl; [exact Hsub'|].
    intros g. apply can_leave_without_sendPLI. }
  rewrite <- Hcap' in Hcap.
  destruct (Close_finishes s l Hp Hwg' Hpc Hcs Hlog Hc Hl Hb' Hcap Hall)
    as (rest & s' & R & K & D & C & P & L & _).
  exists rest, s'. auto 10.
Qed.

Lemma Close_never_blocked_without_sendPLI_witness :
  exists s rest s',
    run [Go 0 CaseDefault; CallClose; StepClose; StepClose] sub_system = Some s /\
    closer s = Some CloseWait /\
    run rest s = Some s' /\ calls rest = O /\ drains rest = O /\
    closer s' = Some CloseReturned /\ panicked s' = None.
Proof.
  assert (Hsched : exists s,
              run [Go 0 CaseDefault; CallClose; StepClose; StepClose] sub_system = Some s)
    by (vm_compute; eexists; reflexivity).
  destruct Hsched as [s E].
  assert (Hsub : Forall (fun g => is_sendPLI g = false) (gs sub_system))
    by (repeat constructor).
  assert (Hb : (length (chBuf (rtpCh (tr sub_system))) <= chCap (rtpCh (tr sub_system)))%nat)
    by (simpl; lia).
  assert (Hcap : (0 < chCap (rtpCh (tr sub_system)))%nat) by (simpl; lia).
  assert (Hk : (calls [Go 0 CaseDefault; CallClose; StepClose; StepClose] <= 1)%nat)
    by (simpl; lia).
  assert (Hp : panicked s = None) by (revert E; vm_compute; now intros [= <-]).
  assert (Hu : connected s = true) by (revert E; vm_compute; now intros [= <-]).
  assert (Hc : closer s = Some CloseWait) by (revert E; vm_compute; now intros [= <-]).
  assert (Hf : in_flight (gs s) = []) by (revert E; vm_compute; now intros [= <-]).
  assert (Hl : CloseWait <> CloseReturned) by discriminate.
  destruct (Close_never_blocked_without_sendPLI _ sub_system s CloseWait live_sub_system
              eq_refl Hb Hcap Hsub E Hk Hp Hu Hc Hl)
    as (rest & s' & R & K & D & C & P & _).
  exists s, rest, s'. rewrite Hf in D. simpl in D.
  split; [exact E|]. split; [exact Hc|]. split; [exact R|]. split; [exact K|].
  split; [lia|]. split; [exact C|exact P].
Defined.
(* ===================================================================== *)
(** * Properties: the track table of a subscriber *)
(* ===================================================================== *)

Section AnswerSubscribeFacts.

Variable pc_NewTrack : Z -> Z -> string -> string -> option Track.

Lemma AnswerSubscribe_skip (l : list (Z * Z)) : forall (m : gmap Z Track) (k : Z),
  (forall v, (k, v) ∉ l) -> foldl (AnswerSubscribe_one pc_NewTrack) m l !! k = m !! k.
Proof.
  induction l as [|[k' v'] l IH]; intros m k Hk; simpl; [reflexivity|].
  rewrite IH.
  - destruct (pc_NewTrack v' k' (track_id v') "pion") as [tr|]; [|reflexivity].
    apply lookup_insert_ne. intros ->. apply (Hk v'). left.
  - intros v Hin. apply (Hk v). now right.
Qed.

Lemma AnswerSubscribe_visit (l : list (Z * Z)) : forall (m : gmap Z Track) (k v : Z),
  NoDup l.*1 -> (k, v) ∈ l ->
  foldl (AnswerSubscribe_one pc_NewTrack) m l !! k =
    match pc_NewTrack v k (track_id v) "pion" with
    | Some tr => Some tr
    | None => m !! k
    end.
Proof.
  induction l as [|[k' v'] l IH]; intros m k v Hnd Hin; [now apply elem_of_nil in Hin|].
  simpl in Hnd. apply NoDup_cons in Hnd. destruct Hnd as (Hk' & Hnd).
  apply elem_of_cons in Hin. destruct Hin as [[= <- <-]|Hin]; simpl.
  - rewrite AnswerSubscribe_skip.
    + destruct (pc_NewTrack v k (track_id v) "pion") as [tr|]; [|reflexivity].
      apply lookup_insert_eq.
    + intros v0 Hin. apply Hk'. apply list_elem_of_fmap. exists (k, v0). auto.
  - rewrite (IH _ k v Hnd Hin).
    destruct (pc_NewTrack v k (track_id v) "pion") as [tr|]; [reflexivity|].
    destruct (pc_NewTrack v' k' (track_id v') "pion") as [tr'|]; [|reflexivity].
    apply lookup_insert_ne. intros ->. apply Hk'.
    apply list_elem_of_fmap. exists (k, v). auto.
Qed.

Lemma AnswerSubscribe_lookup (t : WebRTCTransport) (ssrcPT : gmap Z Z)
    (visited : list (Z * Z)) (ssrc : Z) :
  visited ≡ₚ map_to_list ssrcPT ->
  track (AnswerSubscribe_tracks pc_NewTrack t visited) !! ssrc =
    match ssrcPT !! ssrc with
    | Some pt =>
        match pc_NewTrack pt ssrc (track_id pt) "pion" with
        | Some tr => Some tr
        | None => track t !! ssrc
        end
    | None => track t !! ssrc
    end.
Proof.
  intros Hperm. unfold AnswerSubscribe_tracks. simpl.
  assert (Hnd : NoDup visited.*1).
  { rewrite Hperm. apply NoDup_fst_map_to_list. }
  destruct (ssrcPT !! ssrc) as [pt|] eqn:E.
  - apply AnswerSubscribe_visit; [exact Hnd|].
    rewrite Hperm. now apply elem_of_map_to_list.
  - apply AnswerSubscribe_skip. intros v Hin. rewrite Hperm in Hin.
    apply elem_of_map_to_list in Hin. congruence.
Qed.

End AnswerSubscribeFacts.

(** X13.  The track table [AnswerSubscribe] builds: whatever the order
    in which [range] visits the publisher's SSRC table, the entry of an
    SSRC afterwards is the track pion made for it (asked for as "video"
    for VP8, VP9 and H264, as "audio" for every other payload type);
    where pion made none, and for an SSRC the table does not announce,
    the entry is what it was before. *)
Theorem AnswerSubscribe_track_table
    (pc_NewTrack : Z -> Z -> string -> string -> option Track)
    (t : WebRTCTransport) (ssrcPT : gmap Z Z) (visited : list (Z * Z)) (ssrc : Z) :
  visited ≡ₚ map_to_list ssrcPT ->
  track (AnswerSubscribe_tracks pc_NewTrack t visited) !! ssrc =
    match ssrcPT !! ssrc with
    | Some pt =>
        match pc_NewTrack pt ssrc (if is_video_pt pt then "video" else "audio") "pion" with
        | Some tr => Some tr
        | None => track t !! ssrc
        end
    | None => track t !! ssrc
    end.
Proof. apply AnswerSubscribe_lookup. Qed.

Lemma AnswerSubscribe_track_table_witness :
  track (AnswerSubscribe_tracks default_NewTrack (fst (newWebRTCTransport "sub" ∅))
           (map_to_list sample_ssrcPT)) !! 1234 =
    Some {| PayloadType := 96; trackSenders := 0; trackSent := [] |} /\
  track (AnswerSubscribe_tracks default_NewTrack (fst (newWebRTCTransport "sub" ∅))
           (map_to_list sample_ssrcPT)) !! 9999 = None.
Proof.
  split.
  - rewrite (AnswerSubscribe_track_table default_NewTrack _ sample_ssrcPT _ 1234
               (reflexivity _)).
    reflexivity.
  - rewrite (AnswerSubscribe_track_table default_NewTrack _ sample_ssrcPT _ 9999
               (reflexivity _)).
    reflexivity.
Defined.

(** X14.  [AnswerSubscribe] followed by [WriteRTP], on a transport whose
    track table was empty: a packet is refused with "track not found"
    exactly when the publisher's table does not announce the packet's
    SSRC or pion made no track for the announced payload type. *)
Theorem WriteRTP_after_AnswerSubscribe
    (pc_NewTrack : Z -> Z -> string -> string -> option Track)
    (t : WebRTCTransport) (ssrcPT : gmap Z Z) (visited : list (Z * Z))
    (p : rtp_Packet) :
  visited ≡ₚ map_to_list ssrcPT -> track t = ∅ ->
  (fst (WriteRTP (AnswerSubscribe_tracks pc_NewTrack t visited) (Some p))
     = Some errInvalidTrack
   <->
   match ssrcPT !! SSRC p with
   | Some pt => pc_NewTrack pt (SSRC p) (track_id pt) "pion" = None
   | None => True
   end).
Proof.
  intros Hperm Hempty. unfold WriteRTP.
  rewrite (AnswerSubscribe_lookup pc_NewTrack t ssrcPT visited (SSRC p) Hperm).
  rewrite Hempty, lookup_empty.
  destruct (ssrcPT !! SSRC p) as [pt|]; [|simpl; tauto].
  destruct (pc_NewTrack pt (SSRC p) (track_id pt) "pion") as [tr|]; [|simpl; tauto].
  unfold Track_WriteRTP. destruct (trackSenders tr); simpl; split; discriminate.
Qed.

Lemma WriteRTP_after_AnswerSubscribe_witness :
  fst (WriteRTP (AnswerSubscribe_tracks default_NewTrack
                   (fst (newWebRTCTransport "sub" ∅)) (map_to_list sample_ssrcPT))
         (Some {| SSRC := 9999; SequenceNumber := 1; MarshalSize := 100 |}))
    = Some errInvalidTrack.
Proof.
  apply (WriteRTP_after_AnswerSubscribe default_NewTrack
           (fst (newWebRTCTransport "sub" ∅)) sample_ssrcPT (map_to_list sample_ssrcPT)
           {| SSRC := 9999; SequenceNumber := 1; MarshalSize := 100 |}
           (reflexivity _) eq_refl).
  reflexivity.
Defined.

(* ===================================================================== *)
(** * Properties: what a subscriber's feedback sends to the publisher *)
(* ===================================================================== *)

Lemma length_omap_le {A B} (f : A -> option B) (l : list A) :
  (length (omap f l) <= length l)%nat.
Proof.
  induction l as [|a l IH]; [simpl; lia|].
  change (omap f (a :: l))
    with (match f a with Some y => y :: omap f l | None => omap f l end).
  destruct (f a); cbn [length]; lia.
Qed.

Lemma length_PacketList (n : NackPair) : (length (PacketList n) <= 17)%nat.
Proof.
  unfold PacketList. set (l := omap _ _).
  assert (H : (length l <= 16)%nat).
  { unfold l. etransitivity; [apply length_omap_le|]. rewrite length_seq. lia. }
  clearbody l. simpl. lia.
Qed.

Lemma length_requested (nack : TransportLayerNack) :
  (length (requested nack) <= 17 * length (Nacks nack))%nat.
Proof.
  unfold requested. induction (Nacks nack) as [|n l IH]; [simpl; lia|].
  change (flat_map PacketList (n :: l)) with (PacketList n ++ flat_map PacketList l).
  rewrite length_app. pose proof (length_PacketList n). cbn [length]. lia.
Qed.

(** X15.  Whatever feedback a subscriber sends, in a pipeline whose
    publisher has a peer connection: the only packets its [subReadRTCP]
    writes to the publisher's connection are retransmission requests for
    a single sequence number each, one for a sequence number that a NACK
    of the batch names and the cache does not hold, under that NACK's
    SSRCs.  Keyframe requests, bandwidth estimates and reports from
    subscribers are not passed on, the batch is processed to its end, and
    it causes at most 17 requests per NACK pair it carries. *)
Theorem subReadRTCP_batch_upstream (tid : string) (pkts : list rtcp_Packet) :
  forall (p : pipeline) (pub : WebRTCTransport) (c : PeerConnection),
  getPub p = Some pub -> pc pub = Some c ->
  exists p' pub' out,
    subReadRTCP_batch tid p pkts = Done p' /\
    getPub p' = Some pub' /\
    pc pub' = Some {| pcClosed := pcClosed c; rtcpOut := rtcpOut c ++ out |} /\
    pl_cache p' = pl_cache p /\
    Forall (fun b => exists n sn,
                Nack n ∈ pkts /\ sn ∈ requested n /\
                cached p (nackMediaSSRC n) sn = false /\
                b = [Nack {| nackSenderSSRC := nackSenderSSRC n;
                             nackMediaSSRC := nackMediaSSRC n;
                             Nacks := [ {| PacketID := sn; LostPackets := 0 |} ] |}]) out /\
    (length out <= 17 * nack_pairs pkts)%nat.
Proof.
  unfold getPub.
  induction pkts as [|pkt pkts IH]; intros p pub c Hpub Hc.
  - exists p, pub, []. simpl. rewrite app_nil_r, Hc. destruct c. repeat split; auto.
  - assert (Hskip : subReadRTCP_packet tid p pkt = Done p ->
              exists p' pub' out,
                subReadRTCP_batch tid p (pkt :: pkts) = Done p' /\
                pl_pub p' = Some pub' /\
                pc pub' = Some {| pcClosed := pcClosed c; rtcpOut := rtcpOut c ++ out |} /\
                pl_cache p' = pl_cache p /\
                Forall (fun b => exists n sn,
                            Nack n ∈ pkt :: pkts /\ sn ∈ requested n /\
                            cached p (nackMediaSSRC n) sn = false /\
                            b = [Nack (synth_nack n sn)]) out /\
                (length out <= 17 * nack_pairs pkts)%nat).
    { intros E. destruct (IH p pub c Hpub Hc) as (p' & pub' & out & H0 & H1 & H2 & H3 & H4 & H5).
      exists p', pub', out. unfold subReadRTCP_batch in *. simpl. rewrite E. simpl.
      split; [exact H0|]. split; [exact H1|]. split; [exact H2|]. split; [exact H3|].
      split; [|exact H5].
      eapply Forall_impl; [exact H4|]. intros b (n & sn & Hin & Hrest).
      exists n, sn. split; [now right|exact Hrest]. }
    destruct pkt as [s m|nack| | | |];
      try (destruct Hskip as (p' & pub' & out & H0 & H1 & H2 & H3 & H4 & H5);
           [reflexivity|]; exists p', pub', out; simpl; auto 10; fail).
    clear Hskip.
    set (misses := List.filter (fun sn => negb (cached p (nackMediaSSRC nack) sn))
                     (requested nack)).
    assert (E : subReadRTCP_nack tid p nack =
                ofoldl (subReadRTCP_sn tid nack) p (requested nack)).
    { unfold subReadRTCP_nack, requested. apply ofoldl_flat_map. }
    destruct (subReadRTCP_sns_pub tid nack (requested nack) p pub Hpub)
      as (p1 & R1 & Hcache & Hpub1 & _).
    fold misses in Hpub1.
    pose proof (foldl_sendNack_pc (map (synth_nack nack) misses) pub c Hc) as Hpc.
    destruct (IH p1 _ _ Hpub1 Hpc) as (p' & pub' & out & H0 & H1 & H2 & H3 & H4 & H5).
    exists p', pub', (map (fun n => [Nack n]) (map (synth_nack nack) misses) ++ out).
    split; [|split; [|split; [|split; [|split]]]].
    + unfold subReadRTCP_batch in *. simpl. rewrite E, R1. simpl. exact H0.
    + exact H1.
    + rewrite H2. simpl. now rewrite app_assoc.
    + now rewrite H3.
    + apply Forall_app. split.
      * rewrite map_map. apply Forall_forall. intros b Hb.
        apply list_elem_of_fmap in Hb. destruct Hb as (sn & -> & Hsn).
        apply list_elem_of_In, filter_In in Hsn. destruct Hsn as (Hreq & Hmiss).
        apply list_elem_of_In in Hreq.
        exists nack, sn. split; [left|]. split; [exact Hreq|].
        split; [|reflexivity]. now apply negb_true_iff.
      * eapply Forall_impl; [exact H4|]. intros b (n & sn & Hin & Hreq & Hmiss & ->).
        exists n, sn. split; [now right|]. split; [exact Hreq|].
        split; [|reflexivity]. revert Hmiss. unfold cached. now rewrite Hcache.
    + rewrite length_app, !length_map. simpl.
      pose proof (filter_length_le (fun sn => negb (cached p (nackMediaSSRC nack) sn))
                    (requested nack)) as Hf.
      fold misses in Hf. pose proof (length_requested nack). lia.
Qed.

Lemma subReadRTCP_batch_upstream_witness :
  exists p' pub' out,
    subReadRTCP_batch "sub" sample_pipeline
      [PictureLossIndication 1 1234; Nack sample_nack; ReceiverReport] = Done p' /\
    getPub p' = Some pub' /\
    pc pub' = Some {| pcClosed := false; rtcpOut := out |} /\
    (length out <= 17)%nat.
Proof.
  destruct (subReadRTCP_batch_upstream "sub"
              [PictureLossIndication 1 1234; Nack sample_nack; ReceiverReport]
              sample_pipeline sample_pub sample_pc eq_refl eq_refl)
    as (p' & pub' & out & H0 & H1 & H2 & _ & _ & H5).
  exists p', pub', out. split; [exact H0|]. split; [exact H1|].
  split; [exact H2|exact H5].
Defined.
(* ===================================================================== *)
(** * Properties: packets from the remote track to the reader *)
(* ===================================================================== *)

Lemma nrecv_zero (l : list goroutine) : nrecv l = O -> in_flight l = [].
Proof.
  induction l as [|g l IH]; simpl; [reflexivity|].
  destruct g as [?|? ?|? ?|?]; simpl; try exact IH. discriminate.
Qed.

Lemma nrecv_lookup (l : list goroutine) : forall (i : nat) g,
  l !! i = Some g -> is_receiveRTP g = true -> (1 <= nrecv l)%nat.
Proof.
  induction l as [|x l IH]; intros [|i] g; simpl; try discriminate.
  - intros [= ->] ->. lia.
  - intros H Hr. pose proof (IH i g H Hr). lia.
Qed.

Lemma in_flight_other (l : list goroutine) : forall (i : nat) g g',
  l !! i = Some g -> in_hand g = [] -> in_hand g' = [] ->
  in_flight (<[i := g']> l) = in_flight l.
Proof.
  unfold in_flight.
  induction l as [|x l IH]; intros [|i] g g'; simpl; try discriminate.
  - intros [= ->] -> ->. reflexivity.
  - intros H H1 H2. now rewrite (IH i g g' H H1 H2).
Qed.

Lemma in_flight_one (l : list goroutine) : forall (i : nat) g g',
  (nrecv l <= 1)%nat -> l !! i = Some g -> is_receiveRTP g = true ->
  in_flight l = in_hand g /\ in_flight (<[i := g']> l) = in_hand g'.
Proof.
  induction l as [|x l IH]; intros [|i] g g'; try discriminate.
  - intros Hn [= ->] Hr. simpl in Hn. rewrite Hr in Hn.
    change (in_hand g ++ in_flight l = in_hand g /\
            in_hand g' ++ in_flight l = in_hand g').
    rewrite (nrecv_zero l) by lia. now rewrite !app_nil_r.
  - intros Hn H Hr. simpl in H. pose proof (nrecv_lookup l i g H Hr) as Hl.
    change (in_hand x ++ in_flight l = in_hand g /\
            in_hand x ++ in_flight (<[i := g']> l) = in_hand g').
    simpl in Hn.
    destruct x as [?|? ?|? ?|?]; simpl in *; try (apply (IH i g g'); auto; lia).
    lia.
Qed.

Lemma nrecv_insert (l : list goroutine) : forall (i : nat) g g',
  l !! i = Some g -> is_receiveRTP g' = is_receiveRTP g ->
  nrecv (<[i := g']> l) = nrecv l.
Proof.
  induction l as [|x l IH]; intros [|i] g g'; simpl; try discriminate.
  - intros [= ->] ->. reflexivity.
  - intros H Hr. now rewrite (IH i g g' H Hr).
Qed.

Lemma go_step_packets (up : bool) (t : WebRTCTransport) (g : goroutine) (a : alt) t' g' :
  go_step up t g a = Some (Done (t', g')) ->
  is_receiveRTP g' = is_receiveRTP g /\
  chBuf (rtpCh t') ++ in_hand g' = chBuf (rtpCh t) ++ in_hand g ++ read_of a /\
  (is_receiveRTP g = false ->
   chBuf (rtpCh t') = chBuf (rtpCh t) /\ read_of a = [] /\
   in_hand g = [] /\ in_hand g' = []).
Proof.
  intros H.
  destruct g as [l|ssrc l|total l|l]; destruct l; destruct a; simpl in H;
    try discriminate;
    unfold returning, wg_Done, wg_Add, t_WriteRTCP, chan_send in H;
    repeat match type of H with
           | context [if ?b then _ else _] => destruct b eqn:?
           | context [match pc ?t with _ => _ end] => destruct (pc t) eqn:?
           end;
    simpl in H; try discriminate;
    injection H as <- <-; simpl; rewrite ?app_nil_r;
    (split; [reflexivity|]); (split; [reflexivity|]); auto; discriminate.
Qed.

Lemma step_packets (a : action) (s s' : system) :
  step a s = Some s' -> (nrecv (gs s) <= 1)%nat ->
  (nrecv (gs s') <= 1)%nat /\
  delivered_by a s ++ chBuf (rtpCh (tr s')) ++ in_flight (gs s') =
    chBuf (rtpCh (tr s)) ++ in_flight (gs s) ++ read_by a s.
Proof.
  unfold step, read_by, delivered_by. destruct (panicked s) eqn:Hp; [discriminate|].
  destruct a as [| |i al|i j| |].
  - destruct (closer s) as [[]|]; try discriminate; intros [= <-] Hn; simpl;
      now rewrite app_nil_r.
  - destruct (closer s) as [l|] eqn:Hl; [|discriminate]. simpl.
    destruct (close_step (tr s) l) as [r|] eqn:Hr; [|discriminate]. simpl.
    intros [= <-] Hn. rewrite app_nil_r.
    destruct r as [[[t l'] ev]|msg]; simpl; [|auto].
    split; [exact Hn|]. f_equal. revert Hr. unfold close_step, close_chan.
    destruct l; case_ifs; simpl; try discriminate; intros [= <- <- <-]; reflexivity.
  - destruct (gs s !! i) as [g|] eqn:Hg; [|discriminate]. simpl.
    destruct (go_step (connected s) (tr s) g al) as [r|] eqn:Hr; [|discriminate]. simpl.
    intros [= <-] Hn. destruct r as [[t g']|msg]; simpl; [|now rewrite app_nil_r].
    destruct (go_step_packets _ _ _ _ _ _ Hr) as (Hk & Heq & Hother).
    split; [now rewrite (nrecv_insert _ _ _ _ Hg Hk)|].
    destruct (is_receiveRTP g) eqn:Hrecv.
    + destruct (in_flight_one (gs s) i g g' Hn Hg Hrecv) as (-> & ->). exact Heq.
    + destruct (Hother eq_refl) as (-> & -> & H1 & H2).
      rewrite (in_flight_other _ _ _ _ Hg H1 H2). now rewrite app_nil_r.
  - destruct (gs s !! i) as [[[]| | |]|] eqn:Hi; try discriminate.
    destruct (gs s !! j) as [[|ssrc []| |]|]; try discriminate.
    destruct (chClosed (pliCh (tr s))); [discriminate|].
    intros [= <-] Hn. rewrite app_nil_r. unfold t_WriteRTCP.
    destruct (pc (tr s)); simpl; [|auto].
    rewrite (nrecv_insert _ _ _ (G_sendPLI PliSelect) Hi eq_refl).
    rewrite (in_flight_other _ _ _ (G_sendPLI PliSelect) Hi eq_refl eq_refl). auto.
  - unfold ReadRTP. destruct (chBuf (rtpCh (tr s))) eqn:Eb;
      [destruct (chClosed (rtpCh (tr s)))|]; try discriminate.
    intros [= <-] Hn. simpl. now rewrite app_nil_r.
  - destruct (pc (tr s)) as [c|]; [|discriminate].
    destruct (connected s || pcClosed c); [discriminate|].
    intros [= <-] Hn. simpl. now rewrite app_nil_r.
Qed.

(** X17.  From the remote track to the caller of [ReadRTP], with one
    [receiveRTP] goroutine: in every run, also across [Close], the
    packets handed to the reader so far, then the content of [rtpCh],
    then the packet the goroutine holds, are exactly what the channel and
    the goroutine held at the start followed by the packets read from the
    track, in the order they were read.  No packet is lost, duplicated or
    reordered on the way. *)
Theorem receiveRTP_delivers_in_order (acts : list action) : forall s0 s : system,
  (nrecv (gs s0) <= 1)%nat -> run acts s0 = Some s ->
  along delivered_by acts s0 ++ chBuf (rtpCh (tr s)) ++ in_flight (gs s) =
    chBuf (rtpCh (tr s0)) ++ in_flight (gs s0) ++ along read_by acts s0.
Proof.
  induction acts as [|a acts IH]; simpl; intros s0 s Hn.
  - intros [= <-]. now rewrite app_nil_r.
  - destruct (step a s0) as [s1|] eqn:Hs; [|discriminate]. simpl. intros Hrun.
    destruct (step_packets a s0 s1 Hs Hn) as (Hn1 & Heq).
    rewrite <- app_assoc, (IH s1 s Hn1 Hrun).
    rewrite !app_assoc. f_equal. rewrite <- !app_assoc. exact Heq.
Qed.

Lemma receiveRTP_delivers_in_order_witness :
  exists s,
    run [Go 0 CaseDefault; Go 0 (ReadPacket sample_pkt); Go 0 Run;
         Go 0 CaseDefault; Go 0 (ReadPacket sample_pkt2); Drain; Go 0 Run;
         CallClose; StepClose; StepClose; Go 0 CaseStop]
        audio_system = Some s /\
    along delivered_by
        [Go 0 CaseDefault; Go 0 (ReadPacket sample_pkt); Go 0 Run;
         Go 0 CaseDefault; Go 0 (ReadPacket sample_pkt2); Drain; Go 0 Run;
         CallClose; StepClose; StepClose; Go 0 CaseStop] audio_system
      ++ chBuf (rtpCh (tr s)) ++ in_flight (gs s) = [sample_pkt; sample_pkt2].
Proof.
  assert (Hsched : exists s,
              run [Go 0 CaseDefault; Go 0 (ReadPacket sample_pkt); Go 0 Run; Go 0
              CaseDefault; Go 0 (ReadPacket sample_pkt2); Drain; Go 0 Run; CallClose;
              StepClose; StepClose; Go 0 CaseStop] audio_system = Some s)
    by (vm_compute; eexists; reflexivity).
  destruct Hsched as [s E].
  exists s. split; [exact E|].
  assert (Hn : (nrecv (gs audio_system) <= 1)%nat) by (simpl; lia).
  rewrite (receiveRTP_delivers_in_order _ audio_system s Hn E).
  vm_compute. reflexivity.
Defined.
